(** * MongoSQL parser (mongosql/parser.py): a shallow embedding

    The module under study is a PLY grammar: every [p_*] function carries its
    productions in its docstring and its semantic action in its body, and the
    last line of the module builds the LALR(1) parser with [yacc.yacc].  The
    embedding follows that layout:

    - [Py]       Python values, the object store, exceptions, the action monad;
    - [Support]  the node classes imported from [mongosql.support];
    - [Yacc]     the table construction and the shift/reduce driver of PLY;
    - the [p_*] actions, the grammar read off the docstrings, [parser], [parse];
    - the properties. *)

From Stdlib Require Import PrimFloat ZArith String Ascii List Lia.
From stdpp Require Import gmap strings list.
Import ListNotations.

Local Open Scope string_scope.
Local Open Scope list_scope.

(* ===================================================================== *)
(** ** Python values, store and exceptions *)
(* ===================================================================== *)

Module Py.

(** Values that travel on the parser's symbol stack.  Immutable Python values
    (numbers, strings, tuples, the node classes) are carried as they are.
    Objects the actions mutate in place (lists, the two operation records)
    live in the store and are named by a reference [VRef]; the constructors
    [VList], [VSelectOperation] and [VAggregateOperation] are the contents of
    store cells (and what [snapshot] puts in place of a reference). *)
Inductive value : Type :=
| VNone
| VBool (b : bool)
| VInt (n : Z)
| VFloat (x : float)
| VStr (s : string)
| VTuple (items : list value)
| VDict (d : gmap string value)
| VNamedExpression (name expression : value)
| VSymbol (name : value)
| VOperation (first operator second : value)
| VComparison (first operator second : value)
| VLogicalAnd (first second : value)
| VLogicalOr (first second : value)
| VLogicalNot (operand : value)
| VFunctionCall (name args : value)
| VMap (entries : list value)
| VAggregateCmdProject (fields : value)
| VRef (a : nat)
| VList (items : list value)
| VSelectOperation (collection fields query limit skip sort : value)
| VAggregateOperation (collection pipeline : value).

(** The store: cell [a] holds the object [VRef a] names. *)
Definition store := list value.

(** A token as the lexer hands it over ([LexToken.type], [LexToken.value]). *)
Record LexToken := Token { tok_type : string; tok_value : value }.

(** Exceptions an action or the driver can raise.  [OutOfFuel] and
    [Unmodelled] are outcomes of the model, not of Python: the first ends a
    run whose step budget is spent, the second marks a Python behaviour the
    embedding does not cover (a [dict] key that is not a [str]). *)
Inductive exn :=
| ParserError (p : option LexToken)
| AssertionError
| IndexError
| TypeError
| AttributeError
| ValueError
| KeyError
| OutOfFuel
| Unmodelled.

Inductive result (A : Type) :=
| Ok (a : A) (st : store)
| Raise (e : exn).
Arguments Ok {A} a st.
Arguments Raise {A} e.

(** Actions read and write the store and may raise. *)
Definition M (A : Type) := store -> result A.

Definition ret {A} (a : A) : M A := fun st => Ok a st.
Definition bind {A B} (m : M A) (k : A -> M B) : M B :=
  fun st => match m st with
            | Ok a st' => k a st'
            | Raise e => Raise e
            end.
Definition raise {A} (e : exn) : M A := fun _ => Raise e.

Declare Scope py_scope.
Delimit Scope py_scope with py.
Notation "x <- m ;; k" := (bind m (fun x => k))
  (at level 100, m at next level, right associativity) : py_scope.
Notation "m ;;; k" := (bind m (fun _ => k))
  (at level 100, right associativity) : py_scope.
Local Open Scope py_scope.

(** [assert c] *)
Definition assert (c : bool) : M unit :=
  if c then ret tt else raise AssertionError.

(** [p[i]] on a production slice: [p[0]] is the result slot, [p[1..]] the
    values of the right-hand side. *)
Definition getitem (p : list value) (i : nat) : M value :=
  match p !! i with
  | Some v => ret v
  | None => raise IndexError
  end.

(** A fresh object. *)
Definition alloc (o : value) : M value :=
  fun st => Ok (VRef (List.length st)) (st ++ [o]).

(** The object a value denotes: the cell for a reference, the value itself
    otherwise. *)
Definition deref (st : store) (v : value) : option value :=
  match v with
  | VRef a => st !! a
  | _ => Some v
  end.

Definition load (v : value) : M value :=
  fun st => match deref st v with
            | Some o => Ok o st
            | None => Raise Unmodelled
            end.

(** [lst.append(x)] *)
Definition append (lst x : value) : M unit :=
  fun st => match lst with
            | VRef a =>
                match st !! a with
                | Some (VList items) => Ok tt (<[a := VList (items ++ [x])]> st)
                | _ => Raise AttributeError
                end
            | _ => Raise AttributeError
            end.

(** [for x in v]: the elements of a list, a tuple, a named tuple or a
    string, in order. *)
Definition iter (v : value) : M (list value) :=
  o <- load v ;;
  match o with
  | VList items => ret items
  | VTuple items => ret items
  | VNamedExpression n e => ret [n; e]
  | VStr s => ret (map (fun c => VStr (String c EmptyString)) (list_ascii_of_string s))
  | _ => raise TypeError
  end.

(** [isinstance(v, basestring)] *)
Definition is_basestring (v : value) : bool :=
  match v with VStr _ => true | _ => false end.

(** [isinstance(v, (int, long))]; [bool] is a subclass of [int]. *)
Definition is_int_long (v : value) : bool :=
  match v with VInt _ | VBool _ => true | _ => false end.

(** [isinstance(v, (list, tuple))]; a named tuple is a tuple. *)
Definition is_list_tuple (st : store) (v : value) : bool :=
  match deref st v with
  | Some (VList _) | Some (VTuple _) | Some (VNamedExpression _ _) => true
  | _ => false
  end.

(** [v is None] *)
Definition is_None (v : value) : bool :=
  match v with VNone => true | _ => false end.

(** [dict(pairs)]: the elements are taken in order and each must be a pair;
    a later pair with the same key replaces the earlier one.  Keys are [str]
    (the lexemes of SYMBOL tokens); any other key is outside the model. *)
Definition as_pair (v : value) : M (value * value) :=
  items <- iter v ;;
  match items with
  | [k; x] => ret (k, x)
  | _ => raise ValueError
  end.

Fixpoint dict_update (d : gmap string value) (pairs : list value) : M (gmap string value) :=
  match pairs with
  | [] => ret d
  | kv :: rest =>
      kx <- as_pair kv ;;
      match fst kx with
      | VStr s => dict_update (<[s := snd kx]> d) rest
      | _ => raise Unmodelled
      end
  end.

Definition dict (v : value) : M value :=
  pairs <- iter v ;;
  d <- dict_update ∅ pairs ;;
  ret (VDict d).

(** [s[0]], [s[-1]] and [s[1:-1]] on a [str]. *)
Definition str_first (s : string) : option ascii := String.get 0 s.
Definition str_last (s : string) : option ascii := String.get (String.length s - 1) s.
Definition str_slice_1_m1 (s : string) : string :=
  String.substring 1 (String.length s - 2) s.

(** The object graph reachable from a value, with every reference replaced by
    the content of its cell.  [n] bounds the depth of the unfolding. *)
Fixpoint snapshot (n : nat) (st : store) (v : value) : value :=
  match n with
  | O => v
  | S n =>
      let go := snapshot n st in
      match v with
      | VRef a => match st !! a with Some o => go o | None => v end
      | VTuple items => VTuple (map go items)
      | VDict d => VDict (go <$> d)
      | VNamedExpression a b => VNamedExpression (go a) (go b)
      | VSymbol a => VSymbol (go a)
      | VOperation a o b => VOperation (go a) (go o) (go b)
      | VComparison a o b => VComparison (go a) (go o) (go b)
      | VLogicalAnd a b => VLogicalAnd (go a) (go b)
      | VLogicalOr a b => VLogicalOr (go a) (go b)
      | VLogicalNot a => VLogicalNot (go a)
      | VFunctionCall f args => VFunctionCall (go f) (go args)
      | VMap entries => VMap (map go entries)
      | VAggregateCmdProject fs => VAggregateCmdProject (go fs)
      | VList items => VList (map go items)
      | VSelectOperation c f q l s so =>
          VSelectOperation (go c) (go f) (go q) (go l) (go s) (go so)
      | VAggregateOperation c p => VAggregateOperation (go c) (go p)
      | VNone | VBool _ | VInt _ | VFloat _ | VStr _ => v
      end
  end.

End Py.
Export Py.
Local Open Scope py_scope.

(* ===================================================================== *)
(** ** The node classes of [mongosql.support] *)
(* ===================================================================== *)

Module Support.

(** Modelled from the spec: [mongosql/support.py] (the classes [Symbol],
    [Operation], [Comparison], [LogicalAnd], [LogicalOr], [LogicalNot],
    [FunctionCall], [Map], [AggregateCmdProject], [SelectOperation],
    [AggregateOperation] and their base [Expression]) is not among the
    sources.  Each node class keeps its constructor arguments as they are
    passed, in order. *)
Definition Symbol (name : value) : M value := ret (VSymbol name).
Definition Operation (first operator second : value) : M value :=
  ret (VOperation first operator second).
Definition Comparison (first operator second : value) : M value :=
  ret (VComparison first operator second).
Definition LogicalAnd (first second : value) : M value := ret (VLogicalAnd first second).
Definition LogicalOr (first second : value) : M value := ret (VLogicalOr first second).
Definition LogicalNot (operand : value) : M value := ret (VLogicalNot operand).
Definition FunctionCall (name args : value) : M value := ret (VFunctionCall name args).
Definition AggregateCmdProject (fields : value) : M value :=
  ret (VAggregateCmdProject fields).

(** Modelled from the spec: a map literal keeps its entries as an ordered
    sequence of (name, expression) pairs, duplicates included. *)
Definition Map (entries : list value) : M value := ret (VMap entries).

(** Modelled from the spec: a new [SelectOperation] has its [collection] and
    [fields] as given and [query], [limit], [skip], [sort] absent. *)
Definition SelectOperation (collection fields : value) : M value :=
  alloc (VSelectOperation collection fields VNone VNone VNone VNone).

(** Modelled from the spec: a new [AggregateOperation] has its [collection]
    as given and an empty [pipeline], a list of its own. *)
Definition AggregateOperation (collection : value) : M value :=
  pipeline <- alloc (VList []) ;;
  alloc (VAggregateOperation collection pipeline).

(** Modelled from the spec: the instances of [Expression] are the nodes of
    the expression classes; the values of Python's built-in types ([str],
    [int], [float], [bool], [None]) are instances of no class of the
    package. *)
Definition is_Expression (v : value) : bool :=
  match v with
  | VSymbol _ | VOperation _ _ _ | VComparison _ _ _ | VLogicalAnd _ _
  | VLogicalOr _ _ | VLogicalNot _ | VFunctionCall _ _ | VMap _ => true
  | _ => false
  end.

(** [isinstance(v, SelectOperation)] *)
Definition is_SelectOperation (st : store) (v : value) : bool :=
  match v with
  | VRef a => match st !! a with
              | Some (VSelectOperation _ _ _ _ _ _) => true
              | _ => false
              end
  | _ => false
  end.

(** The attributes the parser reads or assigns. *)
Inductive select_attr := Aquery | Alimit | Askip | Asort.

(** [op.attr = x] on a [SelectOperation] *)
Definition setattr (op : value) (attr : select_attr) (x : value) : M unit :=
  fun st =>
    match op with
    | VRef a =>
        match st !! a with
        | Some (VSelectOperation c f q l s so) =>
            let o := match attr with
                     | Aquery => VSelectOperation c f x l s so
                     | Alimit => VSelectOperation c f q x s so
                     | Askip => VSelectOperation c f q l x so
                     | Asort => VSelectOperation c f q l s x
                     end in
            Ok tt (<[a := o]> st)
        | _ => Raise AttributeError
        end
    | _ => Raise AttributeError
    end.

(** [op.pipeline] on an [AggregateOperation] *)
Definition getattr_pipeline (op : value) : M value :=
  o <- load op ;;
  match o with
  | VAggregateOperation _ pipeline => ret pipeline
  | _ => raise AttributeError
  end.

End Support.
Export Support.

(* ===================================================================== *)
(** ** PLY's parser generator and driver ([ply.yacc]) *)
(* ===================================================================== *)

Module Yacc.

(** A grammar rule [name : prod] as PLY reads it off a docstring. *)
Record Production := Prod { prod_name : string; prod_rhs : list string }.

(** An entry of the action table: PLY writes a shift as a positive state
    number, a reduction as a negated rule number and accept as 0. *)
Inductive action :=
| Shift (state : nat)
| Reduce (rule : nat)
| Accept.

(** An LR(0) item: rule number and position of the dot. *)
Definition item := (nat * nat)%type.

Definition item_eqb (x y : item) : bool :=
  Nat.eqb (fst x) (fst y) && Nat.eqb (snd x) (snd y).

Section Sets.
Context {A : Type} (eqb : A -> A -> bool).

Definition mem (x : A) (l : list A) : bool := existsb (eqb x) l.
Definition add (x : A) (l : list A) : list A := if mem x l then l else l ++ [x].
Definition union (l1 l2 : list A) : list A := fold_left (fun acc x => add x acc) l2 l1.
Definition same_set (l1 l2 : list A) : bool :=
  Nat.eqb (List.length l1) (List.length l2) && forallb (fun x => mem x l2) l1.

Fixpoint index_of (x : A) (l : list A) : option nat :=
  match l with
  | [] => None
  | y :: l' => if eqb x y then Some O else option_map S (index_of x l')
  end.
End Sets.

Fixpoint assoc {B : Type} (k : string) (l : list (string * B)) : option B :=
  match l with
  | [] => None
  | (k', b) :: l' => if String.eqb k k' then Some b else assoc k l'
  end.

Fixpoint assoc_set {B : Type} (k : string) (b : B) (l : list (string * B)) : list (string * B) :=
  match l with
  | [] => [(k, b)]
  | (k', b') :: l' => if String.eqb k k' then (k, b) :: l' else (k', b') :: assoc_set k b l'
  end.

Fixpoint update {B : Type} (n : nat) (f : B -> B) (l : list B) : list B :=
  match l, n with
  | [], _ => []
  | x :: l', O => f x :: l'
  | x :: l', S n' => x :: update n' f l'
  end.

(** Repeat [f] until the measure stops growing (at most [n] times). *)
Fixpoint saturate {B : Type} (n : nat) (size : B -> nat) (f : B -> B) (x : B) : B :=
  match n with
  | O => x
  | S n' => let y := f x in
            if Nat.eqb (size y) (size x) then x else saturate n' size f y
  end.

Definition total_size {B : Type} (l : list (list B)) : nat :=
  fold_left (fun n x => (n + List.length x)%nat) l O.

Section Generator.
(** The grammar, rule 0 being the augmented rule [S' : start]. *)
Variable Productions : list Production.
(** Bound on the number of states explored. *)
Variable max_states : nat.

Definition rule_name (p : nat) : string :=
  match Productions !! p with Some pr => prod_name pr | None => "" end.
Definition rule_rhs (p : nat) : list string :=
  match Productions !! p with Some pr => prod_rhs pr | None => [] end.

(** A symbol is a nonterminal when some rule defines it, a terminal
    otherwise. *)
Definition Nonterminal (X : string) : bool :=
  existsb (fun pr => String.eqb (prod_name pr) X) Productions.

Definition rules_of (X : string) : list nat :=
  List.filter (fun p => String.eqb (rule_name p) X) (seq 0 (List.length Productions)).

Definition next_symbol (it : item) : option string := rule_rhs (fst it) !! snd it.

(** *** LR(0) item sets *)

Definition closure_step (J : list item) : list item :=
  fold_left (fun acc it =>
               match next_symbol it with
               | Some X => union item_eqb acc (map (fun p => (p, O)) (rules_of X))
               | None => acc
               end) J J.

Definition lr0_closure (J : list item) : list item :=
  saturate (S (List.length Productions)) (@List.length item) closure_step J.

Definition lr0_goto_kernel (J : list item) (X : string) : list item :=
  flat_map (fun it => match next_symbol it with
                      | Some Y => if String.eqb X Y then [(fst it, S (snd it))] else []
                      | None => []
                      end) J.

Definition symbols_after (J : list item) : list string :=
  fold_left (fun acc it => match next_symbol it with
                           | Some X => add String.eqb X acc
                           | None => acc
                           end) J [].

(** A state is kept as its kernel and its closure. *)
Definition lr0_state := (list item * list item)%type.

Fixpoint find_state (ker : list item) (C : list lr0_state) : option nat :=
  match C with
  | [] => None
  | (k, _) :: C' => if same_set item_eqb ker k then Some O
                    else option_map S (find_state ker C')
  end.

(** The canonical collection, explored in order of creation; row [k] of the
    second component lists the transitions of state [k]. *)
Fixpoint lr0_items_loop (fuel k : nat) (C : list lr0_state)
         (G : list (list (string * nat))) : list lr0_state * list (list (string * nat)) :=
  match fuel with
  | O => (C, G)
  | S fuel' =>
      match C !! k with
      | None => (C, G)
      | Some (_, J) =>
          let '(C', row) :=
            fold_left (fun '(C0, row) X =>
                         let ker := lr0_goto_kernel J X in
                         match find_state ker C0 with
                         | Some j => (C0, row ++ [(X, j)])
                         | None => (C0 ++ [(ker, lr0_closure ker)],
                                    row ++ [(X, List.length C0)])
                         end) (symbols_after J) (C, []) in
          lr0_items_loop fuel' (S k) C' (G ++ [row])
      end
  end.

Definition lr0_items : list lr0_state * list (list (string * nat)) :=
  lr0_items_loop max_states O [([(O, O)], lr0_closure [(O, O)])] [].

Definition lr0_C : list lr0_state := fst lr0_items.
Definition lr0_G : list (list (string * nat)) := snd lr0_items.

Definition transition (G : list (list (string * nat))) (k : nat) (X : string) : option nat :=
  match G !! k with Some row => assoc X row | None => None end.

(** *** Nullable nonterminals *)

Definition nullable_step (N : list string) : list string :=
  fold_left (fun acc pr =>
               if forallb (fun X => mem String.eqb X acc) (prod_rhs pr)
               then add String.eqb (prod_name pr) acc else acc) Productions N.

Definition compute_nullable_nonterminals : list string :=
  saturate (S (List.length Productions)) (@List.length string) nullable_step [].

(** *** LALR(1) lookaheads (DeRemer and Pennello's relations)

    A nonterminal transition is a pair (state, nonterminal) with a goto.
    - DR(p,A): the terminals that can be shifted after the transition
      (and [$end] after the start symbol in state 0);
    - (p,A) reads (r,C): r is the target of (p,A) and C is nullable;
    - (p,A) includes (p',B): some rule [B : beta A gamma] has gamma
      nullable and p is reached from p' along beta;
    - (q, A : omega) lookback (p,A): q is reached from p along omega.
    Read = DR closed under reads, Follow = Read closed under includes, and
    the lookaheads of a completed rule are the union of Follow over its
    lookbacks.  The closures are computed by iteration to a fixed point
    (PLY walks the same graphs depth first). *)

Definition ntrans := (nat * string)%type.

Definition ntrans_eqb (x y : ntrans) : bool :=
  Nat.eqb (fst x) (fst y) && String.eqb (snd x) (snd y).

Definition find_nonterminal_transitions (G : list (list (string * nat))) : list ntrans :=
  flat_map (fun '(k, row) =>
              flat_map (fun '(X, _) => if Nonterminal X then [(k, X)] else []) row)
           (combine (seq 0 (List.length G)) G).

Definition symbols_at (G : list (list (string * nat))) (k : nat) : list string :=
  match G !! k with Some row => map fst row | None => [] end.

Definition dr_relation (G : list (list (string * nat))) (t : ntrans) : list string :=
  let '(k, N) := t in
  let terms := match transition G k N with
               | Some j => List.filter (fun a => negb (Nonterminal a)) (symbols_at G j)
               | None => []
               end in
  if Nat.eqb k O && String.eqb N (hd "" (rule_rhs O)) then terms ++ ["$end"] else terms.

Definition reads_relation (G : list (list (string * nat))) (nullable : list string)
           (t : ntrans) : list ntrans :=
  let '(k, N) := t in
  match transition G k N with
  | Some j => map (fun a => (j, a))
                  (List.filter (fun a => mem String.eqb a nullable) (symbols_at G j))
  | None => []
  end.

(** Follow a right-hand side from state [j]: the transitions on a
    nonterminal whose remainder is nullable, and the state reached. *)
Fixpoint walk (G : list (list (string * nat))) (nullable : list string)
         (j : nat) (syms : list string) : list ntrans * option nat :=
  match syms with
  | [] => ([], Some j)
  | t :: rest =>
      let inc := if Nonterminal t && forallb (fun X => mem String.eqb X nullable) rest
                 then [(j, t)] else [] in
      match transition G j t with
      | Some j' => let '(incs, fin) := walk G nullable j' rest in (inc ++ incs, fin)
      | None => (inc, None)
      end
  end.

(** The lookback pairs ((q, rule), (p,A)) and the includes pairs
    ((p,A), (p',B)). *)
Definition compute_lookback_includes (G : list (list (string * nat)))
           (nullable : list string) (trans : list ntrans)
  : list ((nat * nat) * ntrans) * list (ntrans * ntrans) :=
  fold_left (fun '(lookb, incl) '(k, N) =>
               fold_left (fun '(lookb', incl') r =>
                            let '(incs, fin) := walk G nullable k (rule_rhs r) in
                            (match fin with
                             | Some q => lookb' ++ [((q, r), (k, N))]
                             | None => lookb'
                             end,
                             incl' ++ map (fun i => (i, (k, N))) incs))
                         (rules_of N) (lookb, incl))
            trans ([], []).

(** The least family of sets over the nodes [0 .. n-1] that contains
    [base] and has F(x) ⊇ F(y) for every edge (x, y). *)
Definition relax (edges : list (nat * nat)) (F : list (list string)) : list (list string) :=
  fold_left (fun F' '(x, y) =>
               match F' !! y with
               | Some s => update x (fun old => union String.eqb old s) F'
               | None => F'
               end) edges F.

Definition digraph (edges : list (nat * nat)) (base : list (list string))
  : list (list string) :=
  saturate (S (List.length base * List.length Productions))
           (@total_size string) (relax edges) base.

Definition index_edges (trans : list ntrans) (rel : list (ntrans * ntrans))
  : list (nat * nat) :=
  flat_map (fun '(x, y) =>
              match index_of ntrans_eqb x trans, index_of ntrans_eqb y trans with
              | Some i, Some j => [(i, j)]
              | _, _ => []
              end) rel.

Definition compute_read_sets (G : list (list (string * nat))) (nullable : list string)
           (trans : list ntrans) : list (list string) :=
  digraph (index_edges trans (flat_map (fun t => map (fun u => (t, u))
                                                     (reads_relation G nullable t)) trans))
          (map (dr_relation G) trans).

Definition compute_follow_sets (trans : list ntrans) (readsets : list (list string))
           (incl : list (ntrans * ntrans)) : list (list string) :=
  digraph (index_edges trans incl) readsets.

(** The lookahead set of every (state, completed rule). *)
Definition lookahead_table := list ((nat * nat) * list string).

Definition add_lookaheads (trans : list ntrans) (followsets : list (list string))
           (lookb : list ((nat * nat) * ntrans)) : lookahead_table :=
  map (fun '(qr, t) =>
         (qr, match index_of ntrans_eqb t trans with
              | Some i => match followsets !! i with Some s => s | None => [] end
              | None => []
              end)) lookb.

Definition add_lalr_lookaheads (G : list (list (string * nat))) : lookahead_table :=
  let nullable := compute_nullable_nonterminals in
  let trans := find_nonterminal_transitions G in
  let readsets := compute_read_sets G nullable trans in
  let '(lookb, incl) := compute_lookback_includes G nullable trans in
  let followsets := compute_follow_sets trans readsets incl in
  add_lookaheads trans followsets lookb.

(** The lookaheads of rule [r] completed in state [q]. *)
Definition lookaheads_of (LA : lookahead_table) (q r : nat) : list string :=
  fold_left (fun acc '((q', r'), s) =>
               if Nat.eqb q q' && Nat.eqb r r' then union String.eqb acc s else acc)
            LA [].

(** *** The action and goto tables

    A conflict is settled as PLY does when no precedence is declared:
    every token and every rule has level 0 and associativity [right], so a
    shift/reduce conflict keeps the shift, and of two reductions the rule
    defined first wins. *)

Definition add_action (acts : list (string * action)) (a : string) (new : action)
  : list (string * action) :=
  match assoc a acts with
  | None => acts ++ [(a, new)]
  | Some old =>
      match old, new with
      | Reduce _, Shift j => assoc_set a (Shift j) acts
      | Reduce p, Reduce q => if Nat.ltb q p then assoc_set a (Reduce q) acts else acts
      | _, _ => acts
      end
  end.

Definition state_actions (G : list (list (string * nat))) (LA : lookahead_table)
           (k : nat) (J : list item) : list (string * action) :=
  fold_left (fun acts it =>
               match next_symbol it with
               | None =>
                   match fst it with
                   | O => add_action acts "$end" Accept
                   | p => fold_left (fun acts' a => add_action acts' a (Reduce p))
                                    (lookaheads_of LA k p) acts
                   end
               | Some X =>
                   if Nonterminal X then acts
                   else match transition G k X with
                        | Some j => add_action acts X (Shift j)
                        | None => acts
                        end
               end) J [].

Record LRTable := { lr_action : list (list (string * action));
                    lr_goto : list (list (string * nat)) }.

Definition lr_parse_table : LRTable :=
  let C := lr0_C in
  let G := lr0_G in
  let LA := add_lalr_lookaheads G in
  {| lr_action :=
       map (fun '(k, st) => state_actions G LA k (snd st))
           (combine (seq 0 (List.length C)) C);
     lr_goto :=
       map (List.filter (fun '(X, _) => Nonterminal X)) G |}.

End Generator.

(** *** The driver ([LRParser.parse])

    The stacks are kept with their top at the head.  A run ends with the
    value of the start symbol and the list of the rules reduced, latest
    first; on a token with no action the error function is called with that
    token ([None] at the end of the input). *)

Section Driver.
Variable Productions : list Production.
Variable callable : nat -> list value -> M value.
Variable errorfunc : option LexToken -> M value.
Variable tbl : LRTable.

Definition action_at (state : nat) (ltype : string) : option action :=
  match lr_action tbl !! state with Some row => assoc ltype row | None => None end.

Definition goto_at (state : nat) (pname : string) : option nat :=
  match lr_goto tbl !! state with Some row => assoc pname row | None => None end.

Definition lookahead_type (input : list LexToken) : string :=
  match input with t :: _ => tok_type t | [] => "$end" end.

Fixpoint parse_loop (fuel : nat) (statestack : list nat) (symstack : list value)
         (input : list LexToken) (log : list nat) : M (value * list nat) :=
  match fuel with
  | O => raise OutOfFuel
  | S fuel' =>
      let state := hd O statestack in
      match action_at state (lookahead_type input) with
      | Some (Shift t) =>
          match input with
          | tok :: rest =>
              parse_loop fuel' (t :: statestack) (tok_value tok :: symstack) rest log
          | [] => raise Unmodelled
          end
      | Some (Reduce r) =>
          let plen := List.length (rule_rhs Productions r) in
          let targ := VNone :: rev (take plen symstack) in
          v <- callable r targ ;;
          let statestack' := drop plen statestack in
          match goto_at (hd O statestack') (rule_name Productions r) with
          | Some s => parse_loop fuel' (s :: statestack') (v :: drop plen symstack)
                                 input (r :: log)
          | None => raise KeyError
          end
      | Some Accept => ret (hd VNone symstack, log)
      | None => _ <- errorfunc (head input) ;; raise Unmodelled
      end
  end.

End Driver.

End Yacc.

(* ===================================================================== *)
(** ** The module [mongosql.parser] *)
(* ===================================================================== *)

Import Yacc.

Definition p_error (p : option LexToken) : M value := raise (ParserError p).

(** [named_expression = namedtuple('named_expression', ('name', 'expression'))] *)
Definition named_expression (name expression : value) : M value :=
  ret (VNamedExpression name expression).

Definition is_named_expression (v : value) : bool :=
  match v with VNamedExpression _ _ => true | _ => false end.

(** [i.name], [i.expression] *)
Definition getattr_name (i : value) : M value :=
  match i with VNamedExpression n _ => ret n | _ => raise AttributeError end.
Definition getattr_expression (i : value) : M value :=
  match i with VNamedExpression _ e => ret e | _ => raise AttributeError end.

Definition isinstance_list_tuple (v : value) : M bool :=
  fun st => Ok (is_list_tuple st v) st.
Definition isinstance_SelectOperation (v : value) : M bool :=
  fun st => Ok (is_SelectOperation st v) st.

Fixpoint for_each {A B : Type} (f : A -> M B) (l : list A) : M (list B) :=
  match l with
  | [] => ret []
  | x :: l' => y <- f x ;; ys <- for_each f l' ;; ret (y :: ys)
  end.

(** *** Statements *)

Definition p_statement (p : list value) : M value :=
  p1 <- getitem p 1 ;; ret p1.

Definition p_operation (p : list value) : M value :=
  p1 <- getitem p 1 ;; ret p1.

(** *** Simple expressions *)

Definition p_expression_in_parens (p : list value) : M value :=
  p2 <- getitem p 2 ;; ret p2.

Definition p_expression_base_type (p : list value) : M value :=
  p1 <- getitem p 1 ;; ret p1.

Definition p_expression_symbol (p : list value) : M value :=
  p1 <- getitem p 1 ;; Symbol p1.

Definition p_expression_operation (p : list value) : M value :=
  p1 <- getitem p 1 ;; p2 <- getitem p 2 ;; p3 <- getitem p 3 ;;
  Operation p1 p2 p3.

Definition p_expression_comparison (p : list value) : M value :=
  p1 <- getitem p 1 ;; p2 <- getitem p 2 ;; p3 <- getitem p 3 ;;
  Comparison p1 p2 p3.

Definition p_expression_logical_and (p : list value) : M value :=
  p1 <- getitem p 1 ;; p3 <- getitem p 3 ;; LogicalAnd p1 p3.

Definition p_expression_logical_or (p : list value) : M value :=
  p1 <- getitem p 1 ;; p3 <- getitem p 3 ;; LogicalOr p1 p3.

(** The body reads [LogicalNot(p[1])]: slot 1 of [NOT expression] is the
    [NOT] token. *)
Definition p_expression_not (p : list value) : M value :=
  p1 <- getitem p 1 ;; LogicalNot p1.

(** *** Function call *)

Definition p_expression_call (p : list value) : M value :=
  args <- (if Nat.eqb (List.length p) 5 then getitem p 3 else alloc (VList [])) ;;
  p1 <- getitem p 1 ;;
  FunctionCall p1 args.

(** *** Expression lists *)

Definition p_expression_list_one (p : list value) : M value :=
  p1 <- getitem p 1 ;; alloc (VList [p1]).

Definition p_expression_list (p : list value) : M value :=
  p0 <- getitem p 1 ;;
  p3 <- getitem p 3 ;;
  append p0 p3 ;;;
  ret p0.

(** *** Named expressions *)

Definition p_named_expression_as (p : list value) : M value :=
  p3 <- getitem p 3 ;; p1 <- getitem p 1 ;; named_expression p3 p1.

Definition p_named_expression (p : list value) : M value :=
  p1 <- getitem p 1 ;; p3 <- getitem p 3 ;; named_expression p1 p3.

Definition p_named_expression_list_one (p : list value) : M value :=
  p1 <- getitem p 1 ;;
  assert (is_named_expression p1) ;;;
  alloc (VList [p1]).

Definition p_named_expression_list (p : list value) : M value :=
  p3 <- getitem p 3 ;;
  assert (is_named_expression p3) ;;;
  p0 <- getitem p 1 ;;
  append p0 p3 ;;;
  ret p0.

(** *** Aggregation framework *)

Definition p_operation_aggregate (p : list value) : M value :=
  p2 <- getitem p 2 ;;
  assert (is_basestring p2) ;;;
  AggregateOperation p2.

Definition p_operation_aggregate_project (p : list value) : M value :=
  p3 <- getitem p 3 ;;
  xs <- iter p3 ;;
  assert (forallb is_named_expression xs) ;;;
  p0 <- getitem p 1 ;;
  pipeline <- getattr_pipeline p0 ;;
  stage <- AggregateCmdProject p3 ;;
  append pipeline stage ;;;
  ret p0.

(** *** The SELECT query *)

Definition p_operation_select_base (p : list value) : M value :=
  p2 <- getitem p 2 ;;
  ok <- (if is_None p2 then ret true else isinstance_list_tuple p2) ;;
  assert ok ;;;
  p4 <- getitem p 4 ;;
  assert (is_basestring p4) ;;;
  SelectOperation p4 p2.

Definition p_operation_select_condition (p : list value) : M value :=
  p0 <- getitem p 1 ;;
  ok <- isinstance_SelectOperation p0 ;;
  assert ok ;;;
  p3 <- getitem p 3 ;;
  assert (is_Expression p3) ;;;
  setattr p0 Aquery p3 ;;;
  ret p0.

Definition p_operation_select_limit (p : list value) : M value :=
  p0 <- getitem p 1 ;;
  ok <- isinstance_SelectOperation p0 ;;
  assert ok ;;;
  p3 <- getitem p 3 ;;
  assert (is_int_long p3) ;;;
  setattr p0 Alimit p3 ;;;
  ret p0.

Definition p_operation_select_skip (p : list value) : M value :=
  p0 <- getitem p 1 ;;
  ok <- isinstance_SelectOperation p0 ;;
  assert ok ;;;
  p3 <- getitem p 3 ;;
  assert (is_int_long p3) ;;;
  setattr p0 Askip p3 ;;;
  ret p0.

Definition p_operation_select_sort (p : list value) : M value :=
  p0 <- getitem p 1 ;;
  ok <- isinstance_SelectOperation p0 ;;
  assert ok ;;;
  p3 <- getitem p 3 ;;
  ok3 <- isinstance_list_tuple p3 ;;
  assert ok3 ;;;
  d <- dict p3 ;;
  setattr p0 Asort d ;;;
  ret p0.

(** *** Field names specification *)

Definition p_fields_spec_star (p : list value) : M value := ret VNone.

Definition p_fields_spec_names (p : list value) : M value :=
  p1 <- getitem p 1 ;; ret p1.

(** *** List of symbols *)

Definition p_symbol_list_one (p : list value) : M value :=
  p1 <- getitem p 1 ;; alloc (VList [p1]).

Definition p_symbol_list (p : list value) : M value :=
  p0 <- getitem p 1 ;;
  p3 <- getitem p 3 ;;
  append p0 p3 ;;;
  ret p0.

(** *** Sort specification *)

Definition p_sort_direction_default (p : list value) : M value := ret (VInt 1).
Definition p_sort_direction_asc (p : list value) : M value := ret (VInt 1).
Definition p_sort_direction_desc (p : list value) : M value := ret (VInt (-1)).

Definition p_sort_spec_item (p : list value) : M value :=
  p1 <- getitem p 1 ;; p2 <- getitem p 2 ;; ret (VTuple [p1; p2]).

Definition p_sort_spec_one (p : list value) : M value :=
  p1 <- getitem p 1 ;; alloc (VList [p1]).

Definition p_sort_spec_list (p : list value) : M value :=
  p0 <- getitem p 1 ;;
  p3 <- getitem p 3 ;;
  append p0 p3 ;;;
  ret p0.

(** *** Base types *)

Definition p_base_type (p : list value) : M value :=
  p1 <- getitem p 1 ;; ret p1.

Definition squote : ascii := ascii_of_nat 39.
Definition dquote : ascii := ascii_of_nat 34.

(** The membership test of the second assertion: [c] is one of the two
    quote characters (apostrophe, code 39; double quote, code 34). *)
Definition is_quote (c : ascii) : bool := Ascii.eqb c squote || Ascii.eqb c dquote.

(** [p[1][0]] and [p[1][-1]]: subscripting a [str] gives a character, or
    [IndexError] on the empty string; numbers, booleans and [None] cannot be
    subscripted. *)
Definition subscript (pick : string -> option ascii) (v : value) : M ascii :=
  match v with
  | VStr s => match pick s with Some c => ret c | None => raise IndexError end
  | VNone | VBool _ | VInt _ | VFloat _ => raise TypeError
  | _ => raise Unmodelled
  end.

Definition p_string (p : list value) : M value :=
  p1 <- getitem p 1 ;;
  c0 <- subscript str_first p1 ;;
  cl <- subscript str_last p1 ;;
  assert (Ascii.eqb c0 cl) ;;;
  assert (is_quote c0) ;;;
  match p1 with
  | VStr s => ret (VStr (str_slice_1_m1 s))
  | _ => raise Unmodelled
  end.

Definition p_map_empty (p : list value) : M value := Map [].

Definition p_map (p : list value) : M value :=
  p2 <- getitem p 2 ;;
  items <- iter p2 ;;
  entries <- for_each (fun i => n <- getattr_name i ;;
                                e <- getattr_expression i ;;
                                ret (VTuple [n; e])) items ;;
  Map entries.

(** *** The grammar

    The rules in the order PLY numbers them: the [p_*] functions by line
    number, the alternatives of a docstring top to bottom.  Rule 0 is the
    augmented rule; the start symbol is the left-hand side of the first
    rule. *)

Record rule := R { rule_lhs : string; rule_syms : list string;
                   rule_func : list value -> M value }.

Definition grammar : list rule :=
  [ R "statement" ["expression"] p_statement;
    R "statement" ["operation"] p_statement;
    R "operation" ["operation_select"] p_operation;
    R "operation" ["operation_aggregate"] p_operation;
    R "expression" ["LPAREN"; "expression"; "RPAREN"] p_expression_in_parens;
    R "expression" ["base_type"] p_expression_base_type;
    R "expression" ["SYMBOL"] p_expression_symbol;
    R "expression" ["expression"; "PLUS"; "expression"] p_expression_operation;
    R "expression" ["expression"; "MINUS"; "expression"] p_expression_operation;
    R "expression" ["expression"; "STAR"; "expression"] p_expression_operation;
    R "expression" ["expression"; "SLASH"; "expression"] p_expression_operation;
    R "expression" ["expression"; "PERCENT"; "expression"] p_expression_operation;
    R "expression" ["expression"; "LT"; "expression"] p_expression_comparison;
    R "expression" ["expression"; "LTE"; "expression"] p_expression_comparison;
    R "expression" ["expression"; "GT"; "expression"] p_expression_comparison;
    R "expression" ["expression"; "GTE"; "expression"] p_expression_comparison;
    R "expression" ["expression"; "DBLEQUAL"; "expression"] p_expression_comparison;
    R "expression" ["expression"; "NE"; "expression"] p_expression_comparison;
    R "expression" ["expression"; "AND"; "expression"] p_expression_logical_and;
    R "expression" ["expression"; "OR"; "expression"] p_expression_logical_or;
    R "expression" ["NOT"; "expression"] p_expression_not;
    R "expression" ["SYMBOL"; "LPAREN"; "expression_list"; "RPAREN"] p_expression_call;
    R "expression" ["SYMBOL"; "LPAREN"; "RPAREN"] p_expression_call;
    R "expression_list" ["expression"] p_expression_list_one;
    R "expression_list" ["expression_list"; "COMMA"; "expression"] p_expression_list;
    R "named_expression" ["expression"; "AS"; "SYMBOL"] p_named_expression_as;
    R "named_expression" ["SYMBOL"; "EQUAL"; "expression"] p_named_expression;
    R "named_expression_list" ["named_expression"] p_named_expression_list_one;
    R "named_expression_list" ["named_expression_list"; "COMMA"; "named_expression"]
      p_named_expression_list;
    R "operation_aggregate" ["AGGREGATE"; "SYMBOL"] p_operation_aggregate;
    R "operation_aggregate" ["operation_aggregate"; "PROJECT"; "named_expression_list"]
      p_operation_aggregate_project;
    R "operation_select" ["SELECT"; "fields_spec"; "FROM"; "SYMBOL"] p_operation_select_base;
    R "operation_select" ["operation_select"; "WHERE"; "expression"]
      p_operation_select_condition;
    R "operation_select" ["operation_select"; "LIMIT"; "INTEGER"] p_operation_select_limit;
    R "operation_select" ["operation_select"; "SKIP"; "INTEGER"] p_operation_select_skip;
    R "operation_select" ["operation_select"; "SORT"; "sort_spec"] p_operation_select_sort;
    R "fields_spec" ["STAR"] p_fields_spec_star;
    R "fields_spec" ["symbol_list"] p_fields_spec_names;
    R "symbol_list" ["SYMBOL"] p_symbol_list_one;
    R "symbol_list" ["symbol_list"; "COMMA"; "SYMBOL"] p_symbol_list;
    R "sort_direction" [] p_sort_direction_default;
    R "sort_direction" ["ASC"] p_sort_direction_asc;
    R "sort_direction" ["DESC"] p_sort_direction_desc;
    R "sort_spec_item" ["SYMBOL"; "sort_direction"] p_sort_spec_item;
    R "sort_spec" ["sort_spec_item"] p_sort_spec_one;
    R "sort_spec" ["sort_spec"; "COMMA"; "sort_spec_item"] p_sort_spec_list;
    R "base_type" ["string"] p_base_type;
    R "base_type" ["INTEGER"] p_base_type;
    R "base_type" ["FLOAT"] p_base_type;
    R "base_type" ["TRUE"] p_base_type;
    R "base_type" ["FALSE"] p_base_type;
    R "base_type" ["NULL"] p_base_type;
    R "base_type" ["map"] p_base_type;
    R "string" ["STRING"] p_string;
    R "map" ["LBRACE"; "RBRACE"] p_map_empty;
    R "map" ["LBRACE"; "named_expression_list"; "RBRACE"] p_map;
    R "map" ["LBRACE"; "named_expression_list"; "COMMA"; "RBRACE"] p_map ].

Definition Productions : list Production :=
  Prod "S'" ["statement"] :: map (fun r => Prod (rule_lhs r) (rule_syms r)) grammar.

Definition callable (n : nat) (p : list value) : M value :=
  match n with
  | O => raise Unmodelled
  | S n' => match grammar !! n' with
            | Some r => rule_func r p
            | None => raise Unmodelled
            end
  end.

(** *** [parser = yacc.yacc(debug=debug)]

    The tables of the grammar above, computed once.  [debug] only switches
    the generator's log on. *)

Definition max_states : nat := 1000.

Definition parser : LRTable := Eval vm_compute in lr_parse_table Productions max_states.

(** [parser.parse]: the driver on a token sequence, starting in state 0 with
    an empty store; the step budget is linear in the input. *)
Definition parse_fuel (input : list LexToken) : nat := 16 * (List.length input + 2).

Definition parse_from (st : store) (input : list LexToken) : result (value * list nat) :=
  parse_loop Productions callable p_error parser (parse_fuel input) [O] [VNone] input [] st.

(** The caller gets the value of the start symbol; the log is dropped. *)
Definition drop_log (r : result (value * list nat)) : result value :=
  match r with
  | Ok (v, _) st => Ok v st
  | Raise e => Raise e
  end.

Definition parse (input : list LexToken) : result value :=
  drop_log (parse_from [] input).

(** The rules reduced during a parse, in the order of their reduction (what
    PLY's debug log lists as its reduce actions). *)
Definition reductions (input : list LexToken) : option (list Production) :=
  match parse_from [] input with
  | Ok (_, log) _ => Some (map (fun r => nth r Productions (Prod "" [])) (rev log))
  | Raise _ => None
  end.

(** The result of a parse as a tree: the returned value with the objects it
    refers to written in place. *)
Definition ast (r : result value) : option value :=
  match r with
  | Ok v st => Some (snapshot (4 * List.length st + 16) st v)
  | Raise _ => None
  end.

(** *** Tokens

    Modelled from the spec: the lexer ([mongosql/lexer.py]) is not among the
    sources.  A token has a kind and a value; keywords, operators and
    punctuation carry their lexeme, a SYMBOL its name, a STRING its quoted
    lexeme, and INTEGER, FLOAT, TRUE, FALSE, NULL the typed value. *)
Definition kw (kind lexeme : string) : LexToken := Token kind (VStr lexeme).
Definition SYMBOL (name : string) : LexToken := Token "SYMBOL" (VStr name).
Definition STRING (lexeme : string) : LexToken := Token "STRING" (VStr lexeme).
Definition INTEGER (n : Z) : LexToken := Token "INTEGER" (VInt n).
Definition FLOAT (x : float) : LexToken := Token "FLOAT" (VFloat x).
Definition TRUE : LexToken := Token "TRUE" (VBool true).
Definition FALSE : LexToken := Token "FALSE" (VBool false).
Definition NULL : LexToken := Token "NULL" VNone.
Definition PLUS := kw "PLUS" "+".
Definition MINUS := kw "MINUS" "-".
Definition STAR := kw "STAR" "*".
Definition SLASH := kw "SLASH" "/".
Definition PERCENT := kw "PERCENT" "%".
Definition LT := kw "LT" "<".
Definition LTE := kw "LTE" "<=".
Definition GT := kw "GT" ">".
Definition GTE := kw "GTE" ">=".
Definition DBLEQUAL := kw "DBLEQUAL" "==".
Definition NE := kw "NE" "!=".
Definition AND := kw "AND" "AND".
Definition OR := kw "OR" "OR".
Definition NOT := kw "NOT" "NOT".
Definition LPAREN := kw "LPAREN" "(".
Definition RPAREN := kw "RPAREN" ")".
Definition LBRACE := kw "LBRACE" "{".
Definition RBRACE := kw "RBRACE" "}".
Definition COMMA := kw "COMMA" ",".
Definition EQUAL := kw "EQUAL" "=".
Definition AS := kw "AS" "AS".
Definition SELECT := kw "SELECT" "SELECT".
Definition FROM := kw "FROM" "FROM".
Definition WHERE := kw "WHERE" "WHERE".
Definition LIMIT := kw "LIMIT" "LIMIT".
Definition SKIP := kw "SKIP" "SKIP".
Definition SORT := kw "SORT" "SORT".
Definition ASC := kw "ASC" "ASC".
Definition DESC := kw "DESC" "DESC".
Definition AGGREGATE := kw "AGGREGATE" "AGGREGATE".
Definition PROJECT := kw "PROJECT" "PROJECT".

(** *** Vocabulary for the properties

    An atomic operand is an expression made of one token; a binary operator
    is one of the thirteen operator tokens of [p_expression_operation],
    [p_expression_comparison], [p_expression_logical_and] and
    [p_expression_logical_or]. *)

Inductive atom :=
| ASymbol (name : string)
| AInteger (n : Z)
| AFloat (x : float)
| ATrue
| AFalse
| ANull.

Definition atom_token (a : atom) : LexToken :=
  match a with
  | ASymbol s => SYMBOL s
  | AInteger n => INTEGER n
  | AFloat x => FLOAT x
  | ATrue => TRUE
  | AFalse => FALSE
  | ANull => NULL
  end.

(** The value [p_expression_symbol] or [p_expression_base_type] gives it. *)
Definition atom_value (a : atom) : value :=
  match a with
  | ASymbol s => VSymbol (VStr s)
  | AInteger n => VInt n
  | AFloat x => VFloat x
  | ATrue => VBool true
  | AFalse => VBool false
  | ANull => VNone
  end.

Inductive binop :=
| OpPlus | OpMinus | OpStar | OpSlash | OpPercent
| OpLt | OpLte | OpGt | OpGte | OpDblEqual | OpNe
| OpAnd | OpOr.

Definition binop_kind (o : binop) : string :=
  match o with
  | OpPlus => "PLUS" | OpMinus => "MINUS" | OpStar => "STAR" | OpSlash => "SLASH"
  | OpPercent => "PERCENT"
  | OpLt => "LT" | OpLte => "LTE" | OpGt => "GT" | OpGte => "GTE"
  | OpDblEqual => "DBLEQUAL" | OpNe => "NE"
  | OpAnd => "AND" | OpOr => "OR"
  end.

(** The node the rule of the operator builds from [p[1]], [p[2]], [p[3]]. *)
Definition binop_node (o : binop) (first operator second : value) : value :=
  match o with
  | OpPlus | OpMinus | OpStar | OpSlash | OpPercent => VOperation first operator second
  | OpLt | OpLte | OpGt | OpGte | OpDblEqual | OpNe => VComparison first operator second
  | OpAnd => VLogicalAnd first second
  | OpOr => VLogicalOr first second
  end.

(** The optional direction of a sort item, its tokens and the value the
    rules [p_sort_direction_*] give it. *)
Inductive direction := DirOmitted | DirAsc | DirDesc.

Definition direction_tokens (d : direction) : list LexToken :=
  match d with
  | DirOmitted => []
  | DirAsc => [ASC]
  | DirDesc => [DESC]
  end.

Definition direction_value (d : direction) : Z :=
  match d with
  | DirOmitted => 1
  | DirAsc => 1
  | DirDesc => -1
  end.

(** *** Vocabulary for the map literal and the tables

    Four facts are read off the tables below.  State 20 follows an opening brace,
    state 48 the entries of a map literal, state 79 the comma after them;
    rules 56 and 57 are the two alternatives of [p_map]. *)

Definition rbrace_reduces_like_comma (row : list (string * action)) : bool :=
  match assoc "RBRACE" row with
  | Some (Reduce r) =>
      match assoc "COMMA" row with
      | Some (Reduce r') => Nat.eqb r r'
      | _ => false
      end
  | Some Accept => false
  | _ => true
  end.

Definition rbrace_shift_states (krow : nat * list (string * action)) : bool :=
  match assoc "RBRACE" (snd krow) with
  | Some (Shift j) =>
      Nat.eqb (fst krow) 20 || (Nat.eqb (fst krow) 48 && Nat.eqb j 78) || Nat.eqb (fst krow) 79
  | _ => true
  end.

Definition shifts_into_20_79 (row : list (string * action)) : bool :=
  forallb (fun '(a, act) =>
             match act with
             | Shift j => (negb (Nat.eqb j 20) || String.eqb a "LBRACE")
                          && (negb (Nat.eqb j 79) || String.eqb a "COMMA")
             | _ => true
             end) row.

Definition gotos_avoid_20_79 (row : list (string * nat)) : bool :=
  forallb (fun '(_, j) => negb (Nat.eqb j 20) && negb (Nat.eqb j 79)) row.

(** The last token read does not open a map and is not a comma; when nothing
    is left to read, the state on top is neither 20 nor 79. *)
Definition closes_entry (r : list LexToken) (ss : list nat) : Prop :=
  match list.last r with
  | Some t => tok_type t <> "LBRACE" /\ tok_type t <> "COMMA"
  | None => hd O ss <> 20%nat /\ hd O ss <> 79%nat
  end.

(** Numbers, strings, booleans and [None] are their own snapshot. *)
Definition is_flat (v : value) : bool :=
  match v with
  | VNone | VBool _ | VInt _ | VFloat _ | VStr _ => true
  | _ => false
  end.

(** A store with a SelectOperation in cell 1. *)
Definition frame_store : store :=
  [VList [VStr "x"];
   VSelectOperation (VStr "c") (VRef 0) VNone (VInt 7) VNone VNone;
   VList [VTuple [VStr "k"; VInt (-1)]]].

(** *** Vocabulary for sort specs

    A sort item is a field name with its optional direction; a sort spec is
    a first item and the items that follow it, each after a comma. *)
Definition sort_item := (string * direction)%type.

Definition sort_item_tokens (it : sort_item) : list LexToken :=
  SYMBOL (fst it) :: direction_tokens (snd it).

Definition sort_spec_tokens (first : sort_item) (rest : list sort_item) : list LexToken :=
  sort_item_tokens first ++ flat_map (fun it => COMMA :: sort_item_tokens it) rest.

(** The pair [p_sort_spec_item] builds for an item. *)
Definition sort_pair (it : sort_item) : value :=
  VTuple [VStr (fst it); VInt (direction_value (snd it))].

(** The dict built from the pairs of the items, taken in order. *)
Definition sort_dict (items : list sort_item) : gmap string value :=
  fold_left (fun d it => <[fst it := VInt (direction_value (snd it))]> d) items ∅.

(** In the spec's words: the direction of the last occurrence of a name
    among the items, if it occurs at all. *)
Fixpoint last_direction (name : string) (items : list sort_item) : option Z :=
  match items with
  | [] => None
  | it :: rest =>
      match last_direction name rest with
      | Some d => Some d
      | None => if String.eqb (fst it) name then Some (direction_value (snd it)) else None
      end
  end.

(** Steps the driver takes from the end of an item to the end of the
    statement. *)
Fixpoint sort_steps (rest : list sort_item) : nat :=
  match rest with
  | [] => 4
  | _ :: rest' => 6 + sort_steps rest'
  end.

(** *** Vocabulary for named-expression lists

    An entry is a name with an atomic expression, written in one of the two
    forms [name = expr] and [expr AS name]; a list of entries is a first
    entry and the entries that follow it, each after a comma. *)
Inductive entry_form := ByEqual | ByAs.

Definition entry := (string * atom * entry_form)%type.

Definition entry_tokens (e : entry) : list LexToken :=
  let '(n, a, form) := e in
  match form with
  | ByEqual => [SYMBOL n; EQUAL; atom_token a]
  | ByAs => [atom_token a; AS; SYMBOL n]
  end.

Definition entries_tokens (first : entry) (rest : list entry) : list LexToken :=
  entry_tokens first ++ flat_map (fun e => COMMA :: entry_tokens e) rest.

(** The named tuple the rules of [named_expression] build for an entry, and
    the pair [p_map] makes of it. *)
Definition entry_named (e : entry) : value :=
  let '(n, a, _) := e in VNamedExpression (VStr n) (atom_value a).

Definition entry_pair (e : entry) : value :=
  let '(n, a, _) := e in VTuple [VStr n; atom_value a].

(** Steps the driver takes from the end of an entry to the end of a
    statement that is one map literal. *)
Fixpoint map_steps (rest : list entry) : nat :=
  match rest with
  | [] => 6
  | _ :: rest' => 8 + map_steps rest'
  end.

(** *** Vocabulary for aggregate statements

    A PROJECT clause is a list of entries; the statement is [AGGREGATE c]
    followed by its clauses. *)
Definition clause := (entry * list entry)%type.

Definition clause_tokens (cl : clause) : list LexToken :=
  PROJECT :: entries_tokens (fst cl) (snd cl).

(** The list object a clause leaves in the store. *)
Definition clause_list (cl : clause) : value :=
  VList (map entry_named (fst cl :: snd cl)).

(** The stages of a pipeline whose [n] clause lists sit in cells 2, 3, ... *)
Definition stage_refs (n : nat) : list value :=
  map (fun i => VAggregateCmdProject (VRef i)) (seq 2 n).

(** The store of an aggregate statement: the pipeline list in cell 0, the
    operation in cell 1, then one list per clause. *)
Definition agg_store (c : string) (lists : list value) : store :=
  VList (stage_refs (List.length lists))
        :: VAggregateOperation (VStr c) (VRef 0) :: lists.

Fixpoint project_steps (rest : list entry) : nat :=
  match rest with
  | [] => 1
  | _ :: rest' => 8 + project_steps rest'
  end.

Fixpoint aggregate_steps (clauses : list clause) : nat :=
  match clauses with
  | [] => 3
  | cl :: clauses' => 9 + (project_steps (snd cl) + aggregate_steps clauses')
  end.

(** An entry, and a clause, rewritten in one form. *)
Definition set_form (f : entry_form) (e : entry) : entry := (fst e, f).

Definition clause_set_form (f : entry_form) (cl : clause) : clause :=
  (set_form f (fst cl), map (set_form f) (snd cl)).

(** *** Vocabulary for expressions without parentheses

    A flat expression is a sequence of atomic operands separated by binary
    operators, each operand possibly preceded by NOT tokens; read from the
    left it is an atom, or NOT followed by a flat expression, or an atom, an
    operator and a flat expression. *)
Inductive flat :=
| FlatAtom (a : atom)
| FlatNot (lexeme : string) (e : flat)
| FlatBin (a : atom) (o : binop) (lexeme : string) (e : flat).

Fixpoint flat_tokens (e : flat) : list LexToken :=
  match e with
  | FlatAtom a => [atom_token a]
  | FlatNot lexeme e' => kw "NOT" lexeme :: flat_tokens e'
  | FlatBin a o lexeme e' => atom_token a :: kw (binop_kind o) lexeme :: flat_tokens e'
  end.

(** The value of a flat expression when every operator takes all that
    follows it as its right operand; for NOT, the node [p_expression_not]
    builds (see [p_expression_not_wraps_slot_1]). *)
Fixpoint flat_value (e : flat) : value :=
  match e with
  | FlatAtom a => atom_value a
  | FlatNot lexeme _ => VLogicalNot (VStr lexeme)
  | FlatBin a o lexeme e' => binop_node o (atom_value a) (VStr lexeme) (flat_value e')
  end.

(** The rules by number and as productions. *)
Definition atom_rules (a : atom) : list nat :=
  match a with
  | ASymbol _ => [7]
  | AInteger _ => [48; 6]
  | AFloat _ => [49; 6]
  | ATrue => [50; 6]
  | AFalse => [51; 6]
  | ANull => [52; 6]
  end%nat.

Definition binop_rule (o : binop) : nat :=
  match o with
  | OpPlus => 8 | OpMinus => 9 | OpStar => 10 | OpSlash => 11 | OpPercent => 12
  | OpLt => 13 | OpLte => 14 | OpGt => 15 | OpGte => 16 | OpDblEqual => 17 | OpNe => 18
  | OpAnd => 19 | OpOr => 20
  end%nat.

(** The rules reduced for a flat expression that is grouped to the right, in
    the order of their reduction: an operand first, then all that follows
    its operator, then the operator's rule; the rule of NOT after all that
    follows the NOT. *)
Fixpoint flat_rules (e : flat) : list nat :=
  match e with
  | FlatAtom a => atom_rules a
  | FlatNot _ e' => flat_rules e' ++ [21%nat]
  | FlatBin a o _ e' => atom_rules a ++ flat_rules e' ++ [binop_rule o]
  end.

Definition production (r : nat) : Production := nth r Productions (Prod "" []).

(** A chain [a op b op ... ] of atoms, and its value grouped to the right. *)
Definition chain_link := (binop * string * atom)%type.

Definition chain_tokens (a : atom) (rest : list chain_link) : list LexToken :=
  atom_token a
  :: flat_map (fun l : chain_link =>
                 let '(o, lexeme, b) := l in [kw (binop_kind o) lexeme; atom_token b]) rest.

Fixpoint chain_value (a : atom) (rest : list chain_link) : value :=
  match rest with
  | [] => atom_value a
  | (o, lexeme, b) :: rest' =>
      binop_node o (atom_value a) (VStr lexeme) (chain_value b rest')
  end.

Fixpoint chain_flat (a : atom) (rest : list chain_link) : flat :=
  match rest with
  | [] => FlatAtom a
  | (o, lexeme, b) :: rest' => FlatBin a o lexeme (chain_flat b rest')
  end.

(** The states of the driver inside a flat expression.  What precedes an
    operand is the start of the input, a NOT or a binary operator; the state
    then waits for an operand, and after the operand it has an expression. *)
Inductive ctx := CStart | CNot | CBin (o : binop).

Definition op_state (o : binop) : nat :=
  match o with
  | OpPlus => 21 | OpMinus => 22 | OpStar => 23 | OpSlash => 24 | OpPercent => 25
  | OpLt => 26 | OpLte => 27 | OpGt => 28 | OpGte => 29 | OpDblEqual => 30 | OpNe => 31
  | OpAnd => 32 | OpOr => 33
  end%nat.

Definition ctx_state (c : ctx) : nat :=
  match c with
  | CStart => 0
  | CNot => 7
  | CBin o => op_state o
  end%nat.

Definition ctx_expr_state (c : ctx) : nat :=
  match c with
  | CStart => 2
  | CNot => 36
  | CBin o => 31 + op_state o
  end%nat.

Definition atom_state (a : atom) : nat :=
  match a with
  | ASymbol _ => 6
  | AInteger _ => 11
  | AFloat _ => 12
  | ATrue => 13
  | AFalse => 14
  | ANull => 15
  end%nat.

(** What is open to the left of the operand being read, innermost first. *)
Inductive frame :=
| FNot (tok : value)
| FBin (left : value) (o : binop) (tok : value).

Definition top_ctx (frames : list frame) : ctx :=
  match frames with
  | [] => CStart
  | FNot _ :: _ => CNot
  | FBin _ o _ :: _ => CBin o
  end.

Fixpoint frame_states (frames : list frame) : list nat :=
  match frames with
  | [] => [O]
  | FNot _ :: fr => 7%nat :: frame_states fr
  | FBin _ o _ :: fr => op_state o :: ctx_expr_state (top_ctx fr) :: frame_states fr
  end.

Fixpoint frame_values (frames : list frame) : list value :=
  match frames with
  | [] => [VNone]
  | FNot t :: fr => t :: frame_values fr
  | FBin l _ t :: fr => t :: l :: frame_values fr
  end.

(** Closing the open frames around a finished operand. *)
Fixpoint unwind (frames : list frame) (top : value) : value :=
  match frames with
  | [] => top
  | FNot t :: fr => unwind fr (VLogicalNot t)
  | FBin l o t :: fr => unwind fr (binop_node o l t top)
  end.

Definition frame_rule (f : frame) : nat :=
  match f with
  | FNot _ => 21%nat
  | FBin _ o _ => binop_rule o
  end.

(** The stack below the state that waits for an operand. *)
Definition frame_tail (frames : list frame) : list nat :=
  match frames with
  | [] => []
  | FNot _ :: fr => frame_states fr
  | FBin _ o _ :: fr => ctx_expr_state (top_ctx fr) :: frame_states fr
  end.

(** Steps of the driver on a flat expression, the reductions that close its
    own operators included. *)
Fixpoint flat_steps (e : flat) : nat :=
  match e with
  | FlatAtom a => List.length (atom_rules a) + 1
  | FlatNot _ e' => S (S (flat_steps e'))
  | FlatBin a _ _ e' => List.length (atom_rules a) + 1 + S (S (flat_steps e'))
  end.

(** The same rules as productions. *)
Definition atom_reductions (a : atom) : list Production :=
  match a with
  | ASymbol _ => [Prod "expression" ["SYMBOL"]]
  | AInteger _ => [Prod "base_type" ["INTEGER"]; Prod "expression" ["base_type"]]
  | AFloat _ => [Prod "base_type" ["FLOAT"]; Prod "expression" ["base_type"]]
  | ATrue => [Prod "base_type" ["TRUE"]; Prod "expression" ["base_type"]]
  | AFalse => [Prod "base_type" ["FALSE"]; Prod "expression" ["base_type"]]
  | ANull => [Prod "base_type" ["NULL"]; Prod "expression" ["base_type"]]
  end.

Definition binop_production (o : binop) : Production :=
  Prod "expression" ["expression"; binop_kind o; "expression"].

Definition not_production : Production := Prod "expression" ["NOT"; "expression"].

Definition statement_production : Production := Prod "statement" ["expression"].

Fixpoint flat_reductions (e : flat) : list Production :=
  match e with
  | FlatAtom a => atom_reductions a
  | FlatNot _ e' => flat_reductions e' ++ [not_production]
  | FlatBin a o _ e' => atom_reductions a ++ flat_reductions e' ++ [binop_production o]
  end.

(** The tokens that can follow an operand of a flat expression: the end of
    the input or a binary operator. *)
Definition follows_operand (la : string) : Prop :=
  la = "$end" \/ exists o, la = binop_kind o.

(** *** Vocabulary for the whole expression language

    The expressions of the grammar as the parser reads them: an operand is
    an atom, a string literal, an expression in parentheses, a function call
    or a map literal; an expression is an operand, or NOT followed by an
    expression, or an operand, a binary operator and an expression. *)
Inductive quote := QSingle | QDouble.

Definition quote_char (q : quote) : ascii :=
  match q with QSingle => squote | QDouble => dquote end.

(** The lexeme of a string literal: the body between two equal quotes. *)
Definition quoted (q : quote) (body : string) : string :=
  String (quote_char q) (body ++ String (quote_char q) EmptyString).

Inductive operand :=
| PAtom (a : atom)
| PString (q : quote) (body : string)
| PParen (e : expr)
| PCall0 (f : string)
| PCall (f : string) (e : expr) (es : exprs)
| PMap0
| PMap (x : nentry) (xs : nentries) (comma : bool)
with expr :=
| EOperand (p : operand)
| ENot (lexeme : string) (e : expr)
| EBin (p : operand) (o : binop) (lexeme : string) (e : expr)
with exprs :=
| ENil
| ECons (e : expr) (es : exprs)
with nentry :=
| NEqual (n : string) (e : expr)
| NAs (e : expr) (n : string)
with nentries :=
| NNil
| NCons (x : nentry) (xs : nentries).

Fixpoint operand_tokens (p : operand) : list LexToken :=
  match p with
  | PAtom a => [atom_token a]
  | PString q body => [STRING (quoted q body)]
  | PParen e => LPAREN :: expr_tokens e ++ [RPAREN]
  | PCall0 f => [SYMBOL f; LPAREN; RPAREN]
  | PCall f e es => SYMBOL f :: LPAREN :: expr_tokens e ++ exprs_tokens es ++ [RPAREN]
  | PMap0 => [LBRACE; RBRACE]
  | PMap x xs comma =>
      LBRACE :: nentry_tokens x ++ nentries_tokens xs
             ++ (if comma then [COMMA; RBRACE] else [RBRACE])
  end
with expr_tokens (e : expr) : list LexToken :=
  match e with
  | EOperand p => operand_tokens p
  | ENot lexeme e' => kw "NOT" lexeme :: expr_tokens e'
  | EBin p o lexeme e' => operand_tokens p ++ kw (binop_kind o) lexeme :: expr_tokens e'
  end
with exprs_tokens (es : exprs) : list LexToken :=
  match es with
  | ENil => []
  | ECons e es' => COMMA :: expr_tokens e ++ exprs_tokens es'
  end
with nentry_tokens (x : nentry) : list LexToken :=
  match x with
  | NEqual n e => SYMBOL n :: EQUAL :: expr_tokens e
  | NAs e n => expr_tokens e ++ [AS; SYMBOL n]
  end
with nentries_tokens (xs : nentries) : list LexToken :=
  match xs with
  | NNil => []
  | NCons x xs' => COMMA :: nentry_tokens x ++ nentries_tokens xs'
  end.

(** The tree of an expression: every operator has all that follows it as
    its right operand, parentheses leave no node, the arguments of a call
    and the entries of a map are in source order, and the node of NOT holds
    the value of the NOT token (see [p_expression_not_wraps_slot_1]). *)
Fixpoint operand_tree (p : operand) : value :=
  match p with
  | PAtom a => atom_value a
  | PString _ body => VStr body
  | PParen e => expr_tree e
  | PCall0 f => VFunctionCall (VStr f) (VList [])
  | PCall f e es => VFunctionCall (VStr f) (VList (expr_tree e :: exprs_trees es))
  | PMap0 => VMap []
  | PMap x xs _ => VMap (nentry_tree x :: nentries_trees xs)
  end
with expr_tree (e : expr) : value :=
  match e with
  | EOperand p => operand_tree p
  | ENot lexeme _ => VLogicalNot (VStr lexeme)
  | EBin p o lexeme e' => binop_node o (operand_tree p) (VStr lexeme) (expr_tree e')
  end
with exprs_trees (es : exprs) : list value :=
  match es with
  | ENil => []
  | ECons e es' => expr_tree e :: exprs_trees es'
  end
with nentry_tree (x : nentry) : value :=
  match x with
  | NEqual n e => VTuple [VStr n; expr_tree e]
  | NAs e n => VTuple [VStr n; expr_tree e]
  end
with nentries_trees (xs : nentries) : list value :=
  match xs with
  | NNil => []
  | NCons x xs' => nentry_tree x :: nentries_trees xs'
  end.

(** What a parse leaves behind: the value on the stack and the cells added
    to the store, for an expression read when the store has [b] cells.  The
    list of the arguments of a call, and of the entries of a map, is a cell
    created when its first element is reduced. *)
Definition named_pair (ne : value) : value :=
  match ne with
  | VNamedExpression n e => VTuple [n; e]
  | _ => VNone
  end.

Fixpoint operand_out (b : nat) (p : operand) : value * list value :=
  match p with
  | PAtom a => (atom_value a, [])
  | PString _ body => (VStr body, [])
  | PParen e => expr_out b e
  | PCall0 f => (VFunctionCall (VStr f) (VRef b), [VList []])
  | PCall f e es =>
      let a := (b + List.length (snd (expr_out b e)))%nat in
      (VFunctionCall (VStr f) (VRef a),
       snd (expr_out b e)
           ++ VList (fst (expr_out b e) :: fst (exprs_out (S a) es))
           :: snd (exprs_out (S a) es))
  | PMap0 => (VMap [], [])
  | PMap x xs _ =>
      let a := (b + List.length (snd (nentry_out b x)))%nat in
      (VMap (map named_pair (fst (nentry_out b x) :: fst (nentries_out (S a) xs))),
       snd (nentry_out b x)
           ++ VList (fst (nentry_out b x) :: fst (nentries_out (S a) xs))
           :: snd (nentries_out (S a) xs))
  end
with expr_out (b : nat) (e : expr) : value * list value :=
  match e with
  | EOperand p => operand_out b p
  | ENot lexeme e' => (VLogicalNot (VStr lexeme), snd (expr_out b e'))
  | EBin p o lexeme e' =>
      let b' := (b + List.length (snd (operand_out b p)))%nat in
      (binop_node o (fst (operand_out b p)) (VStr lexeme) (fst (expr_out b' e')),
       snd (operand_out b p) ++ snd (expr_out b' e'))
  end
with exprs_out (b : nat) (es : exprs) : list value * list value :=
  match es with
  | ENil => ([], [])
  | ECons e es' =>
      let b' := (b + List.length (snd (expr_out b e)))%nat in
      (fst (expr_out b e) :: fst (exprs_out b' es'),
       snd (expr_out b e) ++ snd (exprs_out b' es'))
  end
with nentry_out (b : nat) (x : nentry) : value * list value :=
  match x with
  | NEqual n e => (VNamedExpression (VStr n) (fst (expr_out b e)), snd (expr_out b e))
  | NAs e n => (VNamedExpression (VStr n) (fst (expr_out b e)), snd (expr_out b e))
  end
with nentries_out (b : nat) (xs : nentries) : list value * list value :=
  match xs with
  | NNil => ([], [])
  | NCons x xs' =>
      let b' := (b + List.length (snd (nentry_out b x)))%nat in
      (fst (nentry_out b x) :: fst (nentries_out b' xs'),
       snd (nentry_out b x) ++ snd (nentries_out b' xs'))
  end.

(** Steps of the driver on an expression. *)
Fixpoint operand_steps (p : operand) : nat :=
  match p with
  | PAtom a => List.length (atom_rules a) + 1
  | PString _ _ => 4
  | PParen e => S (expr_steps e + 2)
  | PCall0 _ => 4
  | PCall _ e es => S (S (expr_steps e + S (exprs_steps es + 2)))
  | PMap0 => 5
  | PMap x xs comma =>
      S (nentry_steps x + S (nentries_steps xs + ((if comma then 1 else 0) + 4)))
  end
with expr_steps (e : expr) : nat :=
  match e with
  | EOperand p => operand_steps p
  | ENot _ e' => S (expr_steps e' + 1)
  | EBin p _ _ e' => operand_steps p + S (expr_steps e' + 1)
  end
with exprs_steps (es : exprs) : nat :=
  match es with
  | ENil => 0
  | ECons e es' => S (expr_steps e + S (exprs_steps es'))
  end
with nentry_steps (x : nentry) : nat :=
  match x with
  | NEqual _ e => S (S (expr_steps e + 1))
  | NAs e _ => expr_steps e + 3
  end
with nentries_steps (xs : nentries) : nat :=
  match xs with
  | NNil => 0
  | NCons x xs' => S (nentry_steps x + S (nentries_steps xs'))
  end.

(** The depth to which a value must be unfolded to show the whole tree. *)
Fixpoint operand_depth (p : operand) : nat :=
  match p with
  | PAtom _ => 0
  | PString _ _ => 0
  | PParen e => expr_depth e
  | PCall0 _ => 2
  | PCall _ e es => 3 + Nat.max (expr_depth e) (exprs_depth es)
  | PMap0 => 0
  | PMap x xs _ => 1 + Nat.max (nentry_depth x) (nentries_depth xs)
  end
with expr_depth (e : expr) : nat :=
  match e with
  | EOperand p => operand_depth p
  | ENot _ _ => 0
  | EBin p _ _ e' => 1 + Nat.max (operand_depth p) (expr_depth e')
  end
with exprs_depth (es : exprs) : nat :=
  match es with
  | ENil => 0
  | ECons e es' => Nat.max (expr_depth e) (exprs_depth es')
  end
with nentry_depth (x : nentry) : nat :=
  match x with
  | NEqual _ e => 1 + expr_depth e
  | NAs e _ => 1 + expr_depth e
  end
with nentries_depth (xs : nentries) : nat :=
  match xs with
  | NNil => 0
  | NCons x xs' => Nat.max (nentry_depth x) (nentries_depth xs')
  end.

(** Where an expression can start.  The state of the driver then waits for
    an operand; once the expression is read the state has it. *)
Inductive ectx :=
| XStart | XParen | XNot | XBin (o : binop) | XCall | XArg | XWhere | XEqual
| XMap | XMapNext | XProject | XProjectNext.

Definition ectx_state (c : ectx) : nat :=
  match c with
  | XStart => 0 | XParen => 4 | XNot => 7 | XBin o => op_state o
  | XCall => 35 | XArg => 83 | XWhere => 37 | XEqual => 81
  | XMap => 20 | XMapNext => 79 | XProject => 41 | XProjectNext => 88
  end%nat.

Definition ectx_expr_state (c : ectx) : nat :=
  match c with
  | XStart => 2 | XParen => 34 | XNot => 36 | XBin o => 31 + op_state o
  | XCall => 68 | XArg => 95 | XWhere => 69 | XEqual => 94
  | XMap | XMapNext | XProject | XProjectNext => 50
  end%nat.

(** In front of a named expression a SYMBOL can also be the name of the
    [=] form, and has a state of its own. *)
Definition entry_ctx (c : ectx) : bool :=
  match c with
  | XMap | XMapNext | XProject | XProjectNext => true
  | _ => false
  end.

Definition ectx_symbol_state (c : ectx) : nat := if entry_ctx c then 51%nat else 6%nat.

Definition ectx_atom_state (c : ectx) (a : atom) : nat :=
  match a with
  | ASymbol _ => ectx_symbol_state c
  | _ => atom_state a
  end.

(** The state after a named expression. *)
Definition ectx_entry_state (c : ectx) : nat :=
  match c with
  | XMapNext | XProjectNext => 92%nat
  | _ => 49%nat
  end.

(** The tokens that can follow an expression, an operand and a named
    expression. *)
Definition closers : list string :=
  ["$end"; "RPAREN"; "AS"; "COMMA"; "WHERE"; "LIMIT"; "SKIP"; "SORT"; "RBRACE"; "PROJECT"].

Definition operators : list string :=
  ["PLUS"; "MINUS"; "STAR"; "SLASH"; "PERCENT"; "LT"; "LTE"; "GT"; "GTE"; "DBLEQUAL";
   "NE"; "AND"; "OR"].

Definition closes (c : ectx) (la : string) : Prop :=
  if entry_ctx c then la = "AS" else In la closers.

Definition follows (c : ectx) (la : string) : Prop :=
  closes c la \/ In la operators.

Definition closes_entry_la (la : string) : Prop :=
  In la ["RBRACE"; "COMMA"; "PROJECT"; "$end"].

Scheme operand_mut := Induction for operand Sort Prop
  with expr_mut := Induction for expr Sort Prop
  with exprs_mut := Induction for exprs Sort Prop
  with nentry_mut := Induction for nentry Sort Prop
  with nentries_mut := Induction for nentries Sort Prop.

Combined Scheme syntax_mutind
  from operand_mut, expr_mut, exprs_mut, nentry_mut, nentries_mut.

(** A list of named expressions is held by a map literal or by a PROJECT
    clause. *)
Inductive holder := InMap | InProject.

Definition holder_state (h : holder) : nat :=
  match h with InMap => 20%nat | InProject => 41%nat end.
Definition holder_list_state (h : holder) : nat :=
  match h with InMap => 48%nat | InProject => 75%nat end.
Definition holder_first (h : holder) : ectx :=
  match h with InMap => XMap | InProject => XProject end.
Definition holder_next (h : holder) : ectx :=
  match h with InMap => XMapNext | InProject => XProjectNext end.

(** What the driver does on each part of an expression: it reads the tokens
    of the part, leaves its value on the stack and its cells at the end of
    the store, and goes on with what follows. *)
Definition reads_operand (p : operand) : Prop :=
  forall (c : ectx) (ss : list nat) (vs : list value) (rest : list LexToken)
         (log log' : list nat) (st : store) (fuel : nat),
    follows c (lookahead_type rest) ->
    drop_log (parse_loop Productions callable p_error parser
                (operand_steps p + fuel) (ectx_state c :: ss) vs
                (operand_tokens p ++ rest) log st)
    = drop_log (parse_loop Productions callable p_error parser
                  fuel (ectx_expr_state c :: ectx_state c :: ss)
                  (fst (operand_out (List.length st) p) :: vs) rest log'
                  (st ++ snd (operand_out (List.length st) p))).

Definition reads_expr (e : expr) : Prop :=
  forall (c : ectx) (ss : list nat) (vs : list value) (rest : list LexToken)
         (log log' : list nat) (st : store) (fuel : nat),
    closes c (lookahead_type rest) ->
    drop_log (parse_loop Productions callable p_error parser
                (expr_steps e + fuel) (ectx_state c :: ss) vs
                (expr_tokens e ++ rest) log st)
    = drop_log (parse_loop Productions callable p_error parser
                  fuel (ectx_expr_state c :: ectx_state c :: ss)
                  (fst (expr_out (List.length st) e) :: vs) rest log'
                  (st ++ snd (expr_out (List.length st) e))).

Definition reads_exprs (es : exprs) : Prop :=
  forall (ss : list nat) (vs : list value) (rest : list LexToken)
         (log log' : list nat) (pre more : store) (acc : list value) (fuel : nat),
    drop_log (parse_loop Productions callable p_error parser
                (exprs_steps es + fuel) (66 :: 35 :: ss)%nat
                (VRef (List.length pre) :: vs)
                (exprs_tokens es ++ RPAREN :: rest) log (pre ++ VList acc :: more))
    = drop_log (parse_loop Productions callable p_error parser
                  fuel (66 :: 35 :: ss)%nat (VRef (List.length pre) :: vs)
                  (RPAREN :: rest) log'
                  (pre ++ VList (acc ++ fst (exprs_out (List.length pre
                                                        + S (List.length more)) es))
                       :: more ++ snd (exprs_out (List.length pre
                                                  + S (List.length more)) es))).

Definition reads_nentry (x : nentry) : Prop :=
  forall (c : ectx) (ss : list nat) (vs : list value) (rest : list LexToken)
         (log log' : list nat) (st : store) (fuel : nat),
    entry_ctx c = true ->
    closes_entry_la (lookahead_type rest) ->
    drop_log (parse_loop Productions callable p_error parser
                (nentry_steps x + fuel) (ectx_state c :: ss) vs
                (nentry_tokens x ++ rest) log st)
    = drop_log (parse_loop Productions callable p_error parser
                  fuel (ectx_entry_state c :: ectx_state c :: ss)
                  (fst (nentry_out (List.length st) x) :: vs) rest log'
                  (st ++ snd (nentry_out (List.length st) x))).

Definition reads_nentries (xs : nentries) : Prop :=
  forall (h : holder) (ss : list nat) (vs : list value) (rest : list LexToken)
         (log log' : list nat) (pre more : store) (acc : list value) (fuel : nat),
    closes_entry_la (lookahead_type rest) ->
    drop_log (parse_loop Productions callable p_error parser
                (nentries_steps xs + fuel) (holder_list_state h :: holder_state h :: ss)
                (VRef (List.length pre) :: vs)
                (nentries_tokens xs ++ rest) log (pre ++ VList acc :: more))
    = drop_log (parse_loop Productions callable p_error parser
                  fuel (holder_list_state h :: holder_state h :: ss)
                  (VRef (List.length pre) :: vs) rest log'
                  (pre ++ VList (acc ++ fst (nentries_out (List.length pre
                                                           + S (List.length more)) xs))
                       :: more ++ snd (nentries_out (List.length pre
                                                     + S (List.length more)) xs))).

(** Unfolding the value of each part to the depth of the part, in a store
    that holds the cells of the part from address [length pre] on, shows the
    tree of the part. *)
Definition shows_operand (p : operand) : Prop :=
  forall (pre post : store) (n : nat),
    (operand_depth p <= n)%nat ->
    snapshot n (pre ++ snd (operand_out (List.length pre) p) ++ post)
             (fst (operand_out (List.length pre) p))
    = operand_tree p.

Definition shows_expr (e : expr) : Prop :=
  forall (pre post : store) (n : nat),
    (expr_depth e <= n)%nat ->
    snapshot n (pre ++ snd (expr_out (List.length pre) e) ++ post)
             (fst (expr_out (List.length pre) e))
    = expr_tree e.

Definition shows_exprs (es : exprs) : Prop :=
  forall (pre post : store) (n : nat),
    (exprs_depth es <= n)%nat ->
    map (snapshot n (pre ++ snd (exprs_out (List.length pre) es) ++ post))
        (fst (exprs_out (List.length pre) es))
    = exprs_trees es.

Definition shows_nentry (x : nentry) : Prop :=
  forall (pre post : store) (n : nat),
    (nentry_depth x <= n)%nat ->
    snapshot n (pre ++ snd (nentry_out (List.length pre) x) ++ post)
             (named_pair (fst (nentry_out (List.length pre) x)))
    = nentry_tree x.

Definition shows_nentries (xs : nentries) : Prop :=
  forall (pre post : store) (n : nat),
    (nentries_depth xs <= n)%nat ->
    map (snapshot n (pre ++ snd (nentries_out (List.length pre) xs) ++ post))
        (map named_pair (fst (nentries_out (List.length pre) xs)))
    = nentries_trees xs.

(** A list of expressions as the arguments after the first of a call. *)
Fixpoint exprs_of_list (l : list expr) : exprs :=
  match l with
  | [] => ENil
  | e :: l' => ECons e (exprs_of_list l')
  end.

(** The tokens that end an expression without ending the input. *)
Definition stray_closers : list string :=
  ["RPAREN"; "AS"; "COMMA"; "WHERE"; "LIMIT"; "SKIP"; "SORT"; "RBRACE"; "PROJECT"].



(** *** Vocabulary for SELECT statements

    The fields are [*] or a list of names; the modifiers follow in any
    order and number. *)
Inductive modifier :=
| MWhere (e : expr)
| MLimit (n : Z)
| MSkip (n : Z)
| MSort (first : sort_item) (rest : list sort_item).

Definition modifier_tokens (m : modifier) : list LexToken :=
  match m with
  | MWhere e => WHERE :: expr_tokens e
  | MLimit n => [LIMIT; INTEGER n]
  | MSkip n => [SKIP; INTEGER n]
  | MSort first rest => SORT :: sort_spec_tokens first rest
  end.

Definition fields_spec := option (string * list string).

Definition fields_tokens (fs : fields_spec) : list LexToken :=
  match fs with
  | None => [STAR]
  | Some (f, rest) => SYMBOL f :: flat_map (fun g => [COMMA; SYMBOL g]) rest
  end.

Definition select_tokens (fs : fields_spec) (c : string) (ms : list modifier)
  : list LexToken :=
  SELECT :: fields_tokens fs ++ FROM :: SYMBOL c :: flat_map modifier_tokens ms.

(** The list of the field names is a cell of its own, the first. *)
Definition fields_cells (fs : fields_spec) : list value :=
  match fs with
  | None => []
  | Some (f, rest) => [VList (map VStr (f :: rest))]
  end.

Definition fields_value (fs : fields_spec) : value :=
  match fs with
  | None => VNone
  | Some _ => VRef 0
  end.

Definition fields_tree (fs : fields_spec) : value :=
  match fs with
  | None => VNone
  | Some (f, rest) => VList (map VStr (f :: rest))
  end.

(** The attribute a modifier assigns, the value it assigns when the store
    has [b] cells, and the cells it adds. *)
Definition modifier_attr (m : modifier) : select_attr :=
  match m with
  | MWhere _ => Aquery
  | MLimit _ => Alimit
  | MSkip _ => Askip
  | MSort _ _ => Asort
  end.

Definition modifier_value (b : nat) (m : modifier) : value :=
  match m with
  | MWhere e => fst (expr_out b e)
  | MLimit n => VInt n
  | MSkip n => VInt n
  | MSort first rest => VDict (sort_dict (first :: rest))
  end.

Definition modifier_cells (b : nat) (m : modifier) : list value :=
  match m with
  | MWhere e => snd (expr_out b e)
  | MLimit _ | MSkip _ => []
  | MSort first rest => [VList (map sort_pair (first :: rest))]
  end.

Definition modifier_tree (m : modifier) : value :=
  match m with
  | MWhere e => expr_tree e
  | MLimit n => VInt n
  | MSkip n => VInt n
  | MSort first rest => VDict (sort_dict (first :: rest))
  end.

Definition modifier_depth (m : modifier) : nat :=
  match m with
  | MWhere e => expr_depth e
  | _ => 1
  end.

(** The condition of a WHERE must be an instance of [Expression]. *)
Definition modifier_ok (m : modifier) : bool :=
  match m with
  | MWhere e => is_Expression (expr_tree e)
  | _ => true
  end.

Definition sort_item_steps (it : sort_item) : nat :=
  match snd it with
  | DirOmitted => 3
  | _ => 4
  end.

Fixpoint sort_rest_steps (rest : list sort_item) : nat :=
  match rest with
  | [] => 0
  | it :: rest' => S (sort_item_steps it + S (sort_rest_steps rest'))
  end.

Definition modifier_steps (m : modifier) : nat :=
  match m with
  | MWhere e => S (expr_steps e + 1)
  | MLimit _ | MSkip _ => 3
  | MSort first rest => S (sort_item_steps first + S (sort_rest_steps rest + 1))
  end.

Fixpoint modifiers_steps (ms : list modifier) : nat :=
  match ms with
  | [] => 0
  | m :: ms' => modifier_steps m + modifiers_steps ms'
  end.

Definition set_field (attr : select_attr) (x op : value) : value :=
  match op with
  | VSelectOperation c f q l s so =>
      match attr with
      | Aquery => VSelectOperation c f x l s so
      | Alimit => VSelectOperation c f q x s so
      | Askip => VSelectOperation c f q l x so
      | Asort => VSelectOperation c f q l s x
      end
  | _ => op
  end.

Definition select_field (attr : select_attr) (op : value) : value :=
  match op with
  | VSelectOperation c f q l s so =>
      match attr with
      | Aquery => q
      | Alimit => l
      | Askip => s
      | Asort => so
      end
  | _ => VNone
  end.

(** The operation after the modifiers, and the cells they add, when the
    store has [b] cells before the first of them. *)
Fixpoint modifiers_out (b : nat) (ms : list modifier) (op : value) : value * list value :=
  match ms with
  | [] => (op, [])
  | m :: ms' =>
      let b' := (b + List.length (modifier_cells b m))%nat in
      (fst (modifiers_out b' ms' (set_field (modifier_attr m) (modifier_value b m) op)),
       modifier_cells b m
                      ++ snd (modifiers_out b' ms'
                                (set_field (modifier_attr m) (modifier_value b m) op)))
  end.

Definition attr_eqb (x y : select_attr) : bool :=
  match x, y with
  | Aquery, Aquery | Alimit, Alimit | Askip, Askip | Asort, Asort => true
  | _, _ => false
  end.

(** The last modifier that assigns an attribute, if any does. *)
Fixpoint last_modifier (attr : select_attr) (ms : list modifier) : option modifier :=
  match ms with
  | [] => None
  | m :: ms' =>
      match last_modifier attr ms' with
      | Some m' => Some m'
      | None => if attr_eqb (modifier_attr m) attr then Some m else None
      end
  end.

Definition field_tree (attr : select_attr) (ms : list modifier) : value :=
  match last_modifier attr ms with
  | Some m => modifier_tree m
  | None => VNone
  end.

(** The tree of a SELECT statement: each attribute has the value of the
    last modifier that assigns it, and None when no modifier does. *)
Definition select_tree (fs : fields_spec) (c : string) (ms : list modifier) : value :=
  VSelectOperation (VStr c) (fields_tree fs)
                   (field_tree Aquery ms) (field_tree Alimit ms)
                   (field_tree Askip ms) (field_tree Asort ms).

Definition select_depth (ms : list modifier) : nat :=
  3 + list_max (map modifier_depth ms).

(** The tokens that can follow a modifier, and an item of a sort spec. *)
Definition modifier_la (la : string) : Prop :=
  In la ["WHERE"; "LIMIT"; "SKIP"; "SORT"; "$end"].

Definition sort_la (la : string) : Prop :=
  In la ["COMMA"; "WHERE"; "LIMIT"; "SKIP"; "SORT"; "$end"].

Definition fields_steps (fs : fields_spec) : nat :=
  match fs with
  | None => 6
  | Some (_, rest) => 7 + 3 * List.length rest
  end.

Fixpoint symbols_steps (rest : list string) : nat :=
  match rest with
  | [] => 0
  | _ :: rest' => S (S (S (symbols_steps rest')))
  end.

(** *** Vocabulary for AGGREGATE statements with any expressions

    A PROJECT clause is a first named expression and the further ones. *)
Definition gclause := (nentry * nentries)%type.

Definition gclause_tokens (cl : gclause) : list LexToken :=
  PROJECT :: nentry_tokens (fst cl) ++ nentries_tokens (snd cl).

Definition aggregate_tokens (c : string) (cls : list gclause) : list LexToken :=
  AGGREGATE :: SYMBOL c :: flat_map gclause_tokens cls.

(** The address of the list of a clause read when the store has [b] cells,
    and the cells the clause adds. *)
Definition gclause_addr (b : nat) (cl : gclause) : nat :=
  (b + List.length (snd (nentry_out b (fst cl))))%nat.

Definition gclause_cells (b : nat) (cl : gclause) : list value :=
  snd (nentry_out b (fst cl))
      ++ VList (fst (nentry_out b (fst cl))
                    :: fst (nentries_out (S (gclause_addr b cl)) (snd cl)))
      :: snd (nentries_out (S (gclause_addr b cl)) (snd cl)).

(** The stages and the cells of the clauses. *)
Fixpoint gclauses_out (b : nat) (cls : list gclause) : list value * list value :=
  match cls with
  | [] => ([], [])
  | cl :: cls' =>
      let b' := (b + List.length (gclause_cells b cl))%nat in
      (VAggregateCmdProject (VRef (gclause_addr b cl)) :: fst (gclauses_out b' cls'),
       gclause_cells b cl ++ snd (gclauses_out b' cls'))
  end.

Definition gclause_steps (cl : gclause) : nat :=
  S (nentry_steps (fst cl) + S (nentries_steps (snd cl) + 1)).

Fixpoint gclauses_steps (cls : list gclause) : nat :=
  match cls with
  | [] => 0
  | cl :: cls' => gclause_steps cl + gclauses_steps cls'
  end.

(** The named tuples of a clause, as trees. *)
Definition nentry_named_tree (x : nentry) : value :=
  match x with
  | NEqual n e => VNamedExpression (VStr n) (expr_tree e)
  | NAs e n => VNamedExpression (VStr n) (expr_tree e)
  end.

Fixpoint nentries_named_trees (xs : nentries) : list value :=
  match xs with
  | NNil => []
  | NCons x xs' => nentry_named_tree x :: nentries_named_trees xs'
  end.

Definition gclause_tree (cl : gclause) : value :=
  VAggregateCmdProject (VList (nentry_named_tree (fst cl) :: nentries_named_trees (snd cl))).

Definition aggregate_tree (c : string) (cls : list gclause) : value :=
  VAggregateOperation (VStr c) (VList (map gclause_tree cls)).

Definition gclause_depth (cl : gclause) : nat :=
  Nat.max (nentry_depth (fst cl)) (nentries_depth (snd cl)).

Definition aggregate_depth (cls : list gclause) : nat :=
  7 + list_max (map gclause_depth cls).

Definition clause_la (la : string) : Prop := la = "PROJECT" \/ la = "$end".

(** *** Vocabulary for the conflicts of the tables

    The rules of the binary operators and of NOT, by number. *)
Definition operator_rules : list nat :=
  [8; 9; 10; 11; 12; 13; 14; 15; 16; 17; 18; 19; 20; 21]%nat.

(** A row reduces none of them on a binary operator. *)
Definition keeps_operators_open (row : list (string * action)) : bool :=
  forallb (fun la => match assoc la row with
                     | Some (Reduce r) => negb (existsb (Nat.eqb r) operator_rules)
                     | _ => true
                     end) operators.





(** *** The driver on an arbitrary input *)

(** The exceptions the actions raise: those of Python's own operations and
    of [assert], and the mark of a behaviour outside the model.  The error
    function's exception and the two failures of the driver itself, a goto
    that is missing and a budget that is spent, are not among them. *)
Definition action_exn (e : exn) : bool :=
  match e with
  | AssertionError | IndexError | TypeError | AttributeError | ValueError | Unmodelled => true
  | ParserError _ | KeyError | OutOfFuel => false
  end.

(** An action that raises raises one of these. *)
Definition clean {A : Type} (m : M A) : Prop :=
  forall (st : store) (e : exn), m st = Raise e -> action_exn e = true.

Definition nstates : nat := List.length (lr_action parser).

Definition action_row (s : nat) : list (string * action) :=
  match lr_action parser !! s with Some row => row | None => [] end.
Definition goto_row (s : nat) : list (string * nat) :=
  match lr_goto parser !! s with Some row => row | None => [] end.

(** A transition of the automaton from state [p] to state [t], by a shift or
    by a goto. *)
Definition edge (p t : nat) : bool :=
  existsb (fun e => match snd e with Shift t' => Nat.eqb t' t | _ => false end) (action_row p)
  || existsb (fun e => Nat.eqb (snd e) t) (goto_row p).

Definition preds_of (t : nat) : list nat :=
  List.filter (fun p => edge p t) (seq 0 nstates).

(** The state stack of a run: a path of the automaton that starts in state
    0, written with its last state first. *)
Fixpoint path (ss : list nat) : Prop :=
  match ss with
  | [] => False
  | t :: rest =>
      match rest with
      | [] => t = O
      | p :: _ => edge p t = true /\ path rest
      end
  end.

(** The gotos on [A] that can follow the removal of [k] states from a path
    that ends in [s]; [None] stands for a path that is too short and for a
    state without a goto on [A]. *)
Fixpoint landing (k s : nat) (A : string) : list (option nat) :=
  match k with
  | O => [goto_at parser s A]
  | S k' => if Nat.eqb s 0 then [None]
            else flat_map (fun p => landing k' p A) (preds_of s)
  end.

Definition weight (w : list nat) (s : nat) : nat :=
  match w !! s with Some n => n | None => O end.

Definition rules_reduced_in (s : nat) : list nat :=
  nodup Nat.eq_dec
        (flat_map (fun e => match snd e with Reduce r => [r] | _ => [] end) (action_row s)).

(** The weight of a state bounds the reductions that can follow each other
    with that state on top before the stack gets shorter: a reduction of a
    rule with [k] symbols in state [s] that lands in [t] asks for
    [weight t + 1 < weight s + k]. *)
Definition relax (w : list nat) : list nat :=
  map (fun s =>
         fold_left Nat.max
                   (flat_map (fun r =>
                                let k := List.length (rule_rhs Productions r) in
                                map (fun x => match x with
                                              | Some t => (weight w t + 2 - k)%nat
                                              | None => O
                                              end)
                                    (landing k s (rule_name Productions r)))
                             (rules_reduced_in s))
                   (weight w s))
      (seq 0 nstates).

Definition weights : list nat := Eval vm_compute in Nat.iter 8 relax (repeat 1%nat nstates).

Definition shift_cost : nat := 8.

(** What a run can still do: every step makes this number smaller. *)
Definition potential (ss : list nat) : nat := (weight weights (hd O ss) + List.length ss)%nat.
Definition steps_left (ss : list nat) (input : list LexToken) : nat :=
  (potential ss + shift_cost * List.length input)%nat.

Definition entry_safe (s : nat) (e : string * action) : bool :=
  match snd e with
  | Shift t => (weight weights t + 1 <? weight weights s + shift_cost)%nat
  | Reduce r =>
      let k := List.length (rule_rhs Productions r) in
      forallb (fun x => match x with
                        | Some t => (weight weights t + 1 <? weight weights s + k)%nat
                        | None => false
                        end)
              (landing k s (rule_name Productions r))
  | Accept => true
  end.

(** The outcomes of a run on [input] that are no failure of the driver: a
    value, the error function's exception with a token of the input or with
    [None], or an exception of an action. *)
Definition good {A : Type} (input : list LexToken) (r : result A) : Prop :=
  match r with
  | Ok _ _ => True
  | Raise (ParserError None) => True
  | Raise (ParserError (Some t)) => In t input
  | Raise e => action_exn e = true
  end.

(* ===================================================================== *)
(** ** Properties of the generated tables *)
(* ===================================================================== *)

(** [parser] is the table the generator computes for the grammar. *)
Lemma parser_generated : parser = lr_parse_table Productions max_states.
Proof. vm_compute. reflexivity. Qed.

(** The exploration of the item sets ended before the bound: every state
    created has had its transitions computed. *)
Lemma lr0_items_complete :
  List.length (lr0_C Productions max_states) = List.length (lr0_G Productions max_states)
  /\ List.length (lr0_C Productions max_states) = 97%nat.
Proof. vm_compute. split; reflexivity. Qed.

(* ===================================================================== *)
(** ** Operator grouping *)
(* ===================================================================== *)

(** C1.  The token sequence of [1 + 2 * 3] parses to
    Operation(1, +, Operation(2, *, 3)), and not to
    Operation(Operation(1, +, 2), *, 3). *)
Theorem parse_1_plus_2_times_3 :
  ast (parse [INTEGER 1; PLUS; INTEGER 2; STAR; INTEGER 3])
  = Some (VOperation (VInt 1) (VStr "+") (VOperation (VInt 2) (VStr "*") (VInt 3)))
  /\ ast (parse [INTEGER 1; PLUS; INTEGER 2; STAR; INTEGER 3])
     <> Some (VOperation (VOperation (VInt 1) (VStr "+") (VInt 2)) (VStr "*") (VInt 3)).
Proof.
  assert (H : ast (parse [INTEGER 1; PLUS; INTEGER 2; STAR; INTEGER 3])
              = Some (VOperation (VInt 1) (VStr "+")
                                 (VOperation (VInt 2) (VStr "*") (VInt 3))))
    by (vm_compute; reflexivity).
  split; [exact H | rewrite H; discriminate].
Qed.

(** The grouping in C1 comes from the order of the tokens, not from the
    operators: with the operators exchanged the product is still the outer
    node's right operand. *)
Lemma parse_1_times_2_plus_3 :
  ast (parse [INTEGER 1; STAR; INTEGER 2; PLUS; INTEGER 3])
  = Some (VOperation (VInt 1) (VStr "*") (VOperation (VInt 2) (VStr "+") (VInt 3))).
Proof. vm_compute. reflexivity. Qed.

(** C2, counterexample.  [1 - 2 - 3] does not group left to right: the left
    child of the root is the literal 1, not the node of [1 - 2]. *)
Lemma minus_groups_to_the_right :
  ast (parse [INTEGER 1; MINUS; INTEGER 2; MINUS; INTEGER 3])
  = Some (VOperation (VInt 1) (VStr "-") (VOperation (VInt 2) (VStr "-") (VInt 3)))
  /\ ast (parse [INTEGER 1; MINUS; INTEGER 2; MINUS; INTEGER 3])
     <> Some (VOperation (VOperation (VInt 1) (VStr "-") (VInt 2)) (VStr "-") (VInt 3)).
Proof.
  assert (H : ast (parse [INTEGER 1; MINUS; INTEGER 2; MINUS; INTEGER 3])
              = Some (VOperation (VInt 1) (VStr "-")
                                 (VOperation (VInt 2) (VStr "-") (VInt 3))))
    by (vm_compute; reflexivity).
  split; [exact H | rewrite H; discriminate].
Qed.

(** What the body of [p_expression_not] does with its slice: the node wraps
    slot 1, the value of the [NOT] token, and the operand in slot 2 is
    dropped. *)
Lemma p_expression_not_wraps_slot_1 (p0 tok e : value) (st : store) :
  p_expression_not [p0; tok; e] st = Ok (VLogicalNot tok) st.
Proof. reflexivity. Qed.

(** C3, counterexample.  [NOT a AND b] does not parse to
    LogicalAnd(LogicalNot(a), b). *)
Lemma not_a_and_b_is_no_conjunction :
  ast (parse [NOT; SYMBOL "a"; AND; SYMBOL "b"])
  <> Some (VLogicalAnd (VLogicalNot (VSymbol (VStr "a"))) (VSymbol (VStr "b"))).
Proof. vm_compute. discriminate. Qed.

(* ===================================================================== *)
(** ** Stepping the driver *)
(* ===================================================================== *)

Section Steps.
Variables (fuel : nat) (s : nat) (ss : list nat) (vs : list value)
          (log : list nat) (st : store).

Local Notation "'run'" := (parse_loop Productions callable p_error parser).

Lemma parse_loop_shift (tok : LexToken) (rest : list LexToken) (t : nat) :
  action_at parser s (tok_type tok) = Some (Shift t) ->
  run (S fuel) (s :: ss) vs (tok :: rest) log st
  = run fuel (t :: s :: ss) (tok_value tok :: vs) rest log st.
Proof. intros H. simpl. rewrite H. reflexivity. Qed.

Lemma parse_loop_reduce (input : list LexToken) (r plen : nat) (lhs : string)
      (targ : list value) :
  action_at parser s (lookahead_type input) = Some (Reduce r) ->
  List.length (rule_rhs Productions r) = plen ->
  rule_name Productions r = lhs ->
  VNone :: rev (take plen vs) = targ ->
  run (S fuel) (s :: ss) vs input log st
  = match callable r targ st with
    | Ok v st' =>
        match goto_at parser (hd O (drop plen (s :: ss))) lhs with
        | Some s' => run fuel (s' :: drop plen (s :: ss)) (v :: drop plen vs)
                         input (r :: log) st'
        | None => Raise KeyError
        end
    | Raise e => Raise e
    end.
Proof.
  intros H <- <- <-. cbn [parse_loop hd]. rewrite H. unfold bind.
  destruct (callable r _ st); [|reflexivity].
  destruct (goto_at parser _ _); reflexivity.
Qed.

(** A reduction whose action returns: the slice, the action's result, the
uncovered state and its goto are given by equations, each of which a
computation settles. *)
Lemma parse_loop_reduce_ok (input : list LexToken) (r plen : nat) (lhs : string)
      (targ : list value) (v : value) (st' : store) (ss' : list nat) (s' : nat)
      (vs' : list value) :
  action_at parser s (lookahead_type input) = Some (Reduce r) ->
  List.length (rule_rhs Productions r) = plen ->
  rule_name Productions r = lhs ->
  VNone :: rev (take plen vs) = targ ->
  callable r targ st = Ok v st' ->
  drop plen (s :: ss) = ss' ->
  goto_at parser (hd O ss') lhs = Some s' ->
  drop plen vs = vs' ->
  run (S fuel) (s :: ss) vs input log st
  = run fuel (s' :: ss') (v :: vs') input (r :: log) st'.
Proof.
  intros Ha Hl Hn Ht Hc Hs Hg Hv.
  rewrite (parse_loop_reduce input r plen lhs targ Ha Hl Hn Ht).
  rewrite Hc, Hs, Hg, Hv. reflexivity.
Qed.

Lemma parse_loop_accept (input : list LexToken) :
  action_at parser s (lookahead_type input) = Some Accept ->
  run (S fuel) (s :: ss) vs input log st = Ok (hd VNone vs, log) st.
Proof. intros H. simpl. rewrite H. reflexivity. Qed.

Lemma parse_loop_error (input : list LexToken) :
  action_at parser s (lookahead_type input) = None ->
  run (S fuel) (s :: ss) vs input log st = Raise (ParserError (head input)).
Proof. intros H. simpl. rewrite H. reflexivity. Qed.
End Steps.

Ltac lr_shift := erewrite parse_loop_shift by (vm_compute; reflexivity).
Ltac lr_reduce_with tac :=
  erewrite parse_loop_reduce_ok;
  [| vm_compute; reflexivity | vm_compute; reflexivity | vm_compute; reflexivity
   | vm_compute; reflexivity | tac | vm_compute; reflexivity | vm_compute; reflexivity
   | vm_compute; reflexivity ].
Ltac lr_reduce := lr_reduce_with ltac:(vm_compute; reflexivity).
Ltac lr_accept := erewrite parse_loop_accept by (vm_compute; reflexivity).

(* ===================================================================== *)
(** ** String literals *)
(* ===================================================================== *)

Lemma get_append_last (body : string) (q : ascii) :
  String.get (String.length body) (body ++ String q EmptyString)%string = Some q.
Proof. induction body as [|c body IH]; [reflexivity | exact IH]. Qed.

Lemma substring_append_prefix (body tail : string) :
  String.substring 0 (String.length body) (body ++ tail)%string = body.
Proof.
  induction body as [|c body IH]; simpl.
  - destruct tail; reflexivity.
  - rewrite IH. reflexivity.
Qed.

Lemma length_append_one (body : string) (q : ascii) :
  String.length (body ++ String q EmptyString)%string = S (String.length body).
Proof. induction body as [|c body IH]; simpl; [reflexivity | rewrite IH; reflexivity]. Qed.

(** A lexeme with the same quote at both ends: the action returns what lies
    between the two quotes, unchanged. *)
Lemma p_string_quoted (p0 : value) (q : ascii) (body : string) (st : store) :
  is_quote q = true ->
  p_string [p0; VStr (String q (body ++ String q EmptyString))] st = Ok (VStr body) st.
Proof.
  intros Hq. unfold p_string, bind, getitem, subscript, str_first, str_last, str_slice_1_m1.
  cbn [lookup list_lookup ret String.get String.length].
  rewrite length_append_one. cbn [Nat.sub].
  rewrite Nat.sub_0_r, get_append_last. cbn [ret].
  rewrite Ascii.eqb_refl. cbn [assert ret]. rewrite Hq. cbn [assert ret].
  cbn [String.substring]. rewrite substring_append_prefix. reflexivity.
Qed.

(** A lexeme whose first and last characters differ: the first assertion
    fails. *)
Lemma p_string_mismatch (p0 : value) (s : string) (c0 cl : ascii) (st : store) :
  str_first s = Some c0 -> str_last s = Some cl -> c0 <> cl ->
  p_string [p0; VStr s] st = Raise AssertionError.
Proof.
  intros H0 Hl Hne. unfold p_string, bind, getitem, subscript.
  cbn [lookup list_lookup ret]. rewrite H0, Hl. cbn [ret].
  destruct (Ascii.eqb_spec c0 cl) as [->|_]; [contradiction | reflexivity].
Qed.

(** A statement made of one STRING token is the result of [p_string] on its
    lexeme. *)
Lemma parse_string_token (s : string) :
  parse [STRING s]
  = match p_string [VNone; VStr s] [] with
    | Ok v st => Ok v st
    | Raise e => Raise e
    end.
Proof.
  unfold parse, parse_from.
  change (parse_fuel [STRING s]) with 48%nat.
  erewrite parse_loop_shift by (vm_compute; reflexivity).
  erewrite parse_loop_reduce; [| vm_compute; reflexivity ..].
  change (callable 54) with p_string.
  destruct (p_string [VNone; VStr s] []) as [v st'|e]; [|reflexivity].
  vm_compute. reflexivity.
Qed.

(** C9.  A lexeme whose first and last characters differ fails the parse
    (by the first assertion of [p_string]); so does the lexeme of the
    example, an apostrophe, abc and a double quote.  A lexeme with the same
    quote character at both ends yields the text between the two quotes,
    character for character. *)
Theorem string_literal_quotes :
  (forall (s : string) (c0 cl : ascii),
      str_first s = Some c0 -> str_last s = Some cl -> c0 <> cl ->
      parse [STRING s] = Raise AssertionError)
  /\ parse [STRING (String squote ("abc" ++ String dquote EmptyString))]
     = Raise AssertionError
  /\ (forall (q : ascii) (body : string),
        is_quote q = true ->
        parse [STRING (String q (body ++ String q EmptyString))] = Ok (VStr body) []).
Proof.
  split; [|split].
  - intros s c0 cl H0 Hl Hne. rewrite parse_string_token.
    rewrite (p_string_mismatch VNone s c0 cl [] H0 Hl Hne). reflexivity.
  - vm_compute. reflexivity.
  - intros q body Hq. rewrite parse_string_token.
    rewrite (p_string_quoted VNone q body [] Hq). reflexivity.
Qed.

Lemma string_literal_quotes_witness :
  parse [STRING "'ab"] = Raise AssertionError
  /\ parse [STRING "'it''s \n'"] = Ok (VStr "it''s \n") [].
Proof.
  destruct string_literal_quotes as (Hbad & _ & Hgood). split.
  - apply (Hbad "'ab" "'"%char "b"%char); [reflexivity | reflexivity | discriminate].
  - apply (Hgood "'"%char "it''s \n"); reflexivity.
Defined.

(* ===================================================================== *)
(** ** The SELECT modifiers *)
(* ===================================================================== *)

Section SelectModifiers.
Variables (st : store) (a : nat) (c f q l s so : value).
Hypothesis Hop : st !! a = Some (VSelectOperation c f q l s so).

Lemma is_SelectOperation_cell : is_SelectOperation st (VRef a) = true.
Proof. unfold is_SelectOperation. rewrite Hop. reflexivity. Qed.

Lemma setattr_cell (attr : select_attr) (x : value) :
  setattr (VRef a) attr x st
  = Ok tt (<[a := match attr with
                  | Aquery => VSelectOperation c f x l s so
                  | Alimit => VSelectOperation c f q x s so
                  | Askip => VSelectOperation c f q l x so
                  | Asort => VSelectOperation c f q l s x
                  end]> st).
Proof. unfold setattr. rewrite Hop. reflexivity. Qed.

Lemma p_operation_select_condition_sets_query (p0 kwd x : value) :
  is_Expression x = true ->
  p_operation_select_condition [p0; VRef a; kwd; x] st
  = Ok (VRef a) (<[a := VSelectOperation c f x l s so]> st).
Proof.
  intros Hx. unfold p_operation_select_condition, bind, getitem, isinstance_SelectOperation.
  cbn [lookup list_lookup ret]. rewrite is_SelectOperation_cell. cbn [assert ret].
  rewrite Hx. cbn [assert ret]. rewrite setattr_cell. reflexivity.
Qed.

Lemma p_operation_select_limit_sets_limit (p0 kwd x : value) :
  is_int_long x = true ->
  p_operation_select_limit [p0; VRef a; kwd; x] st
  = Ok (VRef a) (<[a := VSelectOperation c f q x s so]> st).
Proof.
  intros Hx. unfold p_operation_select_limit, bind, getitem, isinstance_SelectOperation.
  cbn [lookup list_lookup ret]. rewrite is_SelectOperation_cell. cbn [assert ret].
  rewrite Hx. cbn [assert ret]. rewrite setattr_cell. reflexivity.
Qed.

Lemma p_operation_select_skip_sets_skip (p0 kwd x : value) :
  is_int_long x = true ->
  p_operation_select_skip [p0; VRef a; kwd; x] st
  = Ok (VRef a) (<[a := VSelectOperation c f q l x so]> st).
Proof.
  intros Hx. unfold p_operation_select_skip, bind, getitem, isinstance_SelectOperation.
  cbn [lookup list_lookup ret]. rewrite is_SelectOperation_cell. cbn [assert ret].
  rewrite Hx. cbn [assert ret]. rewrite setattr_cell. reflexivity.
Qed.

Lemma p_operation_select_sort_sets_sort (p0 kwd x d : value) :
  is_list_tuple st x = true ->
  dict x st = Ok d st ->
  p_operation_select_sort [p0; VRef a; kwd; x] st
  = Ok (VRef a) (<[a := VSelectOperation c f q l s d]> st).
Proof.
  intros Hx Hd. unfold p_operation_select_sort, bind, getitem,
    isinstance_SelectOperation, isinstance_list_tuple.
  cbn [lookup list_lookup ret]. rewrite is_SelectOperation_cell. cbn [assert ret].
  rewrite Hx. cbn [assert ret]. rewrite Hd. rewrite setattr_cell. reflexivity.
Qed.
End SelectModifiers.

(** [dict] only reads the store. *)
Lemma iter_pure (v : value) (st st' : store) (xs : list value) :
  iter v st = Ok xs st' -> st' = st.
Proof.
  unfold iter, bind, load. destruct (deref st v) as [o|]; [|discriminate].
  destruct o; cbn; intros H; inversion H; reflexivity.
Qed.

Lemma as_pair_pure (v : value) (st st' : store) (kx : value * value) :
  as_pair v st = Ok kx st' -> st' = st.
Proof.
  unfold as_pair, bind. destruct (iter v st) as [xs st1|] eqn:E; [|discriminate].
  apply iter_pure in E. subst st1.
  destruct xs as [|k [|x [|? ?]]]; cbn; intros H; inversion H; reflexivity.
Qed.

Lemma dict_update_pure (pairs : list value) :
  forall (d d' : gmap string value) (st st' : store),
    dict_update d pairs st = Ok d' st' -> st' = st.
Proof.
  induction pairs as [|kv rest IH]; intros d d' st st'; cbn.
  - intros H. inversion H. reflexivity.
  - unfold bind. destruct (as_pair kv st) as [kx st1|] eqn:E; [|discriminate].
    apply as_pair_pure in E. subst st1.
    destruct (fst kx); try discriminate. apply IH.
Qed.

Lemma dict_pure (v d : value) (st st' : store) :
  dict v st = Ok d st' -> st' = st.
Proof.
  unfold dict, bind. destruct (iter v st) as [xs st1|] eqn:E; [|discriminate].
  apply iter_pure in E. subst st1.
  destruct (dict_update ∅ xs st) as [m st2|] eqn:E2; [|discriminate].
  apply dict_update_pure in E2. subst st2. cbn. intros H. inversion H. reflexivity.
Qed.

(** C10.  On a store whose cell [a] holds a SelectOperation, each modifier
    reduction returns the reference [a] it received in slot 1 and leaves a
    store that differs from the old one in cell [a] only, where exactly the
    field of the modifier has been replaced: WHERE the query, LIMIT the
    limit, SKIP the skip, SORT the sort (by the dict of the sort spec). *)
Theorem select_modifier_frame (st : store) (a : nat) (c f q l s so : value) :
  st !! a = Some (VSelectOperation c f q l s so) ->
  (forall p0 kwd x, is_Expression x = true ->
     p_operation_select_condition [p0; VRef a; kwd; x] st
     = Ok (VRef a) (<[a := VSelectOperation c f x l s so]> st))
  /\ (forall p0 kwd x, is_int_long x = true ->
        p_operation_select_limit [p0; VRef a; kwd; x] st
        = Ok (VRef a) (<[a := VSelectOperation c f q x s so]> st))
  /\ (forall p0 kwd x, is_int_long x = true ->
        p_operation_select_skip [p0; VRef a; kwd; x] st
        = Ok (VRef a) (<[a := VSelectOperation c f q l x so]> st))
  /\ (forall p0 kwd x d st', is_list_tuple st x = true -> dict x st = Ok d st' ->
        p_operation_select_sort [p0; VRef a; kwd; x] st
        = Ok (VRef a) (<[a := VSelectOperation c f q l s d]> st)).
Proof.
  intros Hop. repeat split; intros.
  - eapply p_operation_select_condition_sets_query; eassumption.
  - eapply p_operation_select_limit_sets_limit; eassumption.
  - eapply p_operation_select_skip_sets_skip; eassumption.
  - eapply p_operation_select_sort_sets_sort; try eassumption.
    match goal with H : dict _ _ = Ok _ _ |- _ =>
      pose proof (dict_pure _ _ _ _ H) as ->; exact H end.
Qed.

Lemma select_modifier_frame_witness :
  p_operation_select_condition [VNone; VRef 1; VStr "WHERE"; VSymbol (VStr "k")] frame_store
  = Ok (VRef 1)
       [VList [VStr "x"];
        VSelectOperation (VStr "c") (VRef 0) (VSymbol (VStr "k")) (VInt 7) VNone VNone;
        VList [VTuple [VStr "k"; VInt (-1)]]]
  /\ p_operation_select_limit [VNone; VRef 1; VStr "LIMIT"; VInt 2] frame_store
     = Ok (VRef 1)
          [VList [VStr "x"];
           VSelectOperation (VStr "c") (VRef 0) VNone (VInt 2) VNone VNone;
           VList [VTuple [VStr "k"; VInt (-1)]]]
  /\ p_operation_select_skip [VNone; VRef 1; VStr "SKIP"; VInt 3] frame_store
     = Ok (VRef 1)
          [VList [VStr "x"];
           VSelectOperation (VStr "c") (VRef 0) VNone (VInt 7) (VInt 3) VNone;
           VList [VTuple [VStr "k"; VInt (-1)]]]
  /\ p_operation_select_sort [VNone; VRef 1; VStr "SORT"; VRef 2] frame_store
     = Ok (VRef 1)
          [VList [VStr "x"];
           VSelectOperation (VStr "c") (VRef 0) VNone (VInt 7) VNone
                            (VDict (<["k" := VInt (-1)]> ∅));
           VList [VTuple [VStr "k"; VInt (-1)]]].
Proof.
  destruct (select_modifier_frame frame_store 1 (VStr "c") (VRef 0) VNone (VInt 7) VNone VNone
              eq_refl) as (Hq & Hl & Hs & Hso).
  split; [|split; [|split]].
  - apply Hq. reflexivity.
  - apply Hl. reflexivity.
  - apply Hs. reflexivity.
  - apply (Hso VNone (VStr "SORT") (VRef 2) (VDict (<["k" := VInt (-1)]> ∅)) frame_store);
      reflexivity.
Defined.

(** Two SORT clauses: the second dict replaces the first. *)
Lemma parse_two_sorts (c f1 f2 : string) (d1 d2 : direction) :
  parse ([SELECT; STAR; FROM; SYMBOL c; SORT; SYMBOL f1] ++ direction_tokens d1
         ++ [SORT; SYMBOL f2] ++ direction_tokens d2)
  = Ok (VRef 0)
       [VSelectOperation (VStr c) VNone VNone VNone VNone
          (VDict (<[f2 := VInt (direction_value d2)]> ∅));
        VList [VTuple [VStr f1; VInt (direction_value d1)]];
        VList [VTuple [VStr f2; VInt (direction_value d2)]]].
Proof.
  unfold parse, parse_from.
  destruct d1, d2; cbn [direction_tokens app parse_fuel List.length Nat.mul Nat.add].
  all: repeat (lr_shift || lr_reduce).
  all: lr_accept.
  all: reflexivity.
Qed.

(* ===================================================================== *)
(** ** Unfolding [snapshot] one level *)
(* ===================================================================== *)

Lemma snapshot_ref (n : nat) (st : store) (a : nat) (o : value) :
  st !! a = Some o -> snapshot (S n) st (VRef a) = snapshot n st o.
Proof. intros H. cbn [snapshot]. rewrite H. reflexivity. Qed.

Lemma snapshot_select (n : nat) (st : store) (c f q l s so : value) :
  snapshot (S n) st (VSelectOperation c f q l s so)
  = VSelectOperation (snapshot n st c) (snapshot n st f) (snapshot n st q)
                     (snapshot n st l) (snapshot n st s) (snapshot n st so).
Proof. reflexivity. Qed.

Lemma snapshot_aggregate (n : nat) (st : store) (c p : value) :
  snapshot (S n) st (VAggregateOperation c p)
  = VAggregateOperation (snapshot n st c) (snapshot n st p).
Proof. reflexivity. Qed.

Lemma snapshot_dict (n : nat) (st : store) (d : gmap string value) :
  snapshot (S n) st (VDict d) = VDict (snapshot n st <$> d).
Proof. reflexivity. Qed.

Lemma snapshot_list (n : nat) (st : store) (items : list value) :
  snapshot (S n) st (VList items) = VList (map (snapshot n st) items).
Proof. reflexivity. Qed.

Lemma snapshot_map (n : nat) (st : store) (entries : list value) :
  snapshot (S n) st (VMap entries) = VMap (map (snapshot n st) entries).
Proof. reflexivity. Qed.

Lemma snapshot_flat (n : nat) (st : store) (v : value) :
  is_flat v = true -> snapshot n st v = v.
Proof. destruct n, v; intros H; try discriminate; reflexivity. Qed.

(** C4.  A repeated modifier keeps its last value only.  For every
    collection name and every pair of integers, [SELECT * FROM c LIMIT n1
    LIMIT n2] has limit n2 (and nothing else set); the same for SKIP; for two
    WHERE clauses [x1 op1 n1] and [x2 op2 n2] the query is the node of the
    second; for two SORT clauses the sort is the mapping of the second
    alone. *)
Theorem repeated_modifier_last_wins :
  (forall (c : string) (n1 n2 : Z),
      ast (parse [SELECT; STAR; FROM; SYMBOL c; LIMIT; INTEGER n1; LIMIT; INTEGER n2])
      = Some (VSelectOperation (VStr c) VNone VNone (VInt n2) VNone VNone))
  /\ (forall (c : string) (n1 n2 : Z),
        ast (parse [SELECT; STAR; FROM; SYMBOL c; SKIP; INTEGER n1; SKIP; INTEGER n2])
        = Some (VSelectOperation (VStr c) VNone VNone VNone (VInt n2) VNone))
  /\ (forall (c x1 x2 lex1 lex2 : string) (o1 o2 : binop) (n1 n2 : Z),
        ast (parse [SELECT; STAR; FROM; SYMBOL c;
                    WHERE; SYMBOL x1; kw (binop_kind o1) lex1; INTEGER n1;
                    WHERE; SYMBOL x2; kw (binop_kind o2) lex2; INTEGER n2])
        = Some (VSelectOperation (VStr c) VNone
                  (binop_node o2 (VSymbol (VStr x2)) (VStr lex2) (VInt n2))
                  VNone VNone VNone))
  /\ (forall (c f1 f2 : string) (d1 d2 : direction),
        ast (parse ([SELECT; STAR; FROM; SYMBOL c; SORT; SYMBOL f1] ++ direction_tokens d1
                    ++ [SORT; SYMBOL f2] ++ direction_tokens d2))
        = Some (VSelectOperation (VStr c) VNone VNone VNone VNone
                  (VDict (<[f2 := VInt (direction_value d2)]> ∅)))).
Proof.
  split; [|split; [|split]].
  - intros. vm_compute. reflexivity.
  - intros. vm_compute. reflexivity.
  - intros. destruct o1, o2; vm_compute; reflexivity.
  - intros c f1 f2 d1 d2. rewrite parse_two_sorts. unfold ast. f_equal.
    cbn [List.length Nat.mul Nat.add].
    erewrite snapshot_ref by reflexivity. rewrite snapshot_select, snapshot_dict.
    rewrite fmap_insert, fmap_empty.
    rewrite !snapshot_flat by reflexivity. reflexivity.
Qed.

(* ===================================================================== *)
(** ** The aggregation pipeline *)
(* ===================================================================== *)

(** One reduction of [operation_aggregate PROJECT named_expression_list]:
    the pipeline list gets one more element, a stage holding the list of the
    clause, and nothing else in the store changes. *)
Lemma p_operation_aggregate_project_appends (st : store) (a pl l : nat)
      (c p0 kwd : value) (stages nes : list value) :
  st !! a = Some (VAggregateOperation c (VRef pl)) ->
  st !! pl = Some (VList stages) ->
  st !! l = Some (VList nes) ->
  forallb is_named_expression nes = true ->
  p_operation_aggregate_project [p0; VRef a; kwd; VRef l] st
  = Ok (VRef a) (<[pl := VList (stages ++ [VAggregateCmdProject (VRef l)])]> st).
Proof.
  intros Ha Hpl Hl Hnes.
  unfold p_operation_aggregate_project, bind, getitem.
  cbn [lookup list_lookup ret].
  unfold iter, bind, load, deref. rewrite Hl. cbn [ret]. rewrite Hnes. cbn [assert ret].
  unfold getattr_pipeline, bind, load, deref. rewrite Ha. cbn [ret].
  unfold AggregateCmdProject, append. cbn [ret]. rewrite Hpl. reflexivity.
Qed.

(* ===================================================================== *)
(** ** Facts about runs of the driver *)
(* ===================================================================== *)

Section Runs.
Local Notation "'run'" := (parse_loop Productions callable p_error parser).

(** The log is only written, never read. *)
Lemma run_log_irrelevant (fuel : nat) :
  forall (ss : list nat) (vs : list value) (input : list LexToken)
         (log log' : list nat) (st : store),
    drop_log (run fuel ss vs input log st) = drop_log (run fuel ss vs input log' st).
Proof.
  induction fuel as [|fuel IH]; intros ss vs input log log' st; [reflexivity|].
  cbn [parse_loop].
  destruct (action_at parser (hd O ss) (lookahead_type input)) as [[t|r|]|]; try reflexivity.
  - destruct input as [|tok rest]; [reflexivity | apply IH].
  - unfold bind. destruct (callable r _ st) as [v st'|e]; [|reflexivity].
    destruct (goto_at parser _ _); [apply IH | reflexivity].
Qed.

(** A run that ends within its budget ends the same way with a larger one. *)
Lemma run_fuel_S (fuel : nat) :
  forall (ss : list nat) (vs : list value) (input : list LexToken)
         (log : list nat) (st : store) (r : value * list nat) (st' : store),
    run fuel ss vs input log st = Ok r st' ->
    run (S fuel) ss vs input log st = Ok r st'.
Proof.
  induction fuel as [|fuel IH]; intros ss vs input log st r st' H; [discriminate|].
  cbn [parse_loop] in H. cbn [parse_loop].
  destruct (action_at parser (hd O ss) (lookahead_type input)) as [[t|k|]|]; try exact H.
  - destruct input as [|tok rest]; [discriminate | apply IH; exact H].
  - unfold bind in *. destruct (callable k _ st) as [v st1|e]; [|discriminate].
    destruct (goto_at parser _ _); [apply IH; exact H | discriminate].
Qed.

Lemma run_fuel_mono (fuel extra : nat) (ss : list nat) (vs : list value)
      (input : list LexToken) (log : list nat) (st : store)
      (r : value * list nat) (st' : store) :
  run fuel ss vs input log st = Ok r st' ->
  run (extra + fuel) ss vs input log st = Ok r st'.
Proof.
  intros H. induction extra as [|extra IH]; [exact H|].
  cbn [Nat.add]. apply run_fuel_S. exact IH.
Qed.

Lemma drop_log_Ok (x : result (value * list nat)) (v : value) (st : store) :
  drop_log x = Ok v st -> exists log, x = Ok (v, log) st.
Proof.
  destruct x as [[v' log] st'|e]; cbn; intros H; inversion H; subst. eauto.
Qed.

Lemma run_fuel_mono_value (fuel extra : nat) (ss : list nat) (vs : list value)
      (input : list LexToken) (log : list nat) (st : store) (v : value) (st' : store) :
  drop_log (run fuel ss vs input log st) = Ok v st' ->
  drop_log (run (extra + fuel) ss vs input log st) = Ok v st'.
Proof.
  intros H. apply drop_log_Ok in H as [log' H].
  rewrite (run_fuel_mono _ extra _ _ _ _ _ _ _ H). reflexivity.
Qed.
End Runs.

(* ===================================================================== *)
(** ** A trailing comma in a map literal *)
(* ===================================================================== *)

Lemma assoc_In {B : Type} (k : string) (b : B) (l : list (string * B)) :
  assoc k l = Some b -> In (k, b) l.
Proof.
  induction l as [|[k' b'] l IH]; cbn; [discriminate|].
  destruct (String.eqb_spec k k') as [->|_].
  - intros H. inversion H. left. reflexivity.
  - intros H. right. apply IH. exact H.
Qed.

Lemma lookup_In_indexed_from {A : Type} (l : list A) (x : A) :
  forall i base : nat,
    l !! i = Some x -> In ((base + i)%nat, x) (combine (seq base (List.length l)) l).
Proof.
  induction l as [|y l IH]; intros i base Hi; [discriminate|].
  destruct i as [|i]; cbn in *.
  - inversion Hi. left. rewrite Nat.add_0_r. reflexivity.
  - right. rewrite <- Nat.add_succ_comm. apply IH. exact Hi.
Qed.

Lemma lookup_In_indexed {A : Type} (l : list A) (i : nat) (x : A) :
  l !! i = Some x -> In (i, x) (combine (seq 0 (List.length l)) l).
Proof. intros H. exact (lookup_In_indexed_from l x i 0%nat H). Qed.

Lemma table_rbrace_reduce (s r : nat) :
  action_at parser s "RBRACE" = Some (Reduce r) ->
  action_at parser s "COMMA" = Some (Reduce r).
Proof.
  assert (Hall : forallb rbrace_reduces_like_comma (lr_action parser) = true)
    by (vm_compute; reflexivity).
  unfold action_at. destruct (lr_action parser !! s) as [row|] eqn:E; [|discriminate].
  intros H. rewrite forallb_forall in Hall.
  specialize (Hall row (proj1 (list_elem_of_In _ _) (list_elem_of_lookup_2 _ _ _ E))).
  unfold rbrace_reduces_like_comma in Hall. rewrite H in Hall.
  destruct (assoc "COMMA" row) as [[j|r'|]|]; try discriminate.
  apply Nat.eqb_eq in Hall. subst. reflexivity.
Qed.

Lemma table_rbrace_accept (s : nat) : action_at parser s "RBRACE" <> Some Accept.
Proof.
  assert (Hall : forallb rbrace_reduces_like_comma (lr_action parser) = true)
    by (vm_compute; reflexivity).
  unfold action_at. destruct (lr_action parser !! s) as [row|] eqn:E; [|discriminate].
  intros H. rewrite forallb_forall in Hall.
  specialize (Hall row (proj1 (list_elem_of_In _ _) (list_elem_of_lookup_2 _ _ _ E))).
  unfold rbrace_reduces_like_comma in Hall. rewrite H in Hall. discriminate.
Qed.

Lemma table_rbrace_shift (s j : nat) :
  action_at parser s "RBRACE" = Some (Shift j) ->
  s = 20%nat \/ (s = 48%nat /\ j = 78%nat) \/ s = 79%nat.
Proof.
  assert (Hall : forallb rbrace_shift_states
                   (combine (seq 0 (List.length (lr_action parser))) (lr_action parser)) = true)
    by (vm_compute; reflexivity).
  unfold action_at. destruct (lr_action parser !! s) as [row|] eqn:E; [|discriminate].
  intros H. rewrite forallb_forall in Hall.
  specialize (Hall (s, row) (lookup_In_indexed _ _ _ E)).
  unfold rbrace_shift_states in Hall. cbn [fst snd] in Hall. rewrite H in Hall.
  apply orb_prop in Hall as [Hall|Hall]; [apply orb_prop in Hall as [Hall|Hall]|].
  - left. apply Nat.eqb_eq. exact Hall.
  - right. left. apply andb_prop in Hall as [H1 H2]. split; apply Nat.eqb_eq; assumption.
  - right. right. apply Nat.eqb_eq. exact Hall.
Qed.

Lemma table_shift_target (s j : nat) (a : string) :
  action_at parser s a = Some (Shift j) ->
  (j = 20%nat -> a = "LBRACE") /\ (j = 79%nat -> a = "COMMA").
Proof.
  assert (Hall : forallb shifts_into_20_79 (lr_action parser) = true)
    by (vm_compute; reflexivity).
  unfold action_at. destruct (lr_action parser !! s) as [row|] eqn:E; [|discriminate].
  intros H. apply assoc_In in H. rewrite forallb_forall in Hall.
  specialize (Hall row (proj1 (list_elem_of_In _ _) (list_elem_of_lookup_2 _ _ _ E))).
  unfold shifts_into_20_79 in Hall. rewrite forallb_forall in Hall.
  specialize (Hall _ H). cbn in Hall. apply andb_prop in Hall as [H1 H2].
  split; intros ->; cbn in *; apply String.eqb_eq; assumption.
Qed.

Lemma table_goto_target (s j : nat) (N : string) :
  goto_at parser s N = Some j -> j <> 20%nat /\ j <> 79%nat.
Proof.
  assert (Hall : forallb gotos_avoid_20_79 (lr_goto parser) = true)
    by (vm_compute; reflexivity).
  unfold goto_at. destruct (lr_goto parser !! s) as [row|] eqn:E; [|discriminate].
  intros H. apply assoc_In in H. rewrite forallb_forall in Hall.
  specialize (Hall row (proj1 (list_elem_of_In _ _) (list_elem_of_lookup_2 _ _ _ E))).
  unfold gotos_avoid_20_79 in Hall. rewrite forallb_forall in Hall.
  specialize (Hall _ H). cbn in Hall. apply andb_prop in Hall as [H1 H2].
  apply negb_true_iff in H1, H2. apply Nat.eqb_neq in H1, H2. split; assumption.
Qed.

Lemma last_cons_not_None {A : Type} (x : A) (l : list A) : list.last (x :: l) <> None.
Proof.
  revert x. induction l as [|y l IH]; intros x; [discriminate|].
  change (list.last (x :: y :: l)) with (list.last (y :: l)). apply IH.
Qed.

(** [p_map] reads slot 2 only. *)
Lemma p_map_slot_2 (p p' : list value) (st : store) :
  p !! 2%nat = p' !! 2%nat -> p_map p st = p_map p' st.
Proof. intros H. unfold p_map, bind, getitem. rewrite H. reflexivity. Qed.

Section TrailingComma.
Local Notation "'run'" := (parse_loop Productions callable p_error parser).

Lemma trailing_comma_sim (n : nat) :
  forall (ss : list nat) (vs : list value) (r : list LexToken)
         (logA logB : list nat) (st : store) (v : value) (st' : store),
    closes_entry r ss ->
    drop_log (run n ss vs (r ++ [RBRACE]) logA st) = Ok v st' ->
    drop_log (run (S n) ss vs (r ++ [COMMA; RBRACE]) logB st) = Ok v st'.
Proof.
  induction n as [|n IH]; intros ss vs r logA logB st v st' Hgood HA; [discriminate|].
  destruct r as [|t r].
  - (* everything before the closing brace has been read *)
    cbn [app] in *. destruct Hgood as [H20 H79].
    cbn [parse_loop lookahead_type] in HA.
    change (tok_type RBRACE) with "RBRACE" in HA.
    destruct (action_at parser (hd O ss) "RBRACE") as [[j|k|]|] eqn:EA.
    + (* the brace is shifted: the state is 48 *)
      destruct (table_rbrace_shift _ _ EA) as [E|[[E ->]|E]]; try contradiction.
      destruct ss as [|s ss1]; [discriminate E|]. cbn [hd] in E. subst s.
      destruct n as [|n]; [discriminate|].
      erewrite parse_loop_reduce in HA; [| vm_compute; reflexivity ..].
      lr_shift. lr_shift.
      erewrite parse_loop_reduce; [| vm_compute; reflexivity ..].
      change (callable 56) with p_map in HA. change (callable 57) with p_map.
      change (tok_value RBRACE) with (VStr "}") in *.
      change (tok_value COMMA) with (VStr ",") in *.
      destruct vs as [|x [|y vs]].
      * exfalso. revert HA. vm_compute. discriminate.
      * exfalso. revert HA.
        replace (p_map (VNone :: rev (take 3 [VStr "}"; x])) st) with (@Raise value AttributeError)
          by reflexivity.
        discriminate.
      * rewrite (p_map_slot_2 _ (VNone :: rev (take 3 (VStr "}" :: x :: y :: vs))))
          by reflexivity.
        destruct (p_map _ st) as [m st1|e]; [|discriminate HA].
        change (drop 4 (91 :: 79 :: 48 :: ss1)%nat) with (drop 3 (78 :: 48 :: ss1)%nat).
        change (drop 4 (VStr "}" :: VStr "," :: x :: y :: vs)) with vs.
        change (drop 3 (VStr "}" :: x :: y :: vs)) with vs in HA.
        destruct (goto_at parser _ "map") as [g|]; [|discriminate HA].
        rewrite (run_log_irrelevant n _ _ _ _ (56%nat :: logA)). exact HA.
    + (* a reduction: the comma triggers the same one *)
      pose proof (table_rbrace_reduce _ _ EA) as EB.
      cbn [parse_loop lookahead_type].
      change (tok_type COMMA) with "COMMA". rewrite EB.
      unfold bind in *. destruct (callable k _ st) as [x st1|e]; [|discriminate HA].
      destruct (goto_at parser _ _) as [g|] eqn:EG; [|discriminate HA].
      apply (IH _ _ [] (k :: logA)); [|exact HA].
      unfold closes_entry. cbn [list.last hd]. exact (table_goto_target _ _ _ EG).
    + exfalso. exact (table_rbrace_accept _ EA).
    + discriminate HA.
  - (* a token of the list is the lookahead of both runs *)
    cbn [app parse_loop lookahead_type] in HA |- *.
    destruct (action_at parser (hd O ss) (tok_type t)) as [[j|k|]|] eqn:EA.
    + apply (IH _ _ r logA); [|exact HA].
      unfold closes_entry in *. destruct r as [|t' r].
      * cbn [list.last hd] in *. destruct Hgood as [HL HC].
        destruct (table_shift_target _ _ _ EA) as [T20 T79].
        split; intros E; [apply HL, T20, E | apply HC, T79, E].
      * change (list.last (t :: t' :: r)) with (list.last (t' :: r)) in Hgood.
        destruct (list.last (t' :: r)) eqn:EL; [exact Hgood|].
        exfalso. exact (last_cons_not_None _ _ EL).
    + unfold bind in *. destruct (callable k _ st) as [x st1|e]; [|discriminate HA].
      destruct (goto_at parser _ _) as [g|] eqn:EG; [|discriminate HA].
      apply (IH _ _ (t :: r) (k :: logA)); [|exact HA].
      unfold closes_entry in *.
      destruct (list.last (t :: r)) eqn:EL; [exact Hgood|].
      exfalso. exact (last_cons_not_None _ _ EL).
    + exact HA.
    + discriminate HA.
Qed.

End TrailingComma.

(** Adding a comma before the closing brace of a map literal. *)
Lemma trailing_comma (L : list LexToken) (t : LexToken) (v : value) (st : store) :
  list.last L = Some t -> tok_type t <> "LBRACE" -> tok_type t <> "COMMA" ->
  parse (LBRACE :: L ++ [RBRACE]) = Ok v st ->
  parse (LBRACE :: L ++ [COMMA; RBRACE]) = Ok v st.
Proof.
  intros Hlast HL HC HA. unfold parse, parse_from in *.
  replace (parse_fuel (LBRACE :: L ++ [COMMA; RBRACE]))
    with (15 + S (parse_fuel (LBRACE :: L ++ [RBRACE])))%nat
    by (unfold parse_fuel; cbn [List.length]; rewrite !length_app; cbn [List.length]; lia).
  apply run_fuel_mono_value.
  apply (trailing_comma_sim _ _ _ (LBRACE :: L) [] []); [|exact HA].
  unfold closes_entry. destruct L as [|t0 L]; [discriminate|].
  change (list.last (LBRACE :: t0 :: L)) with (list.last (t0 :: L)).
  rewrite Hlast. split; assumption.
Qed.

(* ===================================================================== *)
(** ** Sort specs *)
(* ===================================================================== *)

Lemma dict_update_sort_pairs (items : list sort_item) :
  forall (d : gmap string value) (st : store),
    dict_update d (map sort_pair items) st
    = Ok (fold_left (fun d it => <[fst it := VInt (direction_value (snd it))]> d) items d) st.
Proof.
  induction items as [|it items IH]; intros d st; [reflexivity|].
  cbn [map dict_update fold_left]. unfold bind.
  change (as_pair (sort_pair it) st)
    with (Ok (VStr (fst it), VInt (direction_value (snd it))) st).
  cbn [fst snd]. apply IH.
Qed.

Lemma fold_insert_lookup (items : list sort_item) :
  forall (d : gmap string value) (name : string),
    fold_left (fun d it => <[fst it := VInt (direction_value (snd it))]> d) items d !! name
    = match last_direction name items with
      | Some z => Some (VInt z)
      | None => d !! name
      end.
Proof.
  induction items as [|it items IH]; intros d name; [reflexivity|].
  cbn [fold_left last_direction]. rewrite IH.
  destruct (last_direction name items) as [z|]; [reflexivity|].
  destruct (String.eqb_spec (fst it) name) as [->|Hne].
  - apply lookup_insert_eq.
  - apply lookup_insert_ne. exact Hne.
Qed.

(** The dict of a sort spec maps a name to the direction of its last
    occurrence. *)
Lemma sort_dict_lookup (items : list sort_item) (name : string) :
  sort_dict items !! name = VInt <$> last_direction name items.
Proof.
  unfold sort_dict. rewrite fold_insert_lookup.
  destruct (last_direction name items); [reflexivity | apply lookup_empty].
Qed.

Lemma callable_sort_spec_list (o x p0 k : value) (items : list value) :
  callable 46 [p0; VRef 1; k; x] [o; VList items] = Ok (VRef 1) [o; VList (items ++ [x])].
Proof. reflexivity. Qed.

Lemma callable_select_sort (c p0 k : value) (items : list sort_item) :
  callable 36 [p0; VRef 0; k; VRef 1]
           [VSelectOperation c VNone VNone VNone VNone VNone; VList (map sort_pair items)]
  = Ok (VRef 0)
       [VSelectOperation c VNone VNone VNone VNone (VDict (sort_dict items));
        VList (map sort_pair items)].
Proof.
  change (callable 36) with p_operation_select_sort.
  erewrite p_operation_select_sort_sets_sort; [reflexivity | reflexivity | reflexivity |].
  unfold dict, bind. change (iter (VRef 1) ?s) with (Ok (map sort_pair items) s).
  cbn beta iota. rewrite dict_update_sort_pairs. reflexivity.
Qed.

(** An action that leaves the store alone, whatever the store is. *)
Ltac lr_pure :=
  lazymatch goal with
  | |- callable ?r ?targ ?st = Ok _ _ =>
      let H := fresh in
      eassert (H : forall s, callable r targ s = Ok _ s) by (intros s; vm_compute; reflexivity);
      exact (H st)
  end.

(** The lookahead may be the head of a list still to be read. *)
Ltac lr_look :=
  first [ vm_compute; reflexivity
        | match goal with
          | |- context [flat_map _ ?r] => is_var r; destruct r; lr_look
          end ].

Ltac lr_step tac :=
  first [ erewrite parse_loop_shift by lr_look
        | erewrite parse_loop_reduce_ok;
          [| lr_look | vm_compute; reflexivity | vm_compute; reflexivity
           | vm_compute; reflexivity | first [tac | lr_pure | vm_compute; reflexivity]
           | vm_compute; reflexivity | vm_compute; reflexivity | vm_compute; reflexivity ] ].

Section SortLoop.
Local Notation "'run'" := (parse_loop Productions callable p_error parser).

Lemma sort_loop (c : string) (rest : list sort_item) :
  forall (acc : list sort_item) (extra : nat) (log : list nat),
    drop_log (run (sort_steps rest + extra) [72; 40; 8; 0]%nat
                  [VRef 1; VStr "SORT"; VRef 0; VNone]
                  (flat_map (fun it => COMMA :: sort_item_tokens it) rest) log
                  [VSelectOperation (VStr c) VNone VNone VNone VNone VNone;
                   VList (map sort_pair acc)])
    = Ok (VRef 0)
         [VSelectOperation (VStr c) VNone VNone VNone VNone (VDict (sort_dict (acc ++ rest)));
          VList (map sort_pair (acc ++ rest))].
Proof.
  induction rest as [|[f d] rest IH]; intros acc extra log.
  - cbn [flat_map sort_steps Nat.add]. rewrite app_nil_r.
    lr_step ltac:(apply callable_select_sort).
    do 2 lr_step fail. lr_accept. reflexivity.
  - cbn [flat_map sort_steps Nat.add app sort_item_tokens fst snd].
    destruct d; cbn [direction_tokens app].
    + do 2 lr_step fail. lr_step fail. lr_step fail.
      lr_step ltac:(apply callable_sort_spec_list).
      rewrite <- Nat.add_succ_r.
      change [VTuple [VStr f; VInt 1]] with (map sort_pair [(f, DirOmitted)]).
      rewrite <- map_app.
      rewrite IH. rewrite <- app_assoc. reflexivity.
    + do 3 lr_step fail. lr_step fail. lr_step fail.
      lr_step ltac:(apply callable_sort_spec_list).
      change [VTuple [VStr f; VInt 1]] with (map sort_pair [(f, DirAsc)]).
      rewrite <- map_app.
      rewrite IH. rewrite <- app_assoc. reflexivity.
    + do 3 lr_step fail. lr_step fail. lr_step fail.
      lr_step ltac:(apply callable_sort_spec_list).
      change [VTuple [VStr f; VInt (-1)]] with (map sort_pair [(f, DirDesc)]).
      rewrite <- map_app.
      rewrite IH. rewrite <- app_assoc. reflexivity.
Qed.
End SortLoop.

Lemma fuel_split (n m : nat) : (m <= n)%nat -> exists extra, n = (m + extra)%nat.
Proof. intros H. exists (n - m)%nat. lia. Qed.

Lemma length_sort_tail (rest : list sort_item) :
  (List.length rest <= List.length (flat_map (fun it => COMMA :: sort_item_tokens it) rest))%nat.
Proof.
  induction rest as [|it rest IH]; [reflexivity|].
  cbn [flat_map List.length app]. rewrite length_app. cbn [List.length]. lia.
Qed.

Lemma sort_steps_bound (rest : list sort_item) :
  sort_steps rest = (6 * List.length rest + 4)%nat.
Proof. induction rest as [|it rest IH]; cbn [sort_steps List.length]; lia. Qed.

(** A statement [SELECT * FROM c SORT item, ..., item]. *)
Lemma parse_sort_spec (c : string) (first : sort_item) (rest : list sort_item) :
  parse ([SELECT; STAR; FROM; SYMBOL c; SORT] ++ sort_spec_tokens first rest)
  = Ok (VRef 0)
       [VSelectOperation (VStr c) VNone VNone VNone VNone
                         (VDict (sort_dict (first :: rest)));
        VList (map sort_pair (first :: rest))].
Proof.
  unfold parse, parse_from.
  destruct (fuel_split
              (parse_fuel ([SELECT; STAR; FROM; SYMBOL c; SORT] ++ sort_spec_tokens first rest))
              (12 + sort_steps rest)) as [extra ->].
  { unfold parse_fuel, sort_spec_tokens. rewrite sort_steps_bound.
    cbn [app List.length]. rewrite length_app.
    pose proof (length_sort_tail rest).
    assert (1 <= List.length (sort_item_tokens first))%nat by (cbn; lia). lia. }
  destruct first as [f d]. unfold sort_spec_tokens.
  cbn [app sort_item_tokens fst snd Nat.add].
  destruct d; cbn [direction_tokens app].
  - do 11 lr_step fail. rewrite <- Nat.add_succ_r. apply (sort_loop c rest [(f, DirOmitted)]).
  - do 12 lr_step fail. apply (sort_loop c rest [(f, DirAsc)]).
  - do 12 lr_step fail. apply (sort_loop c rest [(f, DirDesc)]).
Qed.

Lemma snapshot_sort_dict (n : nat) (st : store) (items : list sort_item) :
  snapshot n st <$> sort_dict items = sort_dict items.
Proof.
  apply map_eq. intros name. rewrite lookup_fmap, sort_dict_lookup.
  destruct (last_direction name items); [|reflexivity].
  cbn. rewrite snapshot_flat by reflexivity. reflexivity.
Qed.

(** C5.  An omitted direction and ASC give +1, DESC gives -1; and for every
    sort spec (a first item and any number of further items, each with its
    optional direction), the statement [SELECT * FROM c SORT spec] has as its
    sort a dict that maps a name to the direction of its last occurrence in
    the spec, and has no entry for a name that does not occur. *)
Theorem sort_spec_mapping :
  (forall (p : list value) (st : store),
      p_sort_direction_default p st = Ok (VInt 1) st
      /\ p_sort_direction_asc p st = Ok (VInt 1) st
      /\ p_sort_direction_desc p st = Ok (VInt (-1)) st)
  /\ (forall (c : string) (first : sort_item) (rest : list sort_item),
        exists d : gmap string value,
          ast (parse ([SELECT; STAR; FROM; SYMBOL c; SORT] ++ sort_spec_tokens first rest))
          = Some (VSelectOperation (VStr c) VNone VNone VNone VNone (VDict d))
          /\ forall name : string,
              d !! name = VInt <$> last_direction name (first :: rest)).
Proof.
  split.
  - intros. repeat split; reflexivity.
  - intros c first rest. exists (sort_dict (first :: rest)). split.
    + rewrite parse_sort_spec. unfold ast. f_equal.
      cbn [List.length Nat.mul Nat.add].
      erewrite snapshot_ref by reflexivity.
      rewrite snapshot_select, snapshot_dict, snapshot_sort_dict.
      rewrite !snapshot_flat by reflexivity. reflexivity.
    + intros name. apply sort_dict_lookup.
Qed.

(** The examples of the specification. *)
Lemma sort_examples :
  ast (parse [SELECT; STAR; FROM; SYMBOL "c"; SORT; SYMBOL "a"])
  = Some (VSelectOperation (VStr "c") VNone VNone VNone VNone
            (VDict (<["a" := VInt 1]> ∅)))
  /\ ast (parse [SELECT; STAR; FROM; SYMBOL "c"; SORT; SYMBOL "a"; ASC; COMMA;
                 SYMBOL "b"; DESC])
     = Some (VSelectOperation (VStr "c") VNone VNone VNone VNone
               (VDict (<["a" := VInt 1]> (<["b" := VInt (-1)]> ∅))))
  /\ ast (parse [SELECT; STAR; FROM; SYMBOL "c"; SORT; SYMBOL "a"; COMMA;
                 SYMBOL "b"; DESC; COMMA; SYMBOL "a"; DESC])
     = Some (VSelectOperation (VStr "c") VNone VNone VNone VNone
               (VDict (<["a" := VInt (-1)]> (<["b" := VInt (-1)]> ∅)))).
Proof. repeat split; vm_compute; reflexivity. Qed.

(* ===================================================================== *)
(** ** The entries of a map literal *)
(* ===================================================================== *)

Lemma for_each_entries (es : list entry) (st : store) :
  for_each (fun i => n <- getattr_name i ;; e <- getattr_expression i ;; ret (VTuple [n; e]))
           (map entry_named es) st
  = Ok (map entry_pair es) st.
Proof.
  induction es as [|[[n a] form] es IH]; [reflexivity|].
  cbn [map for_each entry_named]. unfold bind at 1. cbn [getattr_name ret].
  unfold bind at 1. cbn [getattr_expression ret]. unfold bind at 1. cbn [ret].
  unfold bind at 1. rewrite IH. reflexivity.
Qed.

(** [p_map] on the list of the entries: the pairs, in the order of the
    list, under either alternative of the rule. *)
Lemma p_map_entries (p0 lb rb : value) (more : list value) (es : list entry) :
  p_map (p0 :: lb :: VRef 0 :: rb :: more) [VList (map entry_named es)]
  = Ok (VMap (map entry_pair es)) [VList (map entry_named es)].
Proof.
  unfold p_map, bind. cbn [getitem lookup list_lookup ret].
  change (iter (VRef 0) [VList (map entry_named es)])
    with (Ok (map entry_named es) [VList (map entry_named es)]).
  cbn beta iota. rewrite for_each_entries. reflexivity.
Qed.

Lemma callable_map_entries (p0 lb rb : value) (es : list entry) :
  callable 56 [p0; lb; VRef 0; rb] [VList (map entry_named es)]
  = Ok (VMap (map entry_pair es)) [VList (map entry_named es)].
Proof. apply p_map_entries. Qed.

Lemma callable_entry_append (p0 k n e : value) (items : list value) :
  callable 29 [p0; VRef 0; k; VNamedExpression n e] [VList items]
  = Ok (VRef 0) [VList (items ++ [VNamedExpression n e])].
Proof. reflexivity. Qed.

Section MapLoop.
Local Notation "'run'" := (parse_loop Productions callable p_error parser).

Lemma map_loop (rest : list entry) :
  forall (acc : list entry) (extra : nat) (log : list nat),
    drop_log (run (map_steps rest + extra) [48; 20; 0]%nat
                  [VRef 0; VStr "{"; VNone]
                  (flat_map (fun e => COMMA :: entry_tokens e) rest ++ [RBRACE]) log
                  [VList (map entry_named acc)])
    = Ok (VMap (map entry_pair (acc ++ rest))) [VList (map entry_named (acc ++ rest))].
Proof.
  induction rest as [|[[n a] form] rest IH]; intros acc extra log.
  - cbn [flat_map map_steps Nat.add app]. rewrite app_nil_r.
    lr_step fail. lr_step ltac:(apply callable_map_entries).
    do 3 lr_step fail. lr_accept. reflexivity.
  - assert (Hnext : forall extra log,
               drop_log (run (map_steps rest + extra) [48; 20; 0]%nat
                             [VRef 0; VStr "{"; VNone]
                             (flat_map (fun e => COMMA :: entry_tokens e) rest ++ [RBRACE]) log
                             [VList (map entry_named acc
                                         ++ [VNamedExpression (VStr n) (atom_value a)])])
               = Ok (VMap (map entry_pair (acc ++ (n, a, form) :: rest)))
                    [VList (map entry_named (acc ++ (n, a, form) :: rest))]).
    { intros extra' log'. specialize (IH (acc ++ [(n, a, form)]) extra' log').
      rewrite map_app, <- app_assoc in IH. exact IH. }
    clear IH.
    cbn [flat_map map_steps Nat.add app entry_tokens].
    rewrite <- app_assoc.
    destruct form, a; cbn [atom_token app];
      repeat (lr_step ltac:(apply callable_entry_append));
      repeat rewrite <- Nat.add_succ_r; apply Hnext.
Qed.
End MapLoop.

Lemma length_entries_tail (rest : list entry) :
  (4 * List.length rest
   <= List.length (flat_map (fun e => COMMA :: entry_tokens e) rest))%nat.
Proof.
  induction rest as [|[[n a] form] rest IH]; [reflexivity|].
  cbn [flat_map List.length app]. rewrite length_app.
  destruct form; cbn [entry_tokens List.length]; lia.
Qed.

Lemma map_steps_bound (rest : list entry) :
  map_steps rest = (8 * List.length rest + 6)%nat.
Proof. induction rest as [|e rest IH]; cbn [map_steps List.length]; lia. Qed.

(** A statement that is one map literal [{ entry, ..., entry }]. *)
Lemma parse_map_entries (first : entry) (rest : list entry) :
  parse (LBRACE :: entries_tokens first rest ++ [RBRACE])
  = Ok (VMap (map entry_pair (first :: rest))) [VList (map entry_named (first :: rest))].
Proof.
  unfold parse, parse_from.
  destruct (fuel_split (parse_fuel (LBRACE :: entries_tokens first rest ++ [RBRACE]))
                       (9 + map_steps rest)) as [extra ->].
  { unfold parse_fuel, entries_tokens. rewrite map_steps_bound.
    cbn [List.length]. rewrite !length_app.
    pose proof (length_entries_tail rest). cbn [List.length]. lia. }
  destruct first as [[n a] form]. unfold entries_tokens.
  pose proof (fun extra log => map_loop rest [(n, a, form)] extra log) as Hnext.
  cbn [map entry_named app] in Hnext.
  cbn [entry_tokens Nat.add]. rewrite <- app_assoc.
  destruct form, a; cbn [atom_token app];
    repeat (lr_step fail); repeat rewrite <- Nat.add_succ_r; apply Hnext.
Qed.

Lemma last_entry_token (e : entry) :
  exists t, list.last (entry_tokens e) = Some t
            /\ tok_type t <> "LBRACE" /\ tok_type t <> "COMMA".
Proof.
  destruct e as [[n a] form]; destruct form, a; eexists; (split; [reflexivity|]);
    split; discriminate.
Qed.

Lemma last_entries_tokens (rest : list entry) :
  forall first : entry,
  exists t, list.last (entries_tokens first rest) = Some t
            /\ tok_type t <> "LBRACE" /\ tok_type t <> "COMMA".
Proof.
  induction rest as [|e rest IH]; intros first; unfold entries_tokens.
  - cbn [flat_map]. rewrite app_nil_r. apply last_entry_token.
  - cbn [flat_map app]. rewrite last_app_cons.
    destruct (IH e) as (t & Ht & Hne). exists t. split; [|exact Hne].
    unfold entries_tokens in Ht.
    destruct (entry_tokens e ++ flat_map (fun e0 => COMMA :: entry_tokens e0) rest) eqn:E;
      [discriminate Ht | exact Ht].
Qed.

Lemma snapshot_entry_pair (n : nat) (st : store) (e : entry) :
  snapshot n st (entry_pair e) = entry_pair e.
Proof. destruct e as [[nm a] f], a, n as [|[|[|n]]]; reflexivity. Qed.

Lemma snapshot_entry_pairs (n : nat) (st : store) (es : list entry) :
  map (snapshot n st) (map entry_pair es) = map entry_pair es.
Proof.
  induction es as [|e es IH]; [reflexivity|].
  cbn [map]. rewrite snapshot_entry_pair, IH. reflexivity.
Qed.

(** C7.  If the token sequence [{ L }] parses to a value, and L ends in a
    token that is neither an opening brace nor a comma (as every
    named-expression list does), then [{ L , }] parses to the same value
    with the same store.  For every list of entries (name and atomic
    expression, in either form) both texts parse to the map literal whose
    pairs are those of the entries, in source order, duplicates kept; so for
    the example of the specification. *)
Theorem map_literal_trailing_comma :
  (forall (L : list LexToken) (t : LexToken) (v : value) (st : store),
      list.last L = Some t -> tok_type t <> "LBRACE" -> tok_type t <> "COMMA" ->
      parse (LBRACE :: L ++ [RBRACE]) = Ok v st ->
      parse (LBRACE :: L ++ [COMMA; RBRACE]) = Ok v st)
  /\ (forall (first : entry) (rest : list entry),
        ast (parse (LBRACE :: entries_tokens first rest ++ [RBRACE]))
        = Some (VMap (map entry_pair (first :: rest)))
        /\ ast (parse (LBRACE :: entries_tokens first rest ++ [COMMA; RBRACE]))
           = Some (VMap (map entry_pair (first :: rest))))
  /\ ast (parse [LBRACE; SYMBOL "a"; EQUAL; INTEGER 1; COMMA;
                 SYMBOL "b"; EQUAL; STRING "'x'"; COMMA; RBRACE])
     = Some (VMap [VTuple [VStr "a"; VInt 1]; VTuple [VStr "b"; VStr "x"]])
  /\ ast (parse [LBRACE; SYMBOL "a"; EQUAL; INTEGER 1; COMMA;
                 SYMBOL "b"; EQUAL; STRING "'x'"; RBRACE])
     = Some (VMap [VTuple [VStr "a"; VInt 1]; VTuple [VStr "b"; VStr "x"]]).
Proof.
  split; [|split; [|split]].
  - intros L t v st. apply trailing_comma.
  - intros first rest.
    assert (H : ast (Ok (VMap (map entry_pair (first :: rest)))
                        [VList (map entry_named (first :: rest))])
                = Some (VMap (map entry_pair (first :: rest)))).
    { unfold ast. cbn [List.length Nat.mul Nat.add].
      rewrite snapshot_map, snapshot_entry_pairs. reflexivity. }
    split.
    + rewrite parse_map_entries. exact H.
    + destruct (last_entries_tokens rest first) as (t & Ht & HL & HC).
      rewrite (trailing_comma _ t _ _ Ht HL HC (parse_map_entries first rest)). exact H.
  - vm_compute. reflexivity.
  - vm_compute. reflexivity.
Qed.

Lemma map_literal_trailing_comma_witness :
  parse [LBRACE; SYMBOL "a"; EQUAL; INTEGER 1; COMMA; SYMBOL "b"; EQUAL; STRING "'x'";
         COMMA; RBRACE]
  = Ok (VMap [VTuple [VStr "a"; VInt 1]; VTuple [VStr "b"; VStr "x"]])
       [VList [VNamedExpression (VStr "a") (VInt 1); VNamedExpression (VStr "b") (VStr "x")]].
Proof.
  destruct map_literal_trailing_comma as (H & _).
  apply (H [SYMBOL "a"; EQUAL; INTEGER 1; COMMA; SYMBOL "b"; EQUAL; STRING "'x'"]
           (STRING "'x'")).
  - reflexivity.
  - discriminate.
  - discriminate.
  - vm_compute. reflexivity.
Defined.

(* ===================================================================== *)
(** ** Aggregate statements with any number of PROJECT clauses *)
(* ===================================================================== *)

Lemma forallb_entries_named (es : list entry) :
  forallb is_named_expression (map entry_named es) = true.
Proof. induction es as [|[[n a] f] es IH]; [reflexivity | exact IH]. Qed.

Section AggregateStore.
Variables (x y : value) (lists : list value) (a : nat).
Hypothesis Ha : a = (2 + List.length lists)%nat.

Lemma lookup_last_cell (z : value) : (x :: y :: lists ++ [z]) !! a = Some z.
Proof. subst a. cbn [Nat.add lookup list_lookup]. apply list_lookup_middle. reflexivity. Qed.

Lemma insert_last_cell (z z' : value) :
  <[a := z']> (x :: y :: lists ++ [z]) = x :: y :: lists ++ [z'].
Proof.
  subst a.
  change (x :: y :: <[List.length lists := z']> (lists ++ [z]) = x :: y :: lists ++ [z']).
  rewrite insert_app_r_alt by reflexivity. rewrite Nat.sub_diag. reflexivity.
Qed.

Lemma callable_clause_first (p0 n e : value) :
  callable 28 [p0; VNamedExpression n e] (x :: y :: lists)
  = Ok (VRef a) (x :: y :: lists ++ [VList [VNamedExpression n e]]).
Proof. subst a. reflexivity. Qed.

Lemma callable_clause_append (p0 k n e : value) (items : list value) :
  callable 29 [p0; VRef a; k; VNamedExpression n e] (x :: y :: lists ++ [VList items])
  = Ok (VRef a) (x :: y :: lists ++ [VList (items ++ [VNamedExpression n e])]).
Proof.
  change (callable 29) with p_named_expression_list.
  unfold p_named_expression_list, bind, getitem. cbn [lookup list_lookup ret].
  cbn [is_named_expression assert ret]. unfold append.
  change ((?u :: ?v :: ?l) !! a) with ((u :: v :: l) !! a).
  rewrite lookup_last_cell, insert_last_cell. reflexivity.
Qed.
End AggregateStore.

Lemma callable_project (c : string) (stages lists : list value) (a : nat) (p0 k : value)
      (es : list entry) :
  a = (2 + List.length lists)%nat ->
  callable 31 [p0; VRef 1; k; VRef a]
           (VList stages :: VAggregateOperation (VStr c) (VRef 0)
                  :: lists ++ [VList (map entry_named es)])
  = Ok (VRef 1)
       (VList (stages ++ [VAggregateCmdProject (VRef a)])
              :: VAggregateOperation (VStr c) (VRef 0)
              :: lists ++ [VList (map entry_named es)]).
Proof.
  intros Ha. change (callable 31) with p_operation_aggregate_project.
  rewrite (p_operation_aggregate_project_appends _ 1 0 a (VStr c) p0 k stages
             (map entry_named es));
    [reflexivity | reflexivity | reflexivity | apply lookup_last_cell; exact Ha
     | apply forallb_entries_named].
Qed.

Section AggregateLoops.
Local Notation "'run'" := (parse_loop Productions callable p_error parser).

(** The entries of a clause after its first, up to the reduction of the
    clause: the driver is back in the state that follows an operation, with
    one more stage in the pipeline, and goes on from there. *)
Lemma project_loop (c : string) (rest : list entry) :
  forall (acc : list entry) (stages lists : list value) (a : nat)
         (tail : list LexToken) (extra : nat) (log : list nat) (v : value) (st' : store),
    a = (2 + List.length lists)%nat ->
    tail = [] \/ (exists tl, tail = PROJECT :: tl) ->
    drop_log (run extra [9; 0]%nat [VRef 1; VNone] tail []
                  (VList (stages ++ [VAggregateCmdProject (VRef a)])
                         :: VAggregateOperation (VStr c) (VRef 0)
                         :: lists ++ [VList (map entry_named (acc ++ rest))]))
    = Ok v st' ->
    drop_log (run (project_steps rest + extra) [75; 41; 9; 0]%nat
                  [VRef a; VStr "PROJECT"; VRef 1; VNone]
                  (flat_map (fun e => COMMA :: entry_tokens e) rest ++ tail) log
                  (VList stages :: VAggregateOperation (VStr c) (VRef 0)
                         :: lists ++ [VList (map entry_named acc)]))
    = Ok v st'.
Proof.
  induction rest as [|[[n x] form] rest IH];
    intros acc stages lists a tail extra log v st' Ha Htail Hrest.
  - cbn [flat_map project_steps Nat.add app]. rewrite app_nil_r in Hrest.
    destruct Htail as [->|[tl ->]];
      lr_step ltac:(apply callable_project; exact Ha);
      rewrite (run_log_irrelevant _ _ _ _ _ []); exact Hrest.
  - assert (Hnext : forall k log,
               drop_log (run (project_steps rest + (k + extra)) [75; 41; 9; 0]%nat
                             [VRef a; VStr "PROJECT"; VRef 1; VNone]
                             (flat_map (fun e => COMMA :: entry_tokens e) rest ++ tail) log
                             (VList stages :: VAggregateOperation (VStr c) (VRef 0)
                                    :: lists ++ [VList (map entry_named acc
                                         ++ [VNamedExpression (VStr n) (atom_value x)])]))
               = Ok v st').
    { intros k log'.
      specialize (IH (acc ++ [(n, x, form)]) stages lists a tail (k + extra)%nat log' v st'
                     Ha Htail).
      rewrite <- (app_assoc acc [(n, x, form)] rest) in IH.
      rewrite (map_app _ acc [(n, x, form)]) in IH. apply IH.
      apply run_fuel_mono_value. exact Hrest. }
    clear IH Hrest.
    cbn [flat_map project_steps Nat.add app entry_tokens].
    rewrite <- app_assoc.
    destruct Htail as [->|[tl ->]];
      destruct form, x; cbn [atom_token app];
      repeat (lr_step ltac:(apply callable_clause_append; exact Ha));
      repeat rewrite <- Nat.add_succ_r;
      first [ apply (Hnext 0%nat) | apply (Hnext 1%nat) ].
Qed.
End AggregateLoops.

Lemma stage_refs_S (n : nat) :
  stage_refs (S n) = stage_refs n ++ [VAggregateCmdProject (VRef (2 + n))].
Proof. unfold stage_refs. rewrite seq_S, map_app. reflexivity. Qed.

Lemma agg_store_snoc (c : string) (lists : list value) (l : value) :
  VList (stage_refs (List.length lists)
                    ++ [VAggregateCmdProject (VRef (2 + List.length lists))])
        :: VAggregateOperation (VStr c) (VRef 0) :: lists ++ [l]
  = agg_store c (lists ++ [l]).
Proof.
  unfold agg_store. rewrite length_app. cbn [List.length].
  rewrite Nat.add_1_r, stage_refs_S. reflexivity.
Qed.

Lemma clauses_tail_shape (clauses : list clause) :
  flat_map clause_tokens clauses = []
  \/ exists tl, flat_map clause_tokens clauses = PROJECT :: tl.
Proof. destruct clauses as [|cl clauses]; [left; reflexivity | right; eexists; reflexivity]. Qed.

Section AggregateOuter.
Local Notation "'run'" := (parse_loop Productions callable p_error parser).

Lemma aggregate_loop (c : string) (clauses : list clause) :
  forall (lists : list value) (extra : nat) (log : list nat),
    drop_log (run (aggregate_steps clauses + extra) [9; 0]%nat [VRef 1; VNone]
                  (flat_map clause_tokens clauses) log (agg_store c lists))
    = Ok (VRef 1) (agg_store c (lists ++ map clause_list clauses)).
Proof.
  induction clauses as [|[[[n x] form] rest] clauses IH]; intros lists extra log.
  - cbn [flat_map aggregate_steps Nat.add map]. rewrite app_nil_r.
    do 2 lr_step fail. lr_accept. reflexivity.
  - assert (Hnext : forall k log,
               drop_log (run (project_steps rest + (aggregate_steps clauses + (k + extra)))
                             [75; 41; 9; 0]%nat
                             [VRef (2 + List.length lists); VStr "PROJECT"; VRef 1; VNone]
                             (flat_map (fun e => COMMA :: entry_tokens e) rest
                                       ++ flat_map clause_tokens clauses) log
                             (VList (stage_refs (List.length lists))
                                    :: VAggregateOperation (VStr c) (VRef 0)
                                    :: lists ++ [VList [VNamedExpression (VStr n)
                                                                         (atom_value x)]]))
               = Ok (VRef 1)
                    (agg_store c (lists ++ map clause_list (((n, x, form), rest) :: clauses)))).
    { intros k log'.
      apply (project_loop c rest [(n, x, form)] _ lists _ _ _ _ _ _ eq_refl
                          (clauses_tail_shape clauses)).
      change ([(n, x, form)] ++ rest) with ((n, x, form) :: rest).
      change (VList (map entry_named ((n, x, form) :: rest)))
        with (clause_list ((n, x, form), rest)).
      rewrite agg_store_snoc. rewrite IH. rewrite <- app_assoc. reflexivity. }
    clear IH.
    cbn [flat_map aggregate_steps Nat.add app clause_tokens fst snd].
    unfold entries_tokens. cbn [entry_tokens]. rewrite <- !app_assoc.
    rewrite <- Nat.add_assoc.
    unfold agg_store.
    remember (2 + List.length lists)%nat as a eqn:Ha.
    destruct form, x; cbn [atom_token app];
      repeat (lr_step ltac:(apply callable_clause_first; exact Ha));
      repeat rewrite <- Nat.add_succ_r;
      first [ apply (Hnext 1%nat) | apply (Hnext 2%nat) ].
Qed.
End AggregateOuter.

Lemma aggregate_steps_bound (clauses : list clause) :
  (aggregate_steps clauses <= 3 + 3 * List.length (flat_map clause_tokens clauses))%nat.
Proof.
  induction clauses as [|[[[n a] form] rest] clauses IH]; [cbn; lia|].
  cbn [aggregate_steps flat_map fst snd]. rewrite length_app.
  unfold clause_tokens at 1. unfold entries_tokens. cbn [fst snd].
  pose proof (length_entries_tail rest).
  assert (project_steps rest = 8 * List.length rest + 1)%nat as ->
      by (clear; induction rest as [|e rest IHr]; cbn [project_steps List.length]; lia).
  destruct form; cbn [entry_tokens List.length app]; rewrite ?length_app; lia.
Qed.

(** A statement [AGGREGATE c PROJECT clause ... PROJECT clause]. *)
Lemma parse_aggregate (c : string) (clauses : list clause) :
  parse ([AGGREGATE; SYMBOL c] ++ flat_map clause_tokens clauses)
  = Ok (VRef 1) (agg_store c (map clause_list clauses)).
Proof.
  unfold parse, parse_from.
  destruct (fuel_split (parse_fuel ([AGGREGATE; SYMBOL c] ++ flat_map clause_tokens clauses))
                       (3 + aggregate_steps clauses)) as [extra ->].
  { unfold parse_fuel. pose proof (aggregate_steps_bound clauses).
    cbn [app List.length]. lia. }
  cbn [app Nat.add].
  do 3 lr_step fail.
  apply (aggregate_loop c clauses []).
Qed.

Lemma snapshot_entry_named (n : nat) (st : store) (e : entry) :
  snapshot n st (entry_named e) = entry_named e.
Proof. destruct e as [[nm a] f], a, n as [|[|[|n]]]; reflexivity. Qed.

Lemma snapshot_clause_list (n : nat) (st : store) (cl : clause) :
  snapshot n st (clause_list cl) = clause_list cl.
Proof.
  destruct n as [|n]; [reflexivity|]. unfold clause_list. rewrite snapshot_list. f_equal.
  induction (fst cl :: snd cl) as [|e es IH]; [reflexivity|].
  cbn [map]. rewrite snapshot_entry_named, IH. reflexivity.
Qed.

Lemma snapshot_stage_refs (n : nat) (clauses : list clause) :
  forall pre : list value,
    map (snapshot (S (S n)) (pre ++ map clause_list clauses))
        (map (fun i => VAggregateCmdProject (VRef i))
             (seq (List.length pre) (List.length clauses)))
    = map (fun cl => VAggregateCmdProject (clause_list cl)) clauses.
Proof.
  induction clauses as [|cl clauses IH]; intros pre; [reflexivity|].
  cbn [List.length seq map]. f_equal.
  - change (snapshot (S (S n)) ?st (VAggregateCmdProject ?v))
      with (VAggregateCmdProject (snapshot (S n) st v)).
    erewrite snapshot_ref by (apply list_lookup_middle; reflexivity).
    rewrite snapshot_clause_list. reflexivity.
  - specialize (IH (pre ++ [clause_list cl])).
    rewrite <- app_assoc, length_app in IH. cbn [app List.length] in IH.
    rewrite Nat.add_1_r in IH. exact IH.
Qed.

(** The tree of an aggregate statement: one stage per clause, in order. *)
Lemma ast_aggregate (c : string) (clauses : list clause) :
  ast (parse ([AGGREGATE; SYMBOL c] ++ flat_map clause_tokens clauses))
  = Some (VAggregateOperation (VStr c)
            (VList (map (fun cl => VAggregateCmdProject (clause_list cl)) clauses))).
Proof.
  rewrite parse_aggregate. unfold ast. f_equal.
  rewrite Nat.add_comm. cbn [Nat.add].
  erewrite snapshot_ref by reflexivity. rewrite snapshot_aggregate.
  rewrite snapshot_flat by reflexivity.
  erewrite snapshot_ref by reflexivity. rewrite snapshot_list.
  unfold agg_store, stage_refs. rewrite length_map.
  rewrite (snapshot_stage_refs _ clauses
             [VList (map (fun i => VAggregateCmdProject (VRef i))
                         (seq 2 (List.length clauses)));
              VAggregateOperation (VStr c) (VRef 0)]).
  reflexivity.
Qed.

(** C6.  Each PROJECT reduction appends exactly one stage to the pipeline of
    the operation it received, after the stages already there.  So an
    aggregate statement with any number of PROJECT clauses (each a list of
    entries with atomic expressions, in either form) parses to an
    AggregateOperation whose pipeline has one stage per clause, in the order
    of the clauses, each stage holding the entries of its own clause; and the
    token sequence of [AGGREGATE coll PROJECT a = x PROJECT b = y] parses to
    the pipeline of the two stages [(a, x)] and [(b, y)], in that order. *)
Theorem project_appends_one_stage :
  (forall (st : store) (a pl l : nat) (c p0 kwd : value) (stages nes : list value),
      st !! a = Some (VAggregateOperation c (VRef pl)) ->
      st !! pl = Some (VList stages) ->
      st !! l = Some (VList nes) ->
      forallb is_named_expression nes = true ->
      p_operation_aggregate_project [p0; VRef a; kwd; VRef l] st
      = Ok (VRef a) (<[pl := VList (stages ++ [VAggregateCmdProject (VRef l)])]> st))
  /\ (forall (c : string) (clauses : list clause),
        ast (parse ([AGGREGATE; SYMBOL c] ++ flat_map clause_tokens clauses))
        = Some (VAggregateOperation (VStr c)
                  (VList (map (fun cl => VAggregateCmdProject (clause_list cl)) clauses))))
  /\ (forall coll a x b y : string,
        ast (parse [AGGREGATE; SYMBOL coll; PROJECT; SYMBOL a; EQUAL; SYMBOL x;
                    PROJECT; SYMBOL b; EQUAL; SYMBOL y])
        = Some (VAggregateOperation (VStr coll)
                  (VList [VAggregateCmdProject
                            (VList [VNamedExpression (VStr a) (VSymbol (VStr x))]);
                          VAggregateCmdProject
                            (VList [VNamedExpression (VStr b) (VSymbol (VStr y))])]))).
Proof.
  split; [|split].
  - intros. eapply p_operation_aggregate_project_appends; eassumption.
  - apply ast_aggregate.
  - intros coll a x b y.
    exact (ast_aggregate coll [((a, ASymbol x, ByEqual), []); ((b, ASymbol y, ByEqual), [])]).
Qed.

Lemma project_appends_one_stage_witness :
  p_operation_aggregate_project
    [VNone; VRef 1; VStr "PROJECT"; VRef 3]
    [VList [VAggregateCmdProject (VRef 2)];
     VAggregateOperation (VStr "coll") (VRef 0);
     VList [VNamedExpression (VStr "a") (VSymbol (VStr "x"))];
     VList [VNamedExpression (VStr "b") (VSymbol (VStr "y"))]]
  = Ok (VRef 1)
       [VList [VAggregateCmdProject (VRef 2); VAggregateCmdProject (VRef 3)];
        VAggregateOperation (VStr "coll") (VRef 0);
        VList [VNamedExpression (VStr "a") (VSymbol (VStr "x"))];
        VList [VNamedExpression (VStr "b") (VSymbol (VStr "y"))]].
Proof.
  destruct project_appends_one_stage as (H & _).
  exact (H [VList [VAggregateCmdProject (VRef 2)];
            VAggregateOperation (VStr "coll") (VRef 0);
            VList [VNamedExpression (VStr "a") (VSymbol (VStr "x"))];
            VList [VNamedExpression (VStr "b") (VSymbol (VStr "y"))]]
           1%nat 0%nat 3%nat (VStr "coll") VNone (VStr "PROJECT")
           [VAggregateCmdProject (VRef 2)]
           [VNamedExpression (VStr "b") (VSymbol (VStr "y"))]
           eq_refl eq_refl eq_refl eq_refl).
Defined.

(* ===================================================================== *)
(** ** Named expressions *)
(* ===================================================================== *)

Lemma ast_map_entries (first : entry) (rest : list entry) :
  ast (parse (LBRACE :: entries_tokens first rest ++ [RBRACE]))
  = Some (VMap (map entry_pair (first :: rest))).
Proof.
  rewrite parse_map_entries. unfold ast. cbn [List.length Nat.mul Nat.add].
  rewrite snapshot_map, snapshot_entry_pairs. reflexivity.
Qed.

Lemma entry_pair_set_form (f : entry_form) (es : list entry) :
  map entry_pair (map (set_form f) es) = map entry_pair es.
Proof. induction es as [|[[n a] g] es IH]; [reflexivity|]. cbn [map]. rewrite IH. reflexivity. Qed.

Lemma entry_named_set_form (f : entry_form) (es : list entry) :
  map entry_named (map (set_form f) es) = map entry_named es.
Proof. induction es as [|[[n a] g] es IH]; [reflexivity|]. cbn [map]. rewrite IH. reflexivity. Qed.

Lemma clause_list_set_forms (f : entry_form) (clauses : list clause) :
  map (fun cl => VAggregateCmdProject (clause_list cl)) (map (clause_set_form f) clauses)
  = map (fun cl => VAggregateCmdProject (clause_list cl)) clauses.
Proof.
  induction clauses as [|[first rest] clauses IH]; [reflexivity|].
  cbn [map]. rewrite IH. f_equal. unfold clause_list, clause_set_form. cbn [fst snd].
  change (set_form f first :: map (set_form f) rest) with (map (set_form f) (first :: rest)).
  rewrite entry_named_set_form. reflexivity.
Qed.

(** C8.  The two forms build the same pair: on any expression value e and
    name n, whatever the values of the AS and = tokens, the two actions
    return the named tuple (n, e); with an atomic expression inside a map
    literal or a PROJECT clause the two texts parse to the same tree; and in
    a map literal or an aggregate statement with any number of entries,
    rewriting every entry in one form, whichever, leaves the tree
    unchanged. *)
Theorem named_expression_forms_agree :
  (forall (e n p0 p0' kw_as kw_eq : value) (st : store),
      p_named_expression_as [p0; e; kw_as; n] st = Ok (VNamedExpression n e) st
      /\ p_named_expression [p0'; n; kw_eq; e] st = Ok (VNamedExpression n e) st)
  /\ (forall (a : atom) (n : string),
        ast (parse [LBRACE; atom_token a; AS; SYMBOL n; RBRACE])
        = Some (VMap [VTuple [VStr n; atom_value a]])
        /\ ast (parse [LBRACE; SYMBOL n; EQUAL; atom_token a; RBRACE])
           = Some (VMap [VTuple [VStr n; atom_value a]]))
  /\ (forall (a : atom) (c n : string),
        ast (parse [AGGREGATE; SYMBOL c; PROJECT; atom_token a; AS; SYMBOL n])
        = ast (parse [AGGREGATE; SYMBOL c; PROJECT; SYMBOL n; EQUAL; atom_token a]))
  /\ (forall (f : entry_form) (first : entry) (rest : list entry),
        ast (parse (LBRACE :: entries_tokens (set_form f first) (map (set_form f) rest)
                           ++ [RBRACE]))
        = ast (parse (LBRACE :: entries_tokens first rest ++ [RBRACE])))
  /\ (forall (f : entry_form) (c : string) (clauses : list clause),
        ast (parse ([AGGREGATE; SYMBOL c]
                      ++ flat_map clause_tokens (map (clause_set_form f) clauses)))
        = ast (parse ([AGGREGATE; SYMBOL c] ++ flat_map clause_tokens clauses))).
Proof.
  split; [|split; [|split; [|split]]].
  - intros. split; reflexivity.
  - intros a n. split.
    + exact (ast_map_entries (n, a, ByAs) []).
    + exact (ast_map_entries (n, a, ByEqual) []).
  - intros a c n.
    exact (eq_trans (ast_aggregate c [((n, a, ByAs), [])])
                    (eq_sym (ast_aggregate c [((n, a, ByEqual), [])]))).
  - intros f first rest. rewrite !ast_map_entries.
    change (set_form f first :: map (set_form f) rest) with (map (set_form f) (first :: rest)).
    rewrite entry_pair_set_form. reflexivity.
  - intros f c clauses. rewrite !ast_aggregate, clause_list_set_forms. reflexivity.
Qed.

(* ===================================================================== *)
(** ** Expressions without parentheses *)
(* ===================================================================== *)

(** What the tables say in the states of a flat expression. *)
Lemma table_shift_atom (c : ctx) (a : atom) :
  action_at parser (ctx_state c) (tok_type (atom_token a)) = Some (Shift (atom_state a)).
Proof. destruct c as [| |o]; [| |destruct o]; destruct a; vm_compute; reflexivity. Qed.

Lemma table_shift_not (c : ctx) :
  action_at parser (ctx_state c) "NOT" = Some (Shift 7).
Proof. destruct c as [| |o]; [| |destruct o]; vm_compute; reflexivity. Qed.

Lemma table_reduce_atom (a : atom) (la : string) :
  follows_operand la ->
  action_at parser (atom_state a) la = Some (Reduce (hd O (atom_rules a))).
Proof. intros [->|[o ->]]; [|destruct o]; destruct a; vm_compute; reflexivity. Qed.

Lemma table_reduce_base_type (la : string) :
  follows_operand la -> action_at parser 5 la = Some (Reduce 6).
Proof. intros [->|[o ->]]; [|destruct o]; vm_compute; reflexivity. Qed.

Lemma table_goto_expression (c : ctx) :
  goto_at parser (ctx_state c) "expression" = Some (ctx_expr_state c)
  /\ goto_at parser (ctx_state c) "base_type" = Some 5%nat.
Proof. destruct c as [| |o]; [| |destruct o]; split; vm_compute; reflexivity. Qed.

(** The shift is preferred: after an operand, whatever precedes it, a binary
    operator is shifted. *)
Lemma table_shift_operator (c : ctx) (o : binop) :
  action_at parser (ctx_expr_state c) (binop_kind o) = Some (Shift (op_state o)).
Proof. destruct c as [| |o']; [| |destruct o']; destruct o; vm_compute; reflexivity. Qed.

Lemma table_reduce_operator (o : binop) :
  action_at parser (ctx_expr_state (CBin o)) "$end" = Some (Reduce (binop_rule o))
  /\ List.length (rule_rhs Productions (binop_rule o)) = 3%nat
  /\ rule_name Productions (binop_rule o) = "expression".
Proof. destruct o; repeat split; vm_compute; reflexivity. Qed.

Lemma callable_operator (o : binop) (p0 l t r : value) (st : store) :
  callable (binop_rule o) [p0; l; t; r] st = Ok (binop_node o l t r) st.
Proof. destruct o; reflexivity. Qed.

Lemma callable_atom_first (a : atom) (p0 : value) (st : store) :
  callable (hd O (atom_rules a)) [p0; tok_value (atom_token a)] st
  = Ok (atom_value a) st.
Proof. destruct a; reflexivity. Qed.

Lemma frame_states_eq (frames : list frame) :
  frame_states frames = ctx_state (top_ctx frames) :: frame_tail frames.
Proof. destruct frames as [|[t|l o t] fr]; reflexivity. Qed.

Section FlatRuns.
Local Notation "'run'" := (parse_loop Productions callable p_error parser).

(** An operand: the token is shifted and reduced to an expression. *)
Lemma run_atom (c : ctx) (a : atom) (ss : list nat) (vs : list value)
      (rest : list LexToken) (log : list nat) (st : store) (fuel : nat) :
  follows_operand (lookahead_type rest) ->
  run (List.length (atom_rules a) + 1 + fuel) (ctx_state c :: ss) vs
      (atom_token a :: rest) log st
  = run fuel (ctx_expr_state c :: ctx_state c :: ss) (atom_value a :: vs) rest
        (rev (atom_rules a) ++ log) st.
Proof.
  intros Hla.
  destruct (table_goto_expression c) as [Hexpr Hbase].
  pose proof (table_reduce_atom a _ Hla) as Hred.
  pose proof (table_reduce_base_type _ Hla) as Hred5.
  pose proof (callable_atom_first a VNone st) as Hcall.
  rewrite Nat.add_comm with (m := 1%nat).
  cbn [Nat.add]. rewrite (parse_loop_shift _ _ _ _ _ _ _ _ _ (table_shift_atom c a)).
  destruct a as [s|n|x| | |]; cbn [atom_rules List.length Nat.add atom_state hd] in *;
    (erewrite parse_loop_reduce_ok;
       [| exact Hred | reflexivity | reflexivity | reflexivity | exact Hcall | reflexivity
        | first [exact Hexpr | exact Hbase] | reflexivity]);
    try reflexivity;
    (erewrite parse_loop_reduce_ok;
       [reflexivity | exact Hred5 | reflexivity | reflexivity | reflexivity | reflexivity
        | reflexivity | exact Hexpr | reflexivity]).
Qed.

(** At the end of the input the open frames are closed from the innermost
    outwards, then the statement is reduced and accepted. *)
Lemma run_unwind (frames : list frame) :
  forall (top : value) (log : list nat) (st : store) (fuel : nat),
    run (S (S (List.length frames)) + fuel)
        (ctx_expr_state (top_ctx frames) :: frame_states frames)
        (top :: frame_values frames) [] log st
    = Ok (unwind frames top, 1%nat :: rev (map frame_rule frames) ++ log) st.
Proof.
  induction frames as [|[t|l o t] fr IH]; intros top log st fuel.
  - cbn [List.length Nat.add top_ctx ctx_expr_state frame_states frame_values].
    erewrite parse_loop_reduce_ok; [| vm_compute; reflexivity ..].
    erewrite parse_loop_accept by (vm_compute; reflexivity). reflexivity.
  - cbn [List.length Nat.add top_ctx ctx_expr_state frame_states frame_values].
    erewrite parse_loop_reduce_ok;
      [| vm_compute; reflexivity | reflexivity | reflexivity | reflexivity | reflexivity
       | reflexivity
       | rewrite frame_states_eq; apply table_goto_expression | reflexivity].
    cbn [unwind map frame_rule rev]. rewrite <- app_assoc. apply IH.
  - cbn [List.length Nat.add top_ctx frame_states frame_values].
    destruct (table_reduce_operator o) as (Hact & Hlen & Hname).
    erewrite parse_loop_reduce_ok;
      [| exact Hact | exact Hlen | exact Hname | reflexivity | apply callable_operator
       | reflexivity
       | rewrite frame_states_eq; apply table_goto_expression | reflexivity].
    cbn [unwind map frame_rule rev]. rewrite <- app_assoc. apply IH.
Qed.

(** A flat expression read with some frames open: every operator is shifted,
    and all reductions of operators happen at the end of the input. *)
Lemma run_flat (e : flat) :
  forall (frames : list frame) (log : list nat) (st : store) (fuel : nat),
    run (flat_steps e + (S (S (List.length frames)) + fuel))
        (frame_states frames) (frame_values frames) (flat_tokens e) log st
    = Ok (unwind frames (flat_value e),
          1%nat :: rev (map frame_rule frames) ++ rev (flat_rules e) ++ log) st.
Proof.
  induction e as [a|lexeme e IH|a o lexeme e IH]; intros frames log st fuel.
  - cbn [flat_steps flat_tokens flat_value flat_rules].
    rewrite frame_states_eq, run_atom by (left; reflexivity).
    rewrite <- frame_states_eq. apply run_unwind.
  - cbn [flat_steps flat_tokens flat_value flat_rules Nat.add].
    rewrite frame_states_eq.
    rewrite (parse_loop_shift _ _ _ _ _ _ (kw "NOT" lexeme) _ _
               (table_shift_not (top_ctx frames))).
    rewrite <- frame_states_eq.
    replace (S (flat_steps e + S (S (List.length frames + fuel))))
      with (flat_steps e + (S (S (List.length (FNot (VStr lexeme) :: frames))) + fuel))%nat
      by (cbn [List.length]; lia).
    rewrite rev_app_distr. cbn [rev app].
    replace (rev (map frame_rule frames) ++ 21%nat :: rev (flat_rules e) ++ log)
      with (rev (map frame_rule (FNot (VStr lexeme) :: frames)) ++ rev (flat_rules e) ++ log)
      by (cbn [map frame_rule rev]; rewrite <- app_assoc; reflexivity).
    apply (IH (FNot (VStr lexeme) :: frames)).
  - cbn [flat_steps flat_tokens flat_value flat_rules].
    rewrite frame_states_eq. rewrite <- Nat.add_assoc.
    rewrite run_atom by (right; exists o; reflexivity).
    cbn [Nat.add].
    rewrite (parse_loop_shift _ _ _ _ _ _ (kw (binop_kind o) lexeme) _ _
               (table_shift_operator (top_ctx frames) o)).
    rewrite <- frame_states_eq.
    replace (S (flat_steps e + S (S (List.length frames + fuel))))
      with (flat_steps e
            + (S (S (List.length (FBin (atom_value a) o (VStr lexeme) :: frames))) + fuel))%nat
      by (cbn [List.length]; lia).
    rewrite !rev_app_distr. cbn [rev app]. rewrite <- !app_assoc.
    replace (rev (map frame_rule frames)
                 ++ binop_rule o :: rev (flat_rules e) ++ rev (atom_rules a) ++ log)
      with (rev (map frame_rule (FBin (atom_value a) o (VStr lexeme) :: frames))
                ++ rev (flat_rules e) ++ rev (atom_rules a) ++ log)
      by (cbn [map frame_rule rev]; rewrite <- app_assoc; reflexivity).
    apply (IH (FBin (atom_value a) o (VStr lexeme) :: frames)).
Qed.
End FlatRuns.

Lemma flat_rules_productions (e : flat) :
  map production (flat_rules e) = flat_reductions e.
Proof.
  induction e as [a|lexeme e IH|a o lexeme e IH]; cbn [flat_rules flat_reductions].
  - destruct a; reflexivity.
  - rewrite map_app, IH. reflexivity.
  - rewrite !map_app, IH. f_equal; [destruct a; reflexivity|].
    f_equal. destruct o; reflexivity.
Qed.

Lemma flat_steps_bound (e : flat) :
  (flat_steps e <= 3 * List.length (flat_tokens e))%nat.
Proof.
  induction e as [a|lexeme e IH|a o lexeme e IH]; cbn [flat_steps flat_tokens List.length].
  - destruct a; cbn; lia.
  - lia.
  - destruct a; cbn [atom_rules List.length]; lia.
Qed.

(** The run of the parser on a flat expression. *)
Lemma parse_from_flat (e : flat) (st : store) :
  parse_from st (flat_tokens e) = Ok (flat_value e, 1%nat :: rev (flat_rules e)) st.
Proof.
  unfold parse_from.
  destruct (fuel_split (parse_fuel (flat_tokens e)) (flat_steps e + 2)) as [extra ->].
  { unfold parse_fuel. pose proof (flat_steps_bound e). lia. }
  rewrite <- Nat.add_assoc.
  pose proof (run_flat e [] [] st extra) as H.
  cbn [unwind map rev app frame_states frame_values List.length] in H.
  rewrite app_nil_r in H. exact H.
Qed.

Lemma reductions_flat (e : flat) :
  reductions (flat_tokens e) = Some (flat_reductions e ++ [statement_production]).
Proof.
  unfold reductions. rewrite parse_from_flat. f_equal.
  cbn [rev]. rewrite rev_involutive, map_app, <- flat_rules_productions. reflexivity.
Qed.

Lemma snapshot_atom_value (n : nat) (st : store) (a : atom) :
  snapshot n st (atom_value a) = atom_value a.
Proof. destruct a, n as [|[|n]]; reflexivity. Qed.

Lemma snapshot_flat_value (e : flat) :
  forall (n : nat) (st : store), snapshot n st (flat_value e) = flat_value e.
Proof.
  induction e as [a|lexeme e IH|a o lexeme e IH]; intros n st; cbn [flat_value].
  - apply snapshot_atom_value.
  - destruct n as [|[|n]]; reflexivity.
  - destruct n as [|n]; [reflexivity|].
    destruct o; cbn [binop_node snapshot];
      rewrite ?snapshot_atom_value, ?IH, ?snapshot_flat by reflexivity; reflexivity.
Qed.

Lemma ast_flat (e : flat) : ast (parse (flat_tokens e)) = Some (flat_value e).
Proof.
  unfold parse. rewrite parse_from_flat. unfold drop_log, ast.
  rewrite snapshot_flat_value. reflexivity.
Qed.

Lemma chain_flat_tokens (rest : list chain_link) :
  forall a : atom, flat_tokens (chain_flat a rest) = chain_tokens a rest.
Proof.
  induction rest as [|[[o lexeme] b] rest IH]; intros a; [reflexivity|].
  cbn [chain_flat flat_tokens]. rewrite IH. reflexivity.
Qed.

Lemma chain_flat_value (rest : list chain_link) :
  forall a : atom, flat_value (chain_flat a rest) = chain_value a rest.
Proof.
  induction rest as [|[[o lexeme] b] rest IH]; intros a; [reflexivity|].
  cbn [chain_flat flat_value chain_value]. rewrite IH. reflexivity.
Qed.

(** C2, amended.  No precedence or associativity is declared, so a binary
    operator takes all that follows it as its right operand.  For every
    chain [a op1 b op2 c ...] of atomic operands, whatever the operators,
    the result is grouped right to left; in particular, for atomic a, b, c
    and every binary operator, [a op b op c] has a as the left child of its
    root and the node of [b op c] as the right child. *)
Theorem binary_operators_group_right :
  (forall (a : atom) (rest : list chain_link),
      ast (parse (chain_tokens a rest)) = Some (chain_value a rest))
  /\ (forall (o : binop) (lexeme : string) (a b c : atom),
        ast (parse [atom_token a; kw (binop_kind o) lexeme; atom_token b;
                    kw (binop_kind o) lexeme; atom_token c])
        = Some (binop_node o (atom_value a) (VStr lexeme)
                  (binop_node o (atom_value b) (VStr lexeme) (atom_value c)))).
Proof.
  assert (H : forall (a : atom) (rest : list chain_link),
             ast (parse (chain_tokens a rest)) = Some (chain_value a rest)).
  { intros a rest. rewrite <- chain_flat_tokens, <- chain_flat_value. apply ast_flat. }
  split; [exact H|].
  intros o lexeme a b c. exact (H a [(o, lexeme, b); (o, lexeme, c)]).
Qed.

(** C3, amended.  NOT takes the whole flat expression to its right as its
    scope: every rule of that expression is reduced before the rule of NOT,
    which is the last reduction before the statement, and the root of the
    result is a LogicalNot node.  So for [NOT a AND b] and [NOT a < b] with
    atomic a and b: the rule of AND, respectively of [<], comes before the
    rule of NOT. *)
Theorem not_scopes_over_the_rest :
  (forall (lexeme : string) (e : flat),
      reductions (kw "NOT" lexeme :: flat_tokens e)
      = Some (flat_reductions e ++ [not_production; statement_production])
      /\ exists x, ast (parse (kw "NOT" lexeme :: flat_tokens e)) = Some (VLogicalNot x))
  /\ (forall a b : atom,
        reductions [NOT; atom_token a; AND; atom_token b]
        = Some (atom_reductions a ++ atom_reductions b
                ++ [binop_production OpAnd; not_production; statement_production])
        /\ reductions [NOT; atom_token a; LT; atom_token b]
           = Some (atom_reductions a ++ atom_reductions b
                   ++ [binop_production OpLt; not_production; statement_production])).
Proof.
  assert (H : forall (lexeme : string) (e : flat),
             reductions (kw "NOT" lexeme :: flat_tokens e)
             = Some (flat_reductions e ++ [not_production; statement_production])).
  { intros lexeme e. pose proof (reductions_flat (FlatNot lexeme e)) as H.
    cbn [flat_reductions flat_tokens] in H. rewrite <- app_assoc in H. exact H. }
  split.
  - intros lexeme e. split; [apply H|].
    exists (VStr lexeme). exact (ast_flat (FlatNot lexeme e)).
  - intros a b. split.
    + pose proof (H "NOT" (FlatBin a OpAnd "AND" (FlatAtom b))) as Hand.
      cbn [flat_reductions flat_tokens] in Hand.
      rewrite <- !app_assoc in Hand. exact Hand.
    + pose proof (H "NOT" (FlatBin a OpLt "<" (FlatAtom b))) as Hlt.
      cbn [flat_reductions flat_tokens] in Hlt.
      rewrite <- !app_assoc in Hlt. exact Hlt.
Qed.

(* ===================================================================== *)
(** ** The whole expression language *)
(* ===================================================================== *)

(** What the tables say in the states of an expression. *)

Lemma follows_shared (c : ectx) (la : string) :
  follows c la -> In la closers \/ In la operators.
Proof.
  intros [H|H]; [left | right; exact H].
  unfold closes in H. destruct (entry_ctx c); [subst la; cbn; tauto | exact H].
Qed.

Lemma closes_follows (c : ectx) (la : string) : closes c la -> follows c la.
Proof. intros H. left. exact H. Qed.

Lemma operator_follows (c : ectx) (o : binop) : follows c (binop_kind o).
Proof. right. destruct o; cbn; tauto. Qed.

Ltac in_cases H :=
  unfold closers, operators in H; cbn [In] in H;
  repeat match type of H with
         | _ \/ _ => destruct H as [H|H]
         end;
  try contradiction; try subst.

(** States shared by all contexts: a complete operand is reduced whatever
    follows it. *)
Definition operand_reductions : list (nat * nat) :=
  [(5, 6); (6, 7); (10, 47); (11, 48); (12, 49); (13, 50); (14, 51); (15, 52); (16, 53);
   (19, 54); (47, 55); (78, 56); (91, 57); (65, 5); (67, 23); (82, 22)]%nat.

Lemma table_reduce_operand (s r : nat) (la : string) :
  In (s, r) operand_reductions ->
  In la closers \/ In la operators ->
  action_at parser s la = Some (Reduce r).
Proof.
  intros Hs [H|H]; unfold operand_reductions in Hs;
    in_cases Hs; inversion Hs; subst; in_cases H; vm_compute; reflexivity.
Qed.

Lemma closes_shared (c : ectx) (la : string) : closes c la -> In la closers.
Proof.
  unfold closes. destruct (entry_ctx c); [intros ->; cbn; tauto | tauto].
Qed.

Lemma table_ctx_atom (c : ectx) (a : atom) :
  action_at parser (ectx_state c) (tok_type (atom_token a))
  = Some (Shift (ectx_atom_state c a)).
Proof. destruct c as [| | |o| | | | | | | |]; [| | |destruct o| | | | | | | |]; destruct a; vm_compute; reflexivity. Qed.

Lemma table_ctx_shift (c : ectx) :
  action_at parser (ectx_state c) "STRING" = Some (Shift 19)
  /\ action_at parser (ectx_state c) "LPAREN" = Some (Shift 4)
  /\ action_at parser (ectx_state c) "NOT" = Some (Shift 7)
  /\ action_at parser (ectx_state c) "LBRACE" = Some (Shift 20)
  /\ action_at parser (ectx_state c) "SYMBOL" = Some (Shift (ectx_symbol_state c)).
Proof.
  destruct c as [| | |o| | | | | | | |]; [| | |destruct o| | | | | | | |];
    repeat split; vm_compute; reflexivity.
Qed.

Lemma table_ctx_goto (c : ectx) :
  goto_at parser (ectx_state c) "expression" = Some (ectx_expr_state c)
  /\ goto_at parser (ectx_state c) "base_type" = Some 5%nat
  /\ goto_at parser (ectx_state c) "string" = Some 10%nat
  /\ goto_at parser (ectx_state c) "map" = Some 16%nat.
Proof.
  destruct c as [| | |o| | | | | | | |]; [| | |destruct o| | | | | | | |];
    repeat split; vm_compute; reflexivity.
Qed.

Lemma table_symbol (c : ectx) (la : string) :
  follows c la -> action_at parser (ectx_symbol_state c) la = Some (Reduce 7).
Proof.
  intros [H|H].
  - unfold closes in H. unfold ectx_symbol_state.
    destruct (entry_ctx c); [subst la | in_cases H]; vm_compute; reflexivity.
  - unfold ectx_symbol_state. destruct (entry_ctx c); in_cases H; vm_compute; reflexivity.
Qed.

Lemma table_symbol_call (c : ectx) :
  action_at parser (ectx_symbol_state c) "LPAREN" = Some (Shift 35).
Proof. unfold ectx_symbol_state. destruct (entry_ctx c); vm_compute; reflexivity. Qed.

(** The shift is preferred: after an operand, wherever it stands, a binary
    operator is shifted. *)
Lemma table_expr_operator (c : ectx) (o : binop) :
  action_at parser (ectx_expr_state c) (binop_kind o) = Some (Shift (op_state o)).
Proof.
  destruct c as [| | |o'| | | | | | | |]; [| | |destruct o'| | | | | | | |];
    destruct o; vm_compute; reflexivity.
Qed.

Lemma table_reduce_binop (o : binop) (la : string) :
  In la closers ->
  action_at parser (31 + op_state o) la = Some (Reduce (binop_rule o)).
Proof. intros H. in_cases H; destruct o; vm_compute; reflexivity. Qed.

Lemma table_binop_rule (o : binop) :
  List.length (rule_rhs Productions (binop_rule o)) = 3%nat
  /\ rule_name Productions (binop_rule o) = "expression".
Proof. destruct o; split; vm_compute; reflexivity. Qed.

Lemma table_reduce_not (la : string) :
  In la closers -> action_at parser 36 la = Some (Reduce 21).
Proof. intros H. in_cases H; vm_compute; reflexivity. Qed.

Lemma table_args (la : string) :
  la = "RPAREN" \/ la = "COMMA" ->
  action_at parser 68 la = Some (Reduce 24) /\ action_at parser 95 la = Some (Reduce 25).
Proof. intros [->| ->]; split; vm_compute; reflexivity. Qed.

Lemma table_entry (la : string) :
  closes_entry_la la ->
  action_at parser 93 la = Some (Reduce 26)
  /\ action_at parser 94 la = Some (Reduce 27)
  /\ action_at parser 49 la = Some (Reduce 28)
  /\ action_at parser 92 la = Some (Reduce 29).
Proof.
  intros H. unfold closes_entry_la in H. in_cases H; repeat split; vm_compute; reflexivity.
Qed.

Lemma table_entry_goto (c : ectx) :
  entry_ctx c = true ->
  goto_at parser (ectx_state c) "named_expression" = Some (ectx_entry_state c).
Proof. destruct c; intros H; try discriminate H; vm_compute; reflexivity. Qed.

(** The actions on the cells an expression creates. *)

Lemma lookup_cell (pre more : store) (x : value) :
  (pre ++ x :: more) !! List.length pre = Some x.
Proof. apply list_lookup_middle. reflexivity. Qed.

Lemma insert_cell (pre more : store) (x y : value) :
  <[List.length pre := y]> (pre ++ x :: more) = pre ++ y :: more.
Proof.
  rewrite insert_app_r_alt by reflexivity. rewrite Nat.sub_diag. reflexivity.
Qed.

Lemma append_cell (pre more : store) (acc : list value) (x : value) :
  append (VRef (List.length pre)) x (pre ++ VList acc :: more)
  = Ok tt (pre ++ VList (acc ++ [x]) :: more).
Proof. unfold append. rewrite lookup_cell, insert_cell. reflexivity. Qed.

Lemma is_quote_quote_char (q : quote) : is_quote (quote_char q) = true.
Proof. destruct q; reflexivity. Qed.

Lemma callable_string (p0 : value) (q : quote) (body : string) (st : store) :
  callable 54 [p0; tok_value (STRING (quoted q body))] st = Ok (VStr body) st.
Proof. apply p_string_quoted, is_quote_quote_char. Qed.

Lemma callable_call0 (p0 f lp rp : value) (st : store) :
  callable 23 [p0; f; lp; rp] st
  = Ok (VFunctionCall f (VRef (List.length st))) (st ++ [VList []]).
Proof. reflexivity. Qed.

Lemma callable_call (p0 f lp args rp : value) (st : store) :
  callable 22 [p0; f; lp; args; rp] st = Ok (VFunctionCall f args) st.
Proof. reflexivity. Qed.

Lemma callable_list_one (p0 v : value) (st : store) :
  callable 24 [p0; v] st = Ok (VRef (List.length st)) (st ++ [VList [v]]).
Proof. reflexivity. Qed.

Lemma callable_list_append (p0 k v : value) (pre more : store) (acc : list value) :
  callable 25 [p0; VRef (List.length pre); k; v] (pre ++ VList acc :: more)
  = Ok (VRef (List.length pre)) (pre ++ VList (acc ++ [v]) :: more).
Proof.
  change (callable 25) with p_expression_list.
  unfold p_expression_list, bind, getitem. cbn [lookup list_lookup ret].
  rewrite append_cell. reflexivity.
Qed.

Lemma callable_entries_one (p0 n e : value) (st : store) :
  callable 28 [p0; VNamedExpression n e] st
  = Ok (VRef (List.length st)) (st ++ [VList [VNamedExpression n e]]).
Proof. reflexivity. Qed.

Lemma callable_entries_append (p0 k n e : value) (pre more : store) (acc : list value) :
  callable 29 [p0; VRef (List.length pre); k; VNamedExpression n e] (pre ++ VList acc :: more)
  = Ok (VRef (List.length pre)) (pre ++ VList (acc ++ [VNamedExpression n e]) :: more).
Proof.
  change (callable 29) with p_named_expression_list.
  unfold p_named_expression_list, bind, getitem. cbn [lookup list_lookup ret].
  cbn [is_named_expression assert ret].
  rewrite append_cell. reflexivity.
Qed.

(** [p_map] on a list of named tuples: the pairs, in the order of the
    list. *)
Lemma for_each_named_pairs (items : list value) (st : store) :
  forallb is_named_expression items = true ->
  for_each (fun i => n <- getattr_name i ;; e <- getattr_expression i ;; ret (VTuple [n; e]))
           items st
  = Ok (map named_pair items) st.
Proof.
  induction items as [|[] items IH]; intros H; try discriminate H; [reflexivity|].
  cbn [forallb is_named_expression andb] in H.
  specialize (IH H). cbn [for_each]. unfold bind in *.
  cbn [getattr_name getattr_expression ret]. rewrite IH. reflexivity.
Qed.

Lemma p_map_named (p0 lb : value) (tail : list value) (pre more : store)
      (items : list value) :
  forallb is_named_expression items = true ->
  p_map (p0 :: lb :: VRef (List.length pre) :: tail) (pre ++ VList items :: more)
  = Ok (VMap (map named_pair items)) (pre ++ VList items :: more).
Proof.
  intros H. unfold p_map, bind, getitem. cbn [lookup list_lookup ret].
  unfold iter, bind, load, deref. rewrite lookup_cell. cbn [ret].
  rewrite (for_each_named_pairs _ _ H). reflexivity.
Qed.

(** Steps of the driver with the table facts given by lemmas. *)
Ltac sh tac := erewrite parse_loop_shift; [| tac].
Ltac rd tact tacc tacg :=
  erewrite parse_loop_reduce_ok;
  [| tact | vm_compute; reflexivity | vm_compute; reflexivity
   | cbn [firstn rev app]; reflexivity | tacc | cbn [skipn]; reflexivity | tacg
   | cbn [skipn]; reflexivity].
Ltac shared s r H :=
  apply (table_reduce_operand s r); [unfold operand_reductions; cbn [In]; tauto | exact H].
Ltac look := vm_compute; reflexivity.

Section ExprRuns.
Local Notation "'run'" := (parse_loop Productions callable p_error parser).

Lemma reads_PAtom (a : atom) : reads_operand (PAtom a).
Proof.
  intros c ss vs rest log log' st fuel Hla.
  destruct (table_ctx_goto c) as (Hexpr & Hbase & _ & _).
  pose proof (follows_shared _ _ Hla) as Hsh.
  cbn [operand_tokens operand_out fst snd app]. rewrite app_nil_r.
  destruct a as [s|n|x| | |]; cbn [operand_steps atom_rules List.length Nat.add];
    (sh ltac:(apply table_ctx_atom)).
  - rd ltac:(apply table_symbol; exact Hla) ltac:(reflexivity) ltac:(exact Hexpr).
    apply run_log_irrelevant.
  - rd ltac:(shared 11%nat 48%nat Hsh) ltac:(reflexivity) ltac:(exact Hbase).
    rd ltac:(shared 5%nat 6%nat Hsh) ltac:(reflexivity) ltac:(exact Hexpr).
    apply run_log_irrelevant.
  - rd ltac:(shared 12%nat 49%nat Hsh) ltac:(reflexivity) ltac:(exact Hbase).
    rd ltac:(shared 5%nat 6%nat Hsh) ltac:(reflexivity) ltac:(exact Hexpr).
    apply run_log_irrelevant.
  - rd ltac:(shared 13%nat 50%nat Hsh) ltac:(reflexivity) ltac:(exact Hbase).
    rd ltac:(shared 5%nat 6%nat Hsh) ltac:(reflexivity) ltac:(exact Hexpr).
    apply run_log_irrelevant.
  - rd ltac:(shared 14%nat 51%nat Hsh) ltac:(reflexivity) ltac:(exact Hbase).
    rd ltac:(shared 5%nat 6%nat Hsh) ltac:(reflexivity) ltac:(exact Hexpr).
    apply run_log_irrelevant.
  - rd ltac:(shared 15%nat 52%nat Hsh) ltac:(reflexivity) ltac:(exact Hbase).
    rd ltac:(shared 5%nat 6%nat Hsh) ltac:(reflexivity) ltac:(exact Hexpr).
    apply run_log_irrelevant.
Qed.

Lemma reads_PString (q : quote) (body : string) : reads_operand (PString q body).
Proof.
  intros c ss vs rest log log' st fuel Hla.
  destruct (table_ctx_goto c) as (Hexpr & Hbase & Hstr & _).
  destruct (table_ctx_shift c) as (Hs & _).
  pose proof (follows_shared _ _ Hla) as Hsh.
  cbn [operand_tokens operand_out operand_steps fst snd app Nat.add]. rewrite app_nil_r.
  sh ltac:(exact Hs).
  rd ltac:(shared 19%nat 54%nat Hsh) ltac:(apply callable_string) ltac:(exact Hstr).
  rd ltac:(shared 10%nat 47%nat Hsh) ltac:(reflexivity) ltac:(exact Hbase).
  rd ltac:(shared 5%nat 6%nat Hsh) ltac:(reflexivity) ltac:(exact Hexpr).
  apply run_log_irrelevant.
Qed.

Lemma reads_PParen (e : expr) : reads_expr e -> reads_operand (PParen e).
Proof.
  intros IH c ss vs rest log log' st fuel Hla.
  destruct (table_ctx_goto c) as (Hexpr & _).
  destruct (table_ctx_shift c) as (_ & Hs & _).
  pose proof (follows_shared _ _ Hla) as Hsh.
  cbn [operand_tokens operand_out operand_steps fst snd app Nat.add].
  sh ltac:(exact Hs).
  rewrite <- app_assoc, <- Nat.add_assoc. cbn [app].
  rewrite (IH XParen _ _ _ _ [] _ _) by (cbn; tauto).
  cbn [Nat.add ectx_state ectx_expr_state].
  sh look.
  rd ltac:(shared 65%nat 5%nat Hsh) ltac:(reflexivity) ltac:(exact Hexpr).
  apply run_log_irrelevant.
Qed.

Lemma reads_PCall0 (f : string) : reads_operand (PCall0 f).
Proof.
  intros c ss vs rest log log' st fuel Hla.
  destruct (table_ctx_goto c) as (Hexpr & _).
  destruct (table_ctx_shift c) as (_ & _ & _ & _ & Hs).
  pose proof (follows_shared _ _ Hla) as Hsh.
  cbn [operand_tokens operand_out operand_steps fst snd app Nat.add].
  sh ltac:(exact Hs).
  sh ltac:(apply table_symbol_call).
  sh look.
  rd ltac:(shared 67%nat 23%nat Hsh) ltac:(apply callable_call0) ltac:(exact Hexpr).
  apply run_log_irrelevant.
Qed.

Lemma reads_PMap0 : reads_operand PMap0.
Proof.
  intros c ss vs rest log log' st fuel Hla.
  destruct (table_ctx_goto c) as (Hexpr & Hbase & _ & Hmap).
  destruct (table_ctx_shift c) as (_ & _ & _ & Hs & _).
  pose proof (follows_shared _ _ Hla) as Hsh.
  cbn [operand_tokens operand_out operand_steps fst snd app Nat.add]. rewrite app_nil_r.
  sh ltac:(exact Hs).
  sh look.
  rd ltac:(shared 47%nat 55%nat Hsh) ltac:(reflexivity) ltac:(exact Hmap).
  rd ltac:(shared 16%nat 53%nat Hsh) ltac:(reflexivity) ltac:(exact Hbase).
  rd ltac:(shared 5%nat 6%nat Hsh) ltac:(reflexivity) ltac:(exact Hexpr).
  apply run_log_irrelevant.
Qed.

Lemma reads_EOperand (p : operand) : reads_operand p -> reads_expr (EOperand p).
Proof.
  intros IH c ss vs rest log log' st fuel Hla.
  apply IH. apply closes_follows. exact Hla.
Qed.

Lemma reads_ENot (lexeme : string) (e : expr) : reads_expr e -> reads_expr (ENot lexeme e).
Proof.
  intros IH c ss vs rest log log' st fuel Hla.
  destruct (table_ctx_goto c) as (Hexpr & _).
  destruct (table_ctx_shift c) as (_ & _ & Hs & _).
  pose proof (closes_shared _ _ Hla) as Hsh.
  cbn [expr_tokens expr_out expr_steps fst snd app Nat.add].
  sh ltac:(exact Hs).
  rewrite <- Nat.add_assoc.
  rewrite (IH XNot _ _ _ _ [] _ _) by exact Hsh.
  cbn [Nat.add ectx_state ectx_expr_state].
  rd ltac:(apply table_reduce_not; exact Hsh) ltac:(reflexivity) ltac:(exact Hexpr).
  apply run_log_irrelevant.
Qed.

Lemma reads_EBin (p : operand) (o : binop) (lexeme : string) (e : expr) :
  reads_operand p -> reads_expr e -> reads_expr (EBin p o lexeme e).
Proof.
  intros IHp IHe c ss vs rest log log' st fuel Hla.
  destruct (table_ctx_goto c) as (Hexpr & _).
  destruct (table_binop_rule o) as (Hlen & Hname).
  pose proof (closes_shared _ _ Hla) as Hsh.
  cbn [expr_tokens expr_out expr_steps fst snd].
  rewrite <- app_assoc, <- Nat.add_assoc. cbn [app].
  rewrite (IHp c _ _ _ _ [] _ _) by apply operator_follows.
  cbn [Nat.add].
  sh ltac:(apply table_expr_operator).
  rewrite <- Nat.add_assoc.
  rewrite (IHe (XBin o) _ _ _ _ [] _ _) by exact Hsh.
  cbn [Nat.add ectx_state ectx_expr_state].
  erewrite parse_loop_reduce_ok;
    [| apply table_reduce_binop; exact Hsh | exact Hlen | exact Hname | reflexivity
     | apply callable_operator | reflexivity | exact Hexpr | reflexivity].
  rewrite length_app, app_assoc.
  apply run_log_irrelevant.
Qed.

Lemma exprs_lookahead (es : exprs) (rest : list LexToken) :
  lookahead_type (exprs_tokens es ++ RPAREN :: rest) = "RPAREN"
  \/ lookahead_type (exprs_tokens es ++ RPAREN :: rest) = "COMMA".
Proof. destruct es; [left | right]; reflexivity. Qed.

Lemma reads_ENil : reads_exprs ENil.
Proof.
  intros ss vs rest log log' pre more acc fuel.
  cbn [exprs_tokens exprs_out exprs_steps fst snd app Nat.add].
  rewrite !app_nil_r. apply run_log_irrelevant.
Qed.

Lemma reads_ECons (e : expr) (es : exprs) :
  reads_expr e -> reads_exprs es -> reads_exprs (ECons e es).
Proof.
  intros IHe IHes ss vs rest log log' pre more acc fuel.
  cbn [exprs_tokens exprs_out exprs_steps fst snd app Nat.add].
  sh look.
  rewrite <- app_assoc, <- Nat.add_assoc.
  rewrite (IHe XArg _ _ _ _ [] _ _)
    by (destruct (exprs_lookahead es rest) as [-> | ->]; cbn; tauto).
  cbn [Nat.add ectx_state ectx_expr_state].
  rewrite <- app_assoc. cbn [app].
  rd ltac:(apply table_args, exprs_lookahead) ltac:(apply callable_list_append) look.
  rewrite length_app. cbn [List.length].
  rewrite (IHes _ _ _ _ log' pre _ _ _).
  set (b := (List.length pre + S (List.length more))%nat).
  replace (List.length pre + S (List.length (more ++ snd (expr_out b e))))%nat
    with (b + List.length (snd (expr_out b e)))%nat
    by (subst b; rewrite length_app; lia).
  rewrite <- !app_assoc. reflexivity.
Qed.

Lemma reads_PCall (f : string) (e : expr) (es : exprs) :
  reads_expr e -> reads_exprs es -> reads_operand (PCall f e es).
Proof.
  intros IHe IHes c ss vs rest log log' st fuel Hla.
  destruct (table_ctx_goto c) as (Hexpr & _).
  destruct (table_ctx_shift c) as (_ & _ & _ & _ & Hs).
  pose proof (follows_shared _ _ Hla) as Hsh.
  cbn [operand_tokens operand_out operand_steps fst snd app Nat.add].
  sh ltac:(exact Hs).
  sh ltac:(apply table_symbol_call).
  rewrite <- !app_assoc, <- Nat.add_assoc. cbn [app].
  rewrite (IHe XCall _ _ _ _ [] _ _)
    by (destruct (exprs_lookahead es rest) as [-> | ->]; cbn; tauto).
  cbn [Nat.add ectx_state ectx_expr_state].
  rd ltac:(apply table_args, exprs_lookahead) ltac:(apply callable_list_one) look.
  rewrite <- Nat.add_assoc.
  rewrite (IHes _ _ _ _ [] (st ++ snd (expr_out (List.length st) e)) [] _ _).
  cbn [Nat.add].
  sh look.
  rd ltac:(shared 82%nat 22%nat Hsh) ltac:(apply callable_call) ltac:(exact Hexpr).
  rewrite !length_app, <- !app_assoc. cbn [List.length app Nat.add].
  rewrite Nat.add_1_r.
  apply run_log_irrelevant.
Qed.

Lemma closes_entry_shared (la : string) : closes_entry_la la -> In la closers.
Proof. unfold closes_entry_la. intros H. in_cases H; cbn; tauto. Qed.

Lemma nentry_out_named (b : nat) (x : nentry) :
  exists n v, fst (nentry_out b x) = VNamedExpression n v.
Proof. destruct x; cbn; eauto. Qed.

Lemma nentries_out_named (xs : nentries) :
  forall b : nat, forallb is_named_expression (fst (nentries_out b xs)) = true.
Proof.
  induction xs as [|x xs IH]; intros b; [reflexivity|].
  cbn [nentries_out fst forallb]. rewrite IH.
  destruct (nentry_out_named b x) as (n & v & ->). reflexivity.
Qed.

Lemma nentries_lookahead (xs : nentries) (rest : list LexToken) :
  closes_entry_la (lookahead_type rest) ->
  closes_entry_la (lookahead_type (nentries_tokens xs ++ rest)).
Proof. destruct xs; [tauto | intros _; cbn; tauto]. Qed.

Lemma reads_NEqual (n : string) (e : expr) : reads_expr e -> reads_nentry (NEqual n e).
Proof.
  intros IH c ss vs rest log log' st fuel Hc Hla.
  pose proof (table_entry_goto c Hc) as Hgoto.
  destruct (table_ctx_shift c) as (_ & _ & _ & _ & Hs).
  destruct (table_entry _ Hla) as (_ & Hred & _).
  unfold ectx_symbol_state in Hs. rewrite Hc in Hs.
  cbn [nentry_tokens nentry_out nentry_steps fst snd app Nat.add].
  sh ltac:(exact Hs).
  sh look.
  rewrite <- Nat.add_assoc.
  rewrite (IH XEqual _ _ _ _ [] _ _) by (apply closes_entry_shared; exact Hla).
  cbn [Nat.add ectx_state ectx_expr_state].
  rd ltac:(exact Hred) ltac:(reflexivity) ltac:(exact Hgoto).
  apply run_log_irrelevant.
Qed.

Lemma reads_NAs (e : expr) (n : string) : reads_expr e -> reads_nentry (NAs e n).
Proof.
  intros IH c ss vs rest log log' st fuel Hc Hla.
  pose proof (table_entry_goto c Hc) as Hgoto.
  destruct (table_entry _ Hla) as (Hred & _).
  cbn [nentry_tokens nentry_out nentry_steps fst snd].
  rewrite <- app_assoc, <- Nat.add_assoc. cbn [app].
  rewrite (IH c _ _ _ _ [] _ _) by (unfold closes; rewrite Hc; reflexivity).
  replace (ectx_expr_state c) with 50%nat by (destruct c; try discriminate Hc; reflexivity).
  cbn [Nat.add].
  sh look. sh look.
  rd ltac:(exact Hred) ltac:(reflexivity) ltac:(exact Hgoto).
  apply run_log_irrelevant.
Qed.

Lemma reads_NNil : reads_nentries NNil.
Proof.
  intros h ss vs rest log log' pre more acc fuel Hla.
  cbn [nentries_tokens nentries_out nentries_steps fst snd app Nat.add].
  rewrite !app_nil_r. apply run_log_irrelevant.
Qed.

Lemma table_holder (h : holder) :
  action_at parser (holder_list_state h) "COMMA" = Some (Shift (ectx_state (holder_next h)))
  /\ goto_at parser (holder_state h) "named_expression_list" = Some (holder_list_state h).
Proof. destruct h; split; vm_compute; reflexivity. Qed.

Lemma reads_NCons (x : nentry) (xs : nentries) :
  reads_nentry x -> reads_nentries xs -> reads_nentries (NCons x xs).
Proof.
  intros IHx IHxs h ss vs rest log log' pre more acc fuel Hla.
  pose proof (nentries_lookahead xs rest Hla) as Hla'.
  destruct (table_entry _ Hla') as (_ & _ & _ & Hred).
  cbn [nentries_tokens nentries_out nentries_steps fst snd app Nat.add].
  destruct (table_holder h) as (Hcomma & Hlist).
  sh ltac:(exact Hcomma).
  rewrite <- app_assoc, <- Nat.add_assoc.
  rewrite (IHx (holder_next h) _ _ _ _ [] _ _)
    by (first [destruct h; reflexivity | exact Hla']).
  replace (ectx_entry_state (holder_next h)) with 92%nat by (destruct h; reflexivity).
  cbn [Nat.add].
  rewrite <- app_assoc. cbn [app].
  rewrite length_app. cbn [List.length].
  set (b := (List.length pre + S (List.length more))%nat).
  destruct (nentry_out_named b x) as (n & v & Hn). rewrite Hn.
  rd ltac:(exact Hred) ltac:(apply callable_entries_append) ltac:(exact Hlist).
  rewrite (IHxs h _ _ _ _ log' pre _ _ _ Hla).
  replace (List.length pre + S (List.length (more ++ snd (nentry_out b x))))%nat
    with (b + List.length (snd (nentry_out b x)))%nat
    by (subst b; rewrite length_app; lia).
  rewrite <- !app_assoc. reflexivity.
Qed.

Lemma reads_PMap (x : nentry) (xs : nentries) (comma : bool) :
  reads_nentry x -> reads_nentries xs -> reads_operand (PMap x xs comma).
Proof.
  intros IHx IHxs c ss vs rest log log' st fuel Hla.
  destruct (table_ctx_goto c) as (Hexpr & Hbase & _ & Hmap).
  destruct (table_ctx_shift c) as (_ & _ & _ & Hs & _).
  pose proof (follows_shared _ _ Hla) as Hsh.
  assert (Hclose : closes_entry_la
                     (lookahead_type ((if comma then [COMMA; RBRACE] else [RBRACE]) ++ rest)))
    by (destruct comma; cbn; tauto).
  pose proof (nentries_lookahead xs _ Hclose) as Hla'.
  destruct (table_entry _ Hla') as (_ & _ & Hred & _).
  cbn [operand_tokens operand_out operand_steps fst snd app Nat.add].
  sh ltac:(exact Hs).
  rewrite <- !app_assoc, <- Nat.add_assoc.
  rewrite (IHx XMap _ _ _ _ [] _ _) by (first [reflexivity | exact Hla']).
  cbn [Nat.add ectx_state ectx_entry_state].
  destruct (nentry_out_named (List.length st) x) as (n & v & Hn). rewrite Hn.
  rd ltac:(exact Hred) ltac:(apply callable_entries_one) look.
  rewrite <- Nat.add_assoc.
  rewrite (IHxs InMap _ _ _ _ [] (st ++ snd (nentry_out (List.length st) x)) [] _ _ Hclose).
  pose proof (nentries_out_named xs
                (List.length (st ++ snd (nentry_out (List.length st) x)) + 1)) as Hnamed.
  cbn [app List.length]. cbn [app List.length] in Hnamed.
  destruct comma; cbn [Nat.add app].
  - sh look. sh look.
    erewrite parse_loop_reduce_ok;
      [| shared 91%nat 57%nat Hsh | vm_compute; reflexivity | vm_compute; reflexivity
       | cbn [firstn rev app]; reflexivity
       | change (callable 57) with p_map; apply p_map_named;
         cbn [forallb is_named_expression andb]; exact Hnamed
       | cbn [skipn]; reflexivity | exact Hmap | cbn [skipn]; reflexivity].
    rd ltac:(shared 16%nat 53%nat Hsh) ltac:(reflexivity) ltac:(exact Hbase).
    rd ltac:(shared 5%nat 6%nat Hsh) ltac:(reflexivity) ltac:(exact Hexpr).
    rewrite !length_app, <- !app_assoc, <- Hn. cbn [List.length app Nat.add].
    rewrite Nat.add_1_r.
    apply run_log_irrelevant.
  - sh look.
    erewrite parse_loop_reduce_ok;
      [| shared 78%nat 56%nat Hsh | vm_compute; reflexivity | vm_compute; reflexivity
       | cbn [firstn rev app]; reflexivity
       | change (callable 56) with p_map; apply p_map_named;
         cbn [forallb is_named_expression andb]; exact Hnamed
       | cbn [skipn]; reflexivity | exact Hmap | cbn [skipn]; reflexivity].
    rd ltac:(shared 16%nat 53%nat Hsh) ltac:(reflexivity) ltac:(exact Hbase).
    rd ltac:(shared 5%nat 6%nat Hsh) ltac:(reflexivity) ltac:(exact Hexpr).
    rewrite !length_app, <- !app_assoc, <- Hn. cbn [List.length app Nat.add].
    rewrite Nat.add_1_r.
    apply run_log_irrelevant.
Qed.

(** The driver reads every expression of the language. *)
Lemma reads_syntax :
  (forall p, reads_operand p) /\ (forall e, reads_expr e) /\ (forall es, reads_exprs es)
  /\ (forall x, reads_nentry x) /\ (forall xs, reads_nentries xs).
Proof.
  apply syntax_mutind; intros;
    first [ apply reads_PAtom | apply reads_PString | apply reads_PParen
          | apply reads_PCall0 | apply reads_PCall | apply reads_PMap0 | apply reads_PMap
          | apply reads_EOperand | apply reads_ENot | apply reads_EBin
          | apply reads_ENil | apply reads_ECons | apply reads_NEqual | apply reads_NAs
          | apply reads_NNil | apply reads_NCons ]; assumption.
Qed.
End ExprRuns.

(** The trees of the values. *)

Lemma snapshot_str (n : nat) (st : store) (s : string) : snapshot n st (VStr s) = VStr s.
Proof. destruct n; reflexivity. Qed.

Lemma snapshot_binop_node (n : nat) (st : store) (o : binop) (a l b : value) :
  snapshot (S n) st (binop_node o a l b)
  = binop_node o (snapshot n st a) (snapshot n st l) (snapshot n st b).
Proof. destruct o; reflexivity. Qed.

Lemma app_shift {A : Type} (pre a b post : list A) :
  pre ++ (a ++ b) ++ post = (pre ++ a) ++ b ++ post.
Proof. rewrite <- !app_assoc. reflexivity. Qed.

Lemma shows_PAtom (a : atom) : shows_operand (PAtom a).
Proof. intros pre post n _. apply snapshot_atom_value. Qed.

Lemma shows_PString (q : quote) (body : string) : shows_operand (PString q body).
Proof. intros pre post n _. apply snapshot_str. Qed.

Lemma shows_PCall0 (f : string) : shows_operand (PCall0 f).
Proof.
  intros pre post n Hn. cbn [operand_depth] in Hn.
  destruct n as [|[|n]]; [lia | lia |].
  cbn [operand_out operand_tree fst snd].
  change (snapshot (S (S n)) ?st (VFunctionCall ?f ?a))
    with (VFunctionCall (snapshot (S n) st f) (snapshot (S n) st a)).
  rewrite snapshot_str.
  erewrite snapshot_ref by (apply lookup_cell).
  destruct n; reflexivity.
Qed.

Lemma shows_PMap0 : shows_operand PMap0.
Proof. intros pre post n _. destruct n; reflexivity. Qed.

Lemma shows_ENot (lexeme : string) (e : expr) : shows_expr (ENot lexeme e).
Proof. intros pre post n _. destruct n as [|[|n]]; reflexivity. Qed.

Lemma shows_EBin (p : operand) (o : binop) (lexeme : string) (e : expr) :
  shows_operand p -> shows_expr e -> shows_expr (EBin p o lexeme e).
Proof.
  intros IHp IHe pre post n Hn. cbn [expr_depth] in Hn.
  destruct n as [|n]; [lia|].
  cbn [expr_out expr_tree fst snd].
  rewrite snapshot_binop_node, snapshot_str. f_equal.
  - rewrite <- app_assoc. apply IHp. lia.
  - rewrite <- (length_app pre), app_shift. apply IHe. lia.
Qed.

Lemma shows_ENil : shows_exprs ENil.
Proof. intros pre post n _. reflexivity. Qed.

Lemma shows_ECons (e : expr) (es : exprs) :
  shows_expr e -> shows_exprs es -> shows_exprs (ECons e es).
Proof.
  intros IHe IHes pre post n Hn. cbn [exprs_depth] in Hn.
  cbn [exprs_out exprs_trees fst snd map]. f_equal.
  - rewrite <- app_assoc. apply IHe. lia.
  - rewrite <- (length_app pre), app_shift. apply IHes. lia.
Qed.

Lemma shows_PCall (f : string) (e : expr) (es : exprs) :
  shows_expr e -> shows_exprs es -> shows_operand (PCall f e es).
Proof.
  intros IHe IHes pre post n Hn. cbn [operand_depth] in Hn.
  destruct n as [|[|[|n]]]; [lia | lia | lia |].
  cbn [operand_out operand_tree fst snd].
  change (snapshot (S (S (S n))) ?st (VFunctionCall ?g ?a))
    with (VFunctionCall (snapshot (S (S n)) st g) (snapshot (S (S n)) st a)).
  rewrite snapshot_str. f_equal.
  rewrite <- (length_app pre).
  erewrite snapshot_ref
    by (rewrite <- app_assoc, app_assoc; cbn [app]; apply lookup_cell).
  rewrite snapshot_list. f_equal. cbn [map]. f_equal.
  - rewrite <- app_assoc. apply IHe. lia.
  - pose proof (IHes (pre ++ snd (expr_out (List.length pre) e)
                          ++ [VList (fst (expr_out (List.length pre) e)
                                     :: fst (exprs_out
                                               (S (List.length
                                                     (pre ++ snd (expr_out (List.length pre) e))))
                                               es))])
                     post n) as H.
    rewrite !length_app in H. cbn [List.length] in H.
    rewrite Nat.add_assoc, Nat.add_1_r in H.
    rewrite length_app.
    rewrite <- !app_assoc in H. cbn [app] in H. rewrite <- !app_assoc. cbn [app].
    apply H. lia.
Qed.

Lemma shows_NEqual (n : string) (e : expr) : shows_expr e -> shows_nentry (NEqual n e).
Proof.
  intros IHe pre post k Hk. cbn [nentry_depth] in Hk.
  destruct k as [|k]; [lia|].
  cbn [nentry_out nentry_tree named_pair fst snd].
  change (snapshot (S k) ?st (VTuple ?l)) with (VTuple (map (snapshot k st) l)).
  cbn [map]. rewrite snapshot_str, IHe by lia. reflexivity.
Qed.

Lemma shows_NAs (e : expr) (n : string) : shows_expr e -> shows_nentry (NAs e n).
Proof.
  intros IHe pre post k Hk. cbn [nentry_depth] in Hk.
  destruct k as [|k]; [lia|].
  cbn [nentry_out nentry_tree named_pair fst snd].
  change (snapshot (S k) ?st (VTuple ?l)) with (VTuple (map (snapshot k st) l)).
  cbn [map]. rewrite snapshot_str, IHe by lia. reflexivity.
Qed.

Lemma shows_NNil : shows_nentries NNil.
Proof. intros pre post n _. reflexivity. Qed.

Lemma shows_NCons (x : nentry) (xs : nentries) :
  shows_nentry x -> shows_nentries xs -> shows_nentries (NCons x xs).
Proof.
  intros IHx IHxs pre post n Hn. cbn [nentries_depth] in Hn.
  cbn [nentries_out nentries_trees fst snd map]. f_equal.
  - rewrite <- app_assoc. apply IHx. lia.
  - rewrite <- (length_app pre), app_shift. apply IHxs. lia.
Qed.

Lemma shows_PMap (x : nentry) (xs : nentries) (comma : bool) :
  shows_nentry x -> shows_nentries xs -> shows_operand (PMap x xs comma).
Proof.
  intros IHx IHxs pre post n Hn. cbn [operand_depth] in Hn.
  destruct n as [|n]; [lia|].
  cbn [operand_out operand_tree fst snd].
  rewrite snapshot_map. f_equal. cbn [map]. f_equal.
  - rewrite <- app_assoc. apply IHx. lia.
  - pose proof (IHxs (pre ++ snd (nentry_out (List.length pre) x)
                          ++ [VList (fst (nentry_out (List.length pre) x)
                                     :: fst (nentries_out
                                               (S (List.length
                                                     (pre ++ snd (nentry_out (List.length pre) x))))
                                               xs))])
                     post n) as H.
    rewrite !length_app in H. cbn [List.length] in H.
    rewrite Nat.add_assoc, Nat.add_1_r in H.
    rewrite <- !app_assoc in H. cbn [app] in H. rewrite <- !app_assoc. cbn [app].
    apply H. lia.
Qed.

Lemma shows_syntax :
  (forall p, shows_operand p) /\ (forall e, shows_expr e) /\ (forall es, shows_exprs es)
  /\ (forall x, shows_nentry x) /\ (forall xs, shows_nentries xs).
Proof.
  apply syntax_mutind; intros;
    first [ apply shows_PAtom | apply shows_PString | assumption
          | apply shows_PCall0 | apply shows_PCall | apply shows_PMap0 | apply shows_PMap
          | apply shows_ENot | apply shows_EBin
          | apply shows_ENil | apply shows_ECons | apply shows_NEqual | apply shows_NAs
          | apply shows_NNil | apply shows_NCons ]; assumption.
Qed.

Lemma syntax_steps_bound :
  (forall p, operand_steps p <= 4 * List.length (operand_tokens p))%nat
  /\ (forall e, expr_steps e <= 4 * List.length (expr_tokens e))%nat
  /\ (forall es, exprs_steps es <= 4 * List.length (exprs_tokens es))%nat
  /\ (forall x, nentry_steps x <= 4 * List.length (nentry_tokens x))%nat
  /\ (forall xs, nentries_steps xs <= 4 * List.length (nentries_tokens xs))%nat.
Proof.
  apply syntax_mutind; intros;
    cbn [operand_steps expr_steps exprs_steps nentry_steps nentries_steps
         operand_tokens expr_tokens exprs_tokens nentry_tokens nentries_tokens];
    cbn [List.length]; rewrite ?length_app; cbn [List.length]; rewrite ?length_app;
    try lia.
  - destruct a; cbn; lia.
  - destruct comma; cbn [List.length]; lia.
Qed.

(** A statement that is one expression: the value and the cells of the
    expression, read with an empty store. *)
Lemma parse_expr (e : expr) :
  parse (expr_tokens e) = Ok (fst (expr_out 0 e)) (snd (expr_out 0 e)).
Proof.
  unfold parse, parse_from.
  destruct (fuel_split (parse_fuel (expr_tokens e)) (expr_steps e + 2)) as [extra ->].
  { unfold parse_fuel. destruct syntax_steps_bound as (_ & H & _). specialize (H e). lia. }
  destruct reads_syntax as (_ & H & _).
  rewrite <- Nat.add_assoc.
  pose proof (H e XStart [] [VNone] [] [] [] [] (2 + extra)%nat) as Hr.
  cbn [ectx_state ectx_expr_state List.length app] in Hr.
  rewrite app_nil_r in Hr. rewrite Hr by (cbn; tauto). clear Hr.
  cbn [Nat.add].
  erewrite parse_loop_reduce_ok; [| vm_compute; reflexivity | vm_compute; reflexivity
    | vm_compute; reflexivity | cbn [firstn rev app]; reflexivity | reflexivity
    | cbn [skipn]; reflexivity | vm_compute; reflexivity | cbn [skipn]; reflexivity].
  erewrite parse_loop_accept by (vm_compute; reflexivity).
  reflexivity.
Qed.

Lemma parse_expr_tree (e : expr) :
  exists (v : value) (st : store),
    parse (expr_tokens e) = Ok v st
    /\ forall n : nat, (expr_depth e <= n)%nat -> snapshot n st v = expr_tree e.
Proof.
  exists (fst (expr_out 0 e)), (snd (expr_out 0 e)). split; [apply parse_expr|].
  intros n Hn. destruct shows_syntax as (_ & H & _).
  specialize (H e [] [] n Hn). cbn [app List.length] in H.
  rewrite app_nil_r in H. exact H.
Qed.

(** X1.  Every expression of the language (atoms, string literals,
    parentheses, calls, map literals, NOT and the binary operators, nested
    at will) parses, and the value it yields, unfolded in the final store to
    the depth of the expression or deeper, is the tree of the expression:
    every operator has all that follows it as its right operand, parentheses
    leave no node, arguments and entries are in source order. *)
Theorem expression_parses_to_its_tree (e : expr) :
  exists (v : value) (st : store),
    parse (expr_tokens e) = Ok v st
    /\ forall n : nat, (expr_depth e <= n)%nat -> snapshot n st v = expr_tree e.
Proof. exact (parse_expr_tree e). Qed.

Lemma exprs_of_list_tokens (l : list expr) :
  exprs_tokens (exprs_of_list l) = flat_map (fun e => COMMA :: expr_tokens e) l.
Proof. induction l as [|e l IH]; [reflexivity|]. cbn. rewrite IH. reflexivity. Qed.

Lemma exprs_of_list_trees (l : list expr) :
  exprs_trees (exprs_of_list l) = map expr_tree l.
Proof. induction l as [|e l IH]; [reflexivity|]. cbn. rewrite IH. reflexivity. Qed.

Lemma exprs_of_list_depth (l : list expr) :
  exprs_depth (exprs_of_list l) = list_max (map expr_depth l).
Proof. induction l as [|e l IH]; [reflexivity|]. cbn. rewrite IH. reflexivity. Qed.

(** X2.  Parentheses leave no trace: an expression in parentheses parses to
    the same value, with the same store, as the expression alone. *)
Theorem parentheses_leave_no_trace (e : expr) :
  parse (LPAREN :: expr_tokens e ++ [RPAREN]) = parse (expr_tokens e).
Proof.
  rewrite (parse_expr e). exact (parse_expr (EOperand (PParen e))).
Qed.

(** X3.  Parentheses are what groups to the left: in [( e1 ) op e2] the left
    child of the root is the whole tree of e1, and the right child the tree
    of e2. *)
Theorem parentheses_group_left (e1 : expr) (o : binop) (lexeme : string) (e2 : expr) :
  exists (v : value) (st : store),
    parse (LPAREN :: expr_tokens e1 ++ RPAREN :: kw (binop_kind o) lexeme :: expr_tokens e2)
    = Ok v st
    /\ forall n : nat,
        (1 + Nat.max (expr_depth e1) (expr_depth e2) <= n)%nat ->
        snapshot n st v = binop_node o (expr_tree e1) (VStr lexeme) (expr_tree e2).
Proof.
  destruct (parse_expr_tree (EBin (PParen e1) o lexeme e2)) as (v & st & Hp & Ht).
  exists v, st. split; [|exact Ht].
  cbn [expr_tokens operand_tokens app] in Hp. rewrite <- app_assoc in Hp. exact Hp.
Qed.

(** X4.  A call keeps its arguments in source order, in a list of its own:
    [f ( e , e1 , ... , en )] parses to FunctionCall(f, [e, e1, ..., en]),
    and [f ( )] to a FunctionCall whose arguments are a new empty list. *)
Theorem call_arguments_in_order (f : string) :
  (forall (e : expr) (l : list expr),
      exists (v : value) (st : store),
        parse (SYMBOL f :: LPAREN :: expr_tokens e
                      ++ flat_map (fun a => COMMA :: expr_tokens a) l ++ [RPAREN])
        = Ok v st
        /\ forall n : nat,
            (3 + list_max (map expr_depth (e :: l)) <= n)%nat ->
            snapshot n st v = VFunctionCall (VStr f) (VList (map expr_tree (e :: l))))
  /\ parse [SYMBOL f; LPAREN; RPAREN] = Ok (VFunctionCall (VStr f) (VRef 0)) [VList []].
Proof.
  split.
  - intros e l.
    destruct (parse_expr_tree (EOperand (PCall f e (exprs_of_list l))))
      as (v & st & Hp & Ht).
    exists v, st. split.
    + cbn [expr_tokens operand_tokens] in Hp. rewrite exprs_of_list_tokens in Hp. exact Hp.
    + intros n Hn. rewrite Ht.
      * cbn [expr_tree operand_tree map]. rewrite exprs_of_list_trees. reflexivity.
      * cbn [expr_depth operand_depth]. rewrite exprs_of_list_depth.
        cbn [map list_max] in Hn. exact Hn.
  - exact (parse_expr (EOperand (PCall0 f))).
Qed.

(* ===================================================================== *)
(** ** Inputs the parser rejects *)
(* ===================================================================== *)

Section RunsEnd.
Local Notation "'run'" := (parse_loop Productions callable p_error parser).

(** A run that ends otherwise than by the end of its budget ends the same
    way with a larger one. *)
Lemma run_fuel_S_any (fuel : nat) :
  forall (ss : list nat) (vs : list value) (input : list LexToken)
         (log : list nat) (st : store),
    run fuel ss vs input log st <> Raise OutOfFuel ->
    run (S fuel) ss vs input log st = run fuel ss vs input log st.
Proof.
  induction fuel as [|fuel IH]; intros ss vs input log st H; [contradiction H; reflexivity|].
  cbn [parse_loop] in H. cbn [parse_loop].
  destruct (action_at parser (hd O ss) (lookahead_type input)) as [[t|k|]|]; try reflexivity.
  - destruct input as [|tok rest]; [reflexivity | apply IH; exact H].
  - unfold bind in *. destruct (callable k _ st) as [v st1|e]; [|reflexivity].
    destruct (goto_at parser _ _); [apply IH; exact H | reflexivity].
Qed.

Lemma run_fuel_more (extra fuel : nat) (ss : list nat) (vs : list value)
      (input : list LexToken) (log : list nat) (st : store) :
  run fuel ss vs input log st <> Raise OutOfFuel ->
  run (extra + fuel) ss vs input log st = run fuel ss vs input log st.
Proof.
  intros H. induction extra as [|extra IH]; [reflexivity|].
  cbn [Nat.add]. rewrite run_fuel_S_any; [exact IH | rewrite IH; exact H].
Qed.

Lemma run_raises_more (fuel fuel' : nat) (ss : list nat) (vs : list value)
      (input : list LexToken) (log : list nat) (st : store) (x : exn) :
  (fuel <= fuel')%nat ->
  x <> OutOfFuel ->
  drop_log (run fuel ss vs input log st) = Raise x ->
  drop_log (run fuel' ss vs input log st) = Raise x.
Proof.
  intros Hle Hx H. replace fuel' with ((fuel' - fuel) + fuel)%nat by lia.
  rewrite run_fuel_more; [exact H|].
  intros E. rewrite E in H. cbn in H. inversion H. congruence.
Qed.
End RunsEnd.




Lemma table_stray_closer (la : string) :
  In la stray_closers -> action_at parser 2 la = None.
Proof.
  intros H. unfold stray_closers in H. cbn [In] in H.
  repeat destruct H as [<-|H]; try contradiction; vm_compute; reflexivity.
Qed.

Lemma stray_closers_closers (la : string) : In la stray_closers -> In la closers.
Proof. unfold stray_closers, closers. cbn [In]. tauto. Qed.

Lemma table_operator_end (o : binop) : action_at parser (op_state o) "$end" = None.
Proof. destruct o; vm_compute; reflexivity. Qed.

(** X6.  A complete expression followed by a token that closes something
    never opened (a right parenthesis, a comma, AS, a brace, a keyword of a
    SELECT or AGGREGATE statement) is rejected at that token. *)
Theorem stray_closer_rejected (e : expr) (tok : LexToken) (rest : list LexToken) :
  In (tok_type tok) stray_closers ->
  parse (expr_tokens e ++ tok :: rest) = Raise (ParserError (Some tok)).
Proof.
  intros H. unfold parse, parse_from.
  apply (run_raises_more (expr_steps e + 1)); [| discriminate |].
  { unfold parse_fuel. destruct syntax_steps_bound as (_ & Hb & _). specialize (Hb e).
    rewrite length_app. lia. }
  destruct reads_syntax as (_ & Hr & _).
  pose proof (Hr e XStart [] [VNone] (tok :: rest) [] [] [] 1%nat) as Hrun.
  cbn [ectx_state ectx_expr_state List.length app] in Hrun.
  rewrite Hrun by (apply stray_closers_closers; exact H).
  rewrite parse_loop_error; [reflexivity|].
  apply table_stray_closer. exact H.
Qed.

Lemma stray_closer_rejected_witness :
  parse [INTEGER 1; PLUS; INTEGER 2; RPAREN; INTEGER 3] = Raise (ParserError (Some RPAREN)).
Proof.
  apply (stray_closer_rejected
           (EBin (PAtom (AInteger 1)) OpPlus "+" (EOperand (PAtom (AInteger 2))))
           RPAREN [INTEGER 3]).
  unfold stray_closers. cbn. tauto.
Defined.

Section Truncated.
Local Notation "'run'" := (parse_loop Productions callable p_error parser).

Lemma run_dangling_operator (o : binop) (lexeme : string) (e : expr) :
  forall (c : ectx) (ss : list nat) (vs : list value) (log : list nat) (st : store),
  exists fuel : nat,
    (fuel <= expr_steps e + 2)%nat
    /\ drop_log (run fuel (ectx_state c :: ss) vs
                     (expr_tokens e ++ [kw (binop_kind o) lexeme]) log st)
       = Raise (ParserError None).
Proof.
  destruct reads_syntax as (Hop & _).
  induction e as [p|lex e IH|p o' lex e IH]; intros c ss vs log st.
  - exists (operand_steps p + 2)%nat. split; [cbn; lia|].
    cbn [expr_tokens].
    rewrite (Hop p c _ _ _ _ [] _ _) by apply operator_follows.
    erewrite parse_loop_shift by apply table_expr_operator.
    rewrite parse_loop_error by apply table_operator_end. reflexivity.
  - destruct (table_ctx_shift c) as (_ & _ & Hs & _).
    destruct (IH XNot (ectx_state c :: ss) (VStr lex :: vs) log st) as (fuel & Hle & Hrun).
    exists (S fuel). split; [cbn; lia|].
    cbn [expr_tokens app].
    erewrite parse_loop_shift by exact Hs. exact Hrun.
  - destruct (IH (XBin o')
                 (ectx_expr_state c :: ectx_state c :: ss)
                 (VStr lex :: fst (operand_out (List.length st) p) :: vs) []
                 (st ++ snd (operand_out (List.length st) p))) as (fuel & Hle & Hrun).
    exists (operand_steps p + S fuel)%nat. split; [cbn; lia|].
    cbn [expr_tokens]. rewrite <- app_assoc. cbn [app].
    rewrite (Hop p c _ _ _ _ [] _ _) by apply operator_follows.
    erewrite parse_loop_shift by apply table_expr_operator. exact Hrun.
Qed.
End Truncated.

(** X7.  An input that ends where an operand is due is rejected at its end:
    an expression followed by a binary operator, and an opening parenthesis
    followed by an expression without the closing one. *)
Theorem truncated_input_rejected (e : expr) :
  (forall (o : binop) (lexeme : string),
      parse (expr_tokens e ++ [kw (binop_kind o) lexeme]) = Raise (ParserError None))
  /\ parse (LPAREN :: expr_tokens e) = Raise (ParserError None).
Proof.
  destruct syntax_steps_bound as (_ & Hb & _). specialize (Hb e).
  split.
  - intros o lexeme. unfold parse, parse_from.
    destruct (run_dangling_operator o lexeme e XStart [] [VNone] [] []) as (fuel & Hle & Hrun).
    apply (run_raises_more fuel); [| discriminate | exact Hrun].
    unfold parse_fuel. rewrite length_app. cbn [List.length]. lia.
  - unfold parse, parse_from.
    apply (run_raises_more (S (expr_steps e + 1))); [| discriminate |].
    { unfold parse_fuel. cbn [List.length]. lia. }
    erewrite parse_loop_shift by (vm_compute; reflexivity).
    destruct reads_syntax as (_ & Hr & _).
    pose proof (Hr e XParen [O] [tok_value LPAREN; VNone] [] [] [] [] 1%nat) as Hrun.
    cbn [ectx_state ectx_expr_state List.length app] in Hrun.
    rewrite app_nil_r in Hrun. rewrite Hrun by (cbn; tauto).
    rewrite parse_loop_error by (vm_compute; reflexivity). reflexivity.
Qed.

(* ===================================================================== *)
(** ** SELECT statements *)
(* ===================================================================== *)

Lemma table_sort (la : string) :
  sort_la la ->
  action_at parser 74 la = Some (Reduce 41)
  /\ action_at parser 85 la = Some (Reduce 44)
  /\ action_at parser 86 la = Some (Reduce 42)
  /\ action_at parser 87 la = Some (Reduce 43)
  /\ action_at parser 73 la = Some (Reduce 45)
  /\ action_at parser 96 la = Some (Reduce 46).
Proof.
  intros H. unfold sort_la in H. cbn [In] in H.
  repeat destruct H as [<-|H]; try contradiction; repeat split; vm_compute; reflexivity.
Qed.

Lemma table_modifier (la : string) :
  modifier_la la ->
  action_at parser 69 la = Some (Reduce 33)
  /\ action_at parser 70 la = Some (Reduce 34)
  /\ action_at parser 71 la = Some (Reduce 35)
  /\ action_at parser 72 la = Some (Reduce 36)
  /\ action_at parser 89 la = Some (Reduce 32).
Proof.
  intros H. unfold modifier_la in H. cbn [In] in H.
  repeat destruct H as [<-|H]; try contradiction; repeat split; vm_compute; reflexivity.
Qed.

Lemma modifier_la_sort (la : string) : modifier_la la -> sort_la la.
Proof. unfold modifier_la, sort_la. cbn [In]. tauto. Qed.

Lemma modifier_la_closers (la : string) : modifier_la la -> In la closers.
Proof. unfold modifier_la, closers. cbn [In]. tauto. Qed.

Lemma modifiers_lookahead (ms : list modifier) (rest : list LexToken) :
  modifier_la (lookahead_type rest) ->
  modifier_la (lookahead_type (flat_map modifier_tokens ms ++ rest)).
Proof.
  destruct ms as [|[e|n|n|first rest'] ms]; [tauto | | | |]; intros _;
    unfold modifier_la; cbn; tauto.
Qed.

Lemma sort_rest_lookahead (rest : list sort_item) (tail : list LexToken) :
  sort_la (lookahead_type tail) ->
  sort_la (lookahead_type (flat_map (fun it => COMMA :: sort_item_tokens it) rest ++ tail)).
Proof. destruct rest; [tauto | intros _; unfold sort_la; cbn; tauto]. Qed.

Lemma callable_sort_append (p0 k x : value) (pre more : store) (acc : list value) :
  callable 46 [p0; VRef (List.length pre); k; x] (pre ++ VList acc :: more)
  = Ok (VRef (List.length pre)) (pre ++ VList (acc ++ [x]) :: more).
Proof.
  change (callable 46) with p_sort_spec_list.
  unfold p_sort_spec_list, bind, getitem. cbn [lookup list_lookup ret].
  rewrite append_cell. reflexivity.
Qed.

Lemma callable_symbols_append (p0 k x : value) (pre more : store) (acc : list value) :
  callable 40 [p0; VRef (List.length pre); k; x] (pre ++ VList acc :: more)
  = Ok (VRef (List.length pre)) (pre ++ VList (acc ++ [x]) :: more).
Proof.
  change (callable 40) with p_symbol_list.
  unfold p_symbol_list, bind, getitem. cbn [lookup list_lookup ret].
  rewrite append_cell. reflexivity.
Qed.

(** The class of a value does not depend on where its cells are. *)
Lemma is_Expression_binop_node (o : binop) (a l b : value) :
  is_Expression (binop_node o a l b) = true.
Proof. destruct o; reflexivity. Qed.

Lemma is_Expression_out :
  (forall p b, is_Expression (fst (operand_out b p)) = is_Expression (operand_tree p))
  /\ (forall e b, is_Expression (fst (expr_out b e)) = is_Expression (expr_tree e))
  /\ (forall es : exprs, True) /\ (forall x : nentry, True) /\ (forall xs : nentries, True).
Proof.
  apply syntax_mutind; intros; try exact I; cbn [operand_out operand_tree expr_out expr_tree fst];
    try reflexivity; try (destruct a; reflexivity); auto.
  rewrite !is_Expression_binop_node. reflexivity.
Qed.

Section ModifierCells.
Variables (pre more : store) (c f q l s so : value).

Let st : store := pre ++ VSelectOperation c f q l s so :: more.

Lemma callable_where (p0 k x : value) :
  is_Expression x = true ->
  callable 33 [p0; VRef (List.length pre); k; x] st
  = Ok (VRef (List.length pre)) (pre ++ VSelectOperation c f x l s so :: more).
Proof.
  intros Hx. change (callable 33) with p_operation_select_condition.
  rewrite (p_operation_select_condition_sets_query st _ c f q l s so (lookup_cell _ _ _)
             p0 k x Hx).
  unfold st. rewrite insert_cell. reflexivity.
Qed.

Lemma callable_limit (p0 k : value) (n : Z) :
  callable 34 [p0; VRef (List.length pre); k; VInt n] st
  = Ok (VRef (List.length pre)) (pre ++ VSelectOperation c f q (VInt n) s so :: more).
Proof.
  change (callable 34) with p_operation_select_limit.
  rewrite (p_operation_select_limit_sets_limit st _ c f q l s so (lookup_cell _ _ _)
             p0 k (VInt n) eq_refl).
  unfold st. rewrite insert_cell. reflexivity.
Qed.

Lemma callable_skip (p0 k : value) (n : Z) :
  callable 35 [p0; VRef (List.length pre); k; VInt n] st
  = Ok (VRef (List.length pre)) (pre ++ VSelectOperation c f q l (VInt n) so :: more).
Proof.
  change (callable 35) with p_operation_select_skip.
  rewrite (p_operation_select_skip_sets_skip st _ c f q l s so (lookup_cell _ _ _)
             p0 k (VInt n) eq_refl).
  unfold st. rewrite insert_cell. reflexivity.
Qed.
End ModifierCells.

Lemma is_list_tuple_cell (st : store) (a : nat) (items : list value) :
  st !! a = Some (VList items) -> is_list_tuple st (VRef a) = true.
Proof. intros H. unfold is_list_tuple, deref. rewrite H. reflexivity. Qed.

Lemma dict_sort_cell (st : store) (a : nat) (items : list sort_item) :
  st !! a = Some (VList (map sort_pair items)) ->
  dict (VRef a) st = Ok (VDict (sort_dict items)) st.
Proof.
  intros H. unfold dict, bind, iter, bind, load, deref. rewrite H. cbn [ret].
  rewrite dict_update_sort_pairs. reflexivity.
Qed.

Lemma callable_sort (pre more : store) (c f q l s so p0 k : value) (items : list sort_item) :
  callable 36 [p0; VRef (List.length pre); k;
               VRef (List.length (pre ++ VSelectOperation c f q l s so :: more))]
           (pre ++ VSelectOperation c f q l s so :: more ++ [VList (map sort_pair items)])
  = Ok (VRef (List.length pre))
       (pre ++ VSelectOperation c f q l s (VDict (sort_dict items))
            :: more ++ [VList (map sort_pair items)]).
Proof.
  assert (Hcell : (pre ++ VSelectOperation c f q l s so :: more ++ [VList (map sort_pair items)])
                    !! List.length (pre ++ VSelectOperation c f q l s so :: more)
                  = Some (VList (map sort_pair items))).
  { rewrite app_comm_cons, app_assoc. apply lookup_cell. }
  change (callable 36) with p_operation_select_sort.
  rewrite (p_operation_select_sort_sets_sort _ _ c f q l s so (lookup_cell _ _ _)
             p0 k _ (VDict (sort_dict items))).
  - rewrite insert_cell. reflexivity.
  - apply (is_list_tuple_cell _ _ _ Hcell).
  - apply (dict_sort_cell _ _ _ Hcell).
Qed.

Section SelectRuns.
Local Notation "'run'" := (parse_loop Productions callable p_error parser).

(** An item of a sort spec, the first of its spec or a later one. *)
Lemma run_sort_item (s0 s1 : nat) (it : sort_item) (ss : list nat) (vs : list value)
      (rest : list LexToken) (log log' : list nat) (st : store) (fuel : nat) :
  (s0 = 40 /\ s1 = 73)%nat \/ (s0 = 84 /\ s1 = 96)%nat ->
  sort_la (lookahead_type rest) ->
  drop_log (run (sort_item_steps it + fuel) (s0 :: ss) vs (sort_item_tokens it ++ rest) log st)
  = drop_log (run fuel (s1 :: s0 :: ss) (sort_pair it :: vs) rest log' st).
Proof.
  intros Hs Hla. destruct (table_sort _ Hla) as (H74 & H85 & H86 & H87 & _).
  destruct it as [f d]. unfold sort_item_tokens, sort_item_steps. cbn [fst snd].
  destruct Hs as [[-> ->]|[-> ->]]; destruct d; cbn [direction_tokens app Nat.add];
    sh look;
    try (sh look);
    (rd ltac:(first [exact H74 | exact H86 | exact H87]) ltac:(reflexivity) look);
    (rd ltac:(exact H85) ltac:(reflexivity) look);
    apply run_log_irrelevant.
Qed.

Lemma run_sort_rest (rest : list sort_item) :
  forall (acc : list sort_item) (ss : list nat) (vs : list value) (tail : list LexToken)
         (log log' : list nat) (st : store) (fuel : nat),
    sort_la (lookahead_type tail) ->
    drop_log (run (sort_rest_steps rest + fuel) (72 :: 40 :: ss)%nat
                  (VRef (List.length st) :: vs)
                  (flat_map (fun it => COMMA :: sort_item_tokens it) rest ++ tail) log
                  (st ++ [VList (map sort_pair acc)]))
    = drop_log (run fuel (72 :: 40 :: ss)%nat (VRef (List.length st) :: vs) tail log'
                    (st ++ [VList (map sort_pair (acc ++ rest))])).
Proof.
  induction rest as [|it rest IH]; intros acc ss vs tail log log' st fuel Hla.
  - cbn [flat_map sort_rest_steps Nat.add app]. rewrite app_nil_r. apply run_log_irrelevant.
  - pose proof (sort_rest_lookahead rest tail Hla) as Hla'.
    destruct (table_sort _ Hla') as (_ & _ & _ & _ & _ & H96).
    cbn [flat_map sort_rest_steps Nat.add app].
    sh look.
    rewrite <- app_assoc, <- Nat.add_assoc.
    rewrite (run_sort_item 84 96 it _ _ _ _ [] _ _) by (first [tauto | exact Hla']).
    cbn [Nat.add].
    rd ltac:(exact H96) ltac:(apply callable_sort_append) look.
    change [sort_pair it] with (map sort_pair [it]). rewrite <- map_app.
    rewrite (IH (acc ++ [it]) _ _ _ _ log' _ _ Hla).
    rewrite <- app_assoc. reflexivity.
Qed.

(** One modifier: its attribute is assigned in the cell of the operation,
    its cells are added at the end of the store. *)
Lemma run_modifier (m : modifier) (pre more : store) (c f q l s so : value)
      (rest : list LexToken) (log log' : list nat) (fuel : nat) :
  modifier_ok m = true ->
  modifier_la (lookahead_type rest) ->
  drop_log (run (modifier_steps m + fuel) [8; 0]%nat [VRef (List.length pre); VNone]
                (modifier_tokens m ++ rest) log
                (pre ++ VSelectOperation c f q l s so :: more))
  = drop_log (run fuel [8; 0]%nat [VRef (List.length pre); VNone] rest log'
                  (pre ++ set_field (modifier_attr m)
                                    (modifier_value (List.length pre + S (List.length more)) m)
                                    (VSelectOperation c f q l s so)
                       :: more ++ modifier_cells (List.length pre + S (List.length more)) m)).
Proof.
  intros Hok Hla.
  destruct (table_modifier _ Hla) as (H69 & H70 & H71 & H72 & _).
  destruct m as [e|n|n|first items];
    cbn [modifier_steps modifier_tokens modifier_attr modifier_value modifier_cells
         set_field app Nat.add].
  - destruct reads_syntax as (_ & Hr & _).
    destruct is_Expression_out as (_ & He & _).
    sh look.
    rewrite <- Nat.add_assoc.
    rewrite (Hr e XWhere _ _ _ _ [] _ _) by (apply modifier_la_closers; exact Hla).
    cbn [Nat.add ectx_state ectx_expr_state].
    rewrite length_app. cbn [List.length].
    rewrite <- app_assoc. cbn [app].
    rd ltac:(exact H69)
       ltac:(apply callable_where; rewrite He; exact Hok)
       look.
    apply run_log_irrelevant.
  - sh look. sh look.
    rd ltac:(exact H70) ltac:(apply callable_limit) look.
    rewrite app_nil_r. apply run_log_irrelevant.
  - sh look. sh look.
    rd ltac:(exact H71) ltac:(apply callable_skip) look.
    rewrite app_nil_r. apply run_log_irrelevant.
  - unfold sort_spec_tokens.
    pose proof (modifier_la_sort _ Hla) as Hsla.
    pose proof (sort_rest_lookahead items rest Hsla) as Hla'.
    destruct (table_sort _ Hla') as (_ & _ & _ & _ & H73 & _).
    sh look.
    rewrite <- !app_assoc, <- Nat.add_assoc.
    rewrite (run_sort_item 40 73 first _ _ _ _ [] _ _) by (first [tauto | exact Hla']).
    cbn [Nat.add].
    rd ltac:(exact H73) ltac:(reflexivity) look.
    rewrite <- Nat.add_assoc.
    change [sort_pair first] with (map sort_pair [first]).
    rewrite (run_sort_rest items [first] _ _ _ _ [] _ _ Hsla).
    cbn [Nat.add app].
    rewrite <- app_assoc. cbn [app].
    rd ltac:(exact H72) ltac:(apply callable_sort) look.
    apply run_log_irrelevant.
Qed.

Lemma run_modifiers (ms : list modifier) :
  forall (pre more : store) (c f q l s so : value) (rest : list LexToken)
         (log log' : list nat) (fuel : nat),
    forallb modifier_ok ms = true ->
    modifier_la (lookahead_type rest) ->
    drop_log (run (modifiers_steps ms + fuel) [8; 0]%nat [VRef (List.length pre); VNone]
                  (flat_map modifier_tokens ms ++ rest) log
                  (pre ++ VSelectOperation c f q l s so :: more))
    = drop_log (run fuel [8; 0]%nat [VRef (List.length pre); VNone] rest log'
                    (pre ++ fst (modifiers_out (List.length pre + S (List.length more)) ms
                                               (VSelectOperation c f q l s so))
                         :: more ++ snd (modifiers_out (List.length pre + S (List.length more))
                                                       ms (VSelectOperation c f q l s so)))).
Proof.
  induction ms as [|m ms IH]; intros pre more c f q l s so rest log log' fuel Hok Hla.
  - cbn [flat_map modifiers_steps modifiers_out fst snd app Nat.add].
    rewrite app_nil_r. apply run_log_irrelevant.
  - cbn [forallb] in Hok. apply andb_prop in Hok as [Hm Hms].
    cbn [flat_map modifiers_steps modifiers_out fst snd].
    rewrite <- app_assoc, <- Nat.add_assoc.
    rewrite (run_modifier m pre more c f q l s so _ _ [] _ Hm
                          (modifiers_lookahead ms rest Hla)).
    set (b := (List.length pre + S (List.length more))%nat).
    set (cells := modifier_cells b m). set (v := modifier_value b m).
    assert (Hsel : exists q' l' s' so',
               set_field (modifier_attr m) v (VSelectOperation c f q l s so)
               = VSelectOperation c f q' l' s' so')
      by (destruct (modifier_attr m); cbn; eauto).
    destruct Hsel as (q' & l' & s' & so' & ->).
    rewrite (IH pre (more ++ cells) c f q' l' s' so' rest _ log' fuel Hms Hla).
    replace (List.length pre + S (List.length (more ++ cells)))%nat
      with (b + List.length cells)%nat
      by (subst b; rewrite length_app; lia).
    rewrite <- !app_assoc. reflexivity.
Qed.
End SelectRuns.

Section SelectBase.
Local Notation "'run'" := (parse_loop Productions callable p_error parser).

Lemma run_symbols (rest : list string) :
  forall (acc : list string) (ss : list nat) (vs : list value) (tail : list LexToken)
         (log log' : list nat) (fuel : nat),
    lookahead_type tail = "FROM" ->
    drop_log (run (symbols_steps rest + fuel) (44 :: 17 :: ss)%nat (VRef 0 :: vs)
                  (flat_map (fun g => [COMMA; SYMBOL g]) rest ++ tail) log
                  [VList (map VStr acc)])
    = drop_log (run fuel (44 :: 17 :: ss)%nat (VRef 0 :: vs) tail log'
                    [VList (map VStr (acc ++ rest))]).
Proof.
  induction rest as [|g rest IH]; intros acc ss vs tail log log' fuel Hla.
  - cbn [flat_map symbols_steps Nat.add app]. rewrite app_nil_r. apply run_log_irrelevant.
  - cbn [flat_map symbols_steps Nat.add app].
    sh look. sh look.
    rd ltac:(destruct rest; [cbn [flat_map app]; rewrite Hla|]; look)
       ltac:(apply (callable_symbols_append _ _ _ [] []))
       look.
    cbn [app]. change [tok_value (SYMBOL g)] with (map VStr [g]). rewrite <- map_app.
    rewrite (IH (acc ++ [g]) _ _ _ _ log' _ Hla). rewrite <- app_assoc. reflexivity.
Qed.

(** [SELECT fields FROM c]: the operation is a new cell, after the list of
    the field names when there is one. *)
Lemma run_select_base (fs : fields_spec) (c : string) (rest : list LexToken)
      (log log' : list nat) (fuel : nat) :
  modifier_la (lookahead_type rest) ->
  drop_log (run (fields_steps fs + fuel) [O] [VNone]
                (SELECT :: fields_tokens fs ++ FROM :: SYMBOL c :: rest) log [])
  = drop_log (run fuel [8; 0]%nat [VRef (List.length (fields_cells fs)); VNone] rest log'
                  (fields_cells fs
                     ++ [VSelectOperation (VStr c) (fields_value fs) VNone VNone VNone VNone])).
Proof.
  intros Hla. destruct (table_modifier _ Hla) as (_ & _ & _ & _ & H89).
  destruct fs as [[f names]|];
    cbn [fields_steps fields_tokens fields_cells fields_value app List.length Nat.add].
  - sh look. sh look.
    rd ltac:(destruct names; look) ltac:(reflexivity) look.
    replace (S (S (S (S (3 * List.length names + fuel)))))
      with (symbols_steps names + S (S (S (S fuel))))%nat
      by (clear; induction names as [|g names IH]; cbn [symbols_steps List.length]; lia).
    change [VList [tok_value (SYMBOL f)]] with [VList (map VStr [f])].
    rewrite (run_symbols names [f] _ _ (FROM :: SYMBOL c :: rest) _ [] _ eq_refl).
    rd look ltac:(reflexivity) look.
    sh look. sh look.
    rd ltac:(exact H89) ltac:(reflexivity) look.
    apply run_log_irrelevant.
  - sh look. sh look.
    rd look ltac:(reflexivity) look.
    sh look. sh look.
    rd ltac:(exact H89) ltac:(reflexivity) look.
    apply run_log_irrelevant.
Qed.
End SelectBase.

Lemma modifier_steps_bound (m : modifier) :
  (modifier_steps m <= 4 * List.length (modifier_tokens m))%nat.
Proof.
  destruct m as [e|n|n|first rest]; cbn [modifier_steps modifier_tokens List.length];
    try lia.
  - destruct syntax_steps_bound as (_ & H & _). specialize (H e). lia.
  - unfold sort_spec_tokens. rewrite length_app.
    assert (Hrest : (sort_rest_steps rest
                     <= 4 * List.length (flat_map (fun it => COMMA :: sort_item_tokens it) rest))%nat).
    { induction rest as [|[g d] rest IH]; [cbn; lia|].
      cbn [sort_rest_steps flat_map List.length app]. rewrite length_app.
      unfold sort_item_steps, sort_item_tokens in *. cbn [fst snd List.length].
      destruct d; cbn [direction_tokens List.length]; lia. }
    destruct first as [g d]. unfold sort_item_steps, sort_item_tokens in *.
    cbn [fst snd List.length].
    destruct d; cbn [direction_tokens List.length]; lia.
Qed.

Lemma modifiers_steps_bound (ms : list modifier) :
  (modifiers_steps ms <= 4 * List.length (flat_map modifier_tokens ms))%nat.
Proof.
  induction ms as [|m ms IH]; [cbn; lia|].
  cbn [modifiers_steps flat_map]. rewrite length_app.
  pose proof (modifier_steps_bound m). lia.
Qed.

Lemma fields_steps_bound (fs : fields_spec) :
  (fields_steps fs <= 4 * List.length (fields_tokens fs) + 4)%nat.
Proof.
  destruct fs as [[f names]|]; cbn [fields_steps fields_tokens List.length]; [|lia].
  assert (List.length (flat_map (fun g => [COMMA; SYMBOL g]) names) = 2 * List.length names)%nat
    as -> by (induction names as [|g names IH]; cbn [flat_map List.length app]; lia).
  lia.
Qed.

(** A SELECT statement whose WHERE conditions are Expression nodes. *)
Lemma parse_select (fs : fields_spec) (c : string) (ms : list modifier) :
  forallb modifier_ok ms = true ->
  parse (select_tokens fs c ms)
  = Ok (VRef (List.length (fields_cells fs)))
       (fields_cells fs
          ++ fst (modifiers_out (S (List.length (fields_cells fs))) ms
                    (VSelectOperation (VStr c) (fields_value fs) VNone VNone VNone VNone))
          :: snd (modifiers_out (S (List.length (fields_cells fs))) ms
                    (VSelectOperation (VStr c) (fields_value fs) VNone VNone VNone VNone))).
Proof.
  intros Hok. unfold parse, parse_from.
  destruct (fuel_split (parse_fuel (select_tokens fs c ms))
                       (fields_steps fs + (modifiers_steps ms + 3))) as [extra ->].
  { unfold parse_fuel, select_tokens. cbn [List.length]. rewrite length_app.
    cbn [List.length].
    pose proof (fields_steps_bound fs). pose proof (modifiers_steps_bound ms). lia. }
  assert (Hend : modifier_la (lookahead_type [])) by (unfold modifier_la; cbn; tauto).
  unfold select_tokens. rewrite <- !Nat.add_assoc.
  rewrite <- (app_nil_r (flat_map modifier_tokens ms)).
  rewrite (run_select_base fs c _ _ [] _ (modifiers_lookahead ms [] Hend)).
  rewrite (run_modifiers ms (fields_cells fs) [] _ _ _ _ _ _ [] _ [] _ Hok)
    by (unfold modifier_la; cbn; tauto).
  cbn [Nat.add app List.length].
  rewrite Nat.add_1_r.
  rd look ltac:(reflexivity) look.
  rd look ltac:(reflexivity) look.
  erewrite parse_loop_accept by look.
  reflexivity.
Qed.

Lemma modifiers_out_select (ms : list modifier) :
  forall (b : nat) (c f q l s so : value),
  exists q' l' s' so',
    fst (modifiers_out b ms (VSelectOperation c f q l s so))
    = VSelectOperation c f q' l' s' so'.
Proof.
  induction ms as [|m ms IH]; intros b c f q l s so; [cbn; eauto|].
  cbn [modifiers_out fst]. destruct (modifier_attr m); cbn [set_field]; apply IH.
Qed.

Lemma select_field_set (attr attr' : select_attr) (x c f q l s so : value) :
  select_field attr (set_field attr' x (VSelectOperation c f q l s so))
  = if attr_eqb attr' attr then x else select_field attr (VSelectOperation c f q l s so).
Proof. destruct attr, attr'; reflexivity. Qed.

Lemma snapshot_modifier_value (m : modifier) (pre post : store) (n : nat) :
  (modifier_depth m <= n)%nat ->
  snapshot n (pre ++ modifier_cells (List.length pre) m ++ post)
           (modifier_value (List.length pre) m)
  = modifier_tree m.
Proof.
  intros Hn. destruct m as [e|k|k|first rest];
    cbn [modifier_depth modifier_cells modifier_value modifier_tree] in *.
  - destruct shows_syntax as (_ & H & _). apply H. exact Hn.
  - apply snapshot_flat. reflexivity.
  - apply snapshot_flat. reflexivity.
  - destruct n as [|n]; [lia|]. rewrite snapshot_dict, snapshot_sort_dict. reflexivity.
Qed.

(** After the modifiers each attribute shows the tree of the last modifier
    that assigns it, and is untouched when none does. *)
Lemma modifiers_show (ms : list modifier) :
  forall (pre more post : store) (X c f q l s so : value) (n : nat) (attr : select_attr),
    (list_max (map modifier_depth ms) <= n)%nat ->
    snapshot n (pre ++ X :: more
                    ++ snd (modifiers_out (List.length pre + S (List.length more)) ms
                              (VSelectOperation c f q l s so)) ++ post)
             (select_field attr
                (fst (modifiers_out (List.length pre + S (List.length more)) ms
                        (VSelectOperation c f q l s so))))
    = match last_modifier attr ms with
      | Some m => modifier_tree m
      | None =>
          snapshot n (pre ++ X :: more
                          ++ snd (modifiers_out (List.length pre + S (List.length more)) ms
                                    (VSelectOperation c f q l s so)) ++ post)
                   (select_field attr (VSelectOperation c f q l s so))
      end.
Proof.
  induction ms as [|m ms IH]; intros pre more post X c f q l s so n attr Hn; [reflexivity|].
  change (list_max (map modifier_depth (m :: ms)))
    with (Nat.max (modifier_depth m) (list_max (map modifier_depth ms))) in Hn.
  cbn [modifiers_out fst snd last_modifier].
  set (b := (List.length pre + S (List.length more))%nat).
  set (cells := modifier_cells b m).
  assert (Hsel : exists q' l' s' so',
             set_field (modifier_attr m) (modifier_value b m) (VSelectOperation c f q l s so)
             = VSelectOperation c f q' l' s' so')
    by (destruct (modifier_attr m); cbn; eauto).
  destruct Hsel as (q' & l' & s' & so' & Hset). rewrite Hset.
  specialize (IH pre (more ++ cells) post X c f q' l' s' so' n attr ltac:(lia)).
  replace (List.length pre + S (List.length (more ++ cells)))%nat
    with (b + List.length cells)%nat in IH
    by (subst b; rewrite length_app; lia).
  rewrite <- !app_assoc in IH. rewrite <- !app_assoc.
  rewrite IH. destruct (last_modifier attr ms) as [m'|]; [reflexivity|].
  assert (Hfield : select_field attr (VSelectOperation c f q' l' s' so')
                   = if attr_eqb (modifier_attr m) attr then modifier_value b m
                     else select_field attr (VSelectOperation c f q l s so))
    by (rewrite <- Hset; apply select_field_set).
  rewrite Hfield.
  destruct (attr_eqb (modifier_attr m) attr); [|reflexivity].
  pose proof (snapshot_modifier_value m (pre ++ X :: more)
                (snd (modifiers_out (b + List.length cells) ms
                        (VSelectOperation c f q' l' s' so')) ++ post) n ltac:(lia)) as H.
  rewrite length_app in H. cbn [List.length] in H.
  rewrite <- app_assoc in H. cbn [app] in H. exact H.
Qed.

Lemma snapshot_fields (fs : fields_spec) (n : nat) (more : store) :
  snapshot (S n) (fields_cells fs ++ more) (fields_value fs) = fields_tree fs.
Proof.
  destruct fs as [[f names]|]; [|reflexivity].
  cbn [fields_cells fields_value fields_tree app].
  erewrite snapshot_ref by reflexivity.
  destruct n as [|n]; [reflexivity|].
  rewrite snapshot_list, map_map. f_equal.
  apply map_ext. intros g. apply snapshot_str.
Qed.

Lemma parse_select_tree (fs : fields_spec) (c : string) (ms : list modifier) :
  forallb modifier_ok ms = true ->
  exists (v : value) (st : store),
    parse (select_tokens fs c ms) = Ok v st
    /\ forall n : nat, (select_depth ms <= n)%nat -> snapshot n st v = select_tree fs c ms.
Proof.
  intros Hok. eexists _, _. split; [apply (parse_select fs c ms Hok)|].
  intros n Hn. unfold select_depth in Hn.
  destruct n as [|[|[|n]]]; [lia | lia | lia |].
  erewrite snapshot_ref by apply lookup_cell.
  set (op0 := VSelectOperation (VStr c) (fields_value fs) VNone VNone VNone VNone).
  destruct (modifiers_out_select ms (S (List.length (fields_cells fs)))
              (VStr c) (fields_value fs) VNone VNone VNone VNone)
    as (q & l & s & so & Hout).
  fold op0 in Hout.
  pose proof (fun attr => modifiers_show ms (fields_cells fs) [] []
                            (fst (modifiers_out (S (List.length (fields_cells fs))) ms op0))
                            (VStr c) (fields_value fs) VNone VNone VNone VNone
                            (S n) attr ltac:(lia)) as Hshow.
  cbn [List.length app] in Hshow. rewrite Nat.add_1_r, app_nil_r in Hshow.
  fold op0 in Hshow.
  pose proof (Hshow Aquery) as Hq. pose proof (Hshow Alimit) as Hl.
  pose proof (Hshow Askip) as Hs. pose proof (Hshow Asort) as Hso. clear Hshow.
  rewrite Hout in Hq, Hl, Hs, Hso. cbn [select_field] in Hq, Hl, Hs, Hso.
  rewrite Hout. rewrite snapshot_select.
  rewrite snapshot_str, snapshot_fields, Hq, Hl, Hs, Hso.
  unfold select_tree, field_tree.
  destruct (last_modifier Aquery ms), (last_modifier Alimit ms), (last_modifier Askip ms),
    (last_modifier Asort ms); reflexivity.
Qed.

(** X8.  A SELECT statement with any fields and any modifiers, in any order
    and number, whose WHERE conditions are Expression nodes, parses to a
    SelectOperation with the collection and the fields of the statement, in
    which each of query, limit, skip and sort has the value of the last
    modifier of its kind, and is None when the statement has none. *)
Theorem select_statement_parses (fs : fields_spec) (c : string) (ms : list modifier) :
  forallb modifier_ok ms = true ->
  exists (v : value) (st : store),
    parse (select_tokens fs c ms) = Ok v st
    /\ forall n : nat, (select_depth ms <= n)%nat -> snapshot n st v = select_tree fs c ms.
Proof. exact (parse_select_tree fs c ms). Qed.

Lemma last_modifier_swap (attr : select_attr) (ms1 : list modifier) (m1 m2 : modifier)
      (ms2 : list modifier) :
  modifier_attr m1 <> modifier_attr m2 ->
  last_modifier attr (ms1 ++ m1 :: m2 :: ms2) = last_modifier attr (ms1 ++ m2 :: m1 :: ms2).
Proof.
  intros Hne. induction ms1 as [|m ms1 IH]; cbn [app last_modifier].
  - destruct (last_modifier attr ms2); [reflexivity|].
    destruct (modifier_attr m1), (modifier_attr m2), attr; cbn [attr_eqb];
      first [reflexivity | contradiction Hne; reflexivity].
  - rewrite IH. reflexivity.
Qed.

Lemma select_depth_swap (ms1 : list modifier) (m1 m2 : modifier) (ms2 : list modifier) :
  select_depth (ms1 ++ m1 :: m2 :: ms2) = select_depth (ms1 ++ m2 :: m1 :: ms2).
Proof.
  unfold select_depth. f_equal. rewrite !map_app, !list_max_app. cbn [map list_max fold_right].
  lia.
Qed.

Lemma modifier_ok_swap (ms1 : list modifier) (m1 m2 : modifier) (ms2 : list modifier) :
  forallb modifier_ok (ms1 ++ m1 :: m2 :: ms2) = forallb modifier_ok (ms1 ++ m2 :: m1 :: ms2).
Proof.
  rewrite !forallb_app. cbn [forallb].
  destruct (modifier_ok m1), (modifier_ok m2); reflexivity.
Qed.

(** X13.  Modifiers of different kinds commute: exchanging two neighbours
    that assign different attributes gives a statement that parses to the
    same tree. *)
Theorem modifiers_of_different_kinds_commute (fs : fields_spec) (c : string)
        (ms1 : list modifier) (m1 m2 : modifier) (ms2 : list modifier) :
  modifier_attr m1 <> modifier_attr m2 ->
  forallb modifier_ok (ms1 ++ m1 :: m2 :: ms2) = true ->
  exists (v v' : value) (st st' : store),
    parse (select_tokens fs c (ms1 ++ m1 :: m2 :: ms2)) = Ok v st
    /\ parse (select_tokens fs c (ms1 ++ m2 :: m1 :: ms2)) = Ok v' st'
    /\ forall n : nat,
        (select_depth (ms1 ++ m1 :: m2 :: ms2) <= n)%nat ->
        snapshot n st v = snapshot n st' v'.
Proof.
  intros Hne Hok.
  destruct (parse_select_tree fs c _ Hok) as (v & st & Hp & Ht).
  rewrite modifier_ok_swap in Hok.
  destruct (parse_select_tree fs c _ Hok) as (v' & st' & Hp' & Ht').
  exists v, v', st, st'. split; [exact Hp|]. split; [exact Hp'|].
  intros n Hn. rewrite Ht by exact Hn.
  rewrite Ht' by (rewrite <- select_depth_swap; exact Hn).
  unfold select_tree, field_tree.
  rewrite !(last_modifier_swap _ ms1 m1 m2 ms2 Hne). reflexivity.
Qed.

Lemma modifiers_of_different_kinds_commute_witness :
  exists (v v' : value) (st st' : store),
    parse [SELECT; STAR; FROM; SYMBOL "c"; SORT; SYMBOL "a"; DESC; LIMIT; INTEGER 3;
           WHERE; SYMBOL "x"; SKIP; INTEGER 1]
    = Ok v st
    /\ parse [SELECT; STAR; FROM; SYMBOL "c"; SORT; SYMBOL "a"; DESC;
              WHERE; SYMBOL "x"; LIMIT; INTEGER 3; SKIP; INTEGER 1]
       = Ok v' st'
    /\ forall n : nat, (4 <= n)%nat -> snapshot n st v = snapshot n st' v'.
Proof.
  apply (modifiers_of_different_kinds_commute
           None "c" [MSort ("a", DirDesc) []] (MLimit 3)
           (MWhere (EOperand (PAtom (ASymbol "x")))) [MSkip 1]).
  - discriminate.
  - reflexivity.
Defined.




Lemma select_statement_parses_witness :
  exists (v : value) (st : store),
    parse [SELECT; SYMBOL "a"; COMMA; SYMBOL "b"; FROM; SYMBOL "t"; LIMIT; INTEGER 1;
           WHERE; SYMBOL "x"; GT; INTEGER 1; LIMIT; INTEGER 2]
    = Ok v st
    /\ forall n : nat,
        (4 <= n)%nat ->
        snapshot n st v
        = VSelectOperation (VStr "t") (VList [VStr "a"; VStr "b"])
            (VComparison (VSymbol (VStr "x")) (VStr ">") (VInt 1)) (VInt 2) VNone VNone.
Proof.
  apply (select_statement_parses
           (Some ("a", ["b"])) "t"
           [MLimit 1;
            MWhere (EBin (PAtom (ASymbol "x")) OpGt ">" (EOperand (PAtom (AInteger 1))));
            MLimit 2]).
  reflexivity.
Defined.

(* ===================================================================== *)
(** ** AGGREGATE statements *)
(* ===================================================================== *)

Lemma clause_la_entry (la : string) : clause_la la -> closes_entry_la la.
Proof. unfold clause_la, closes_entry_la. cbn [In]. intros [->| ->]; tauto. Qed.

Lemma gclauses_lookahead (cls : list gclause) :
  clause_la (lookahead_type (flat_map gclause_tokens cls)).
Proof. destruct cls; [right | left]; reflexivity. Qed.

Lemma table_clause (la : string) :
  clause_la la -> action_at parser 75 la = Some (Reduce 31).
Proof. intros [->| ->]; vm_compute; reflexivity. Qed.

Lemma callable_project_stage (p0 k c : value) (stages : list value) (more1 more2 : store)
      (nes : list value) :
  forallb is_named_expression nes = true ->
  callable 31 [p0; VRef 1; k;
               VRef (List.length (VList stages :: VAggregateOperation c (VRef 0) :: more1))]
           (VList stages :: VAggregateOperation c (VRef 0) :: more1 ++ VList nes :: more2)
  = Ok (VRef 1)
       (VList (stages ++ [VAggregateCmdProject
                            (VRef (List.length (VList stages
                                                      :: VAggregateOperation c (VRef 0)
                                                      :: more1)))])
              :: VAggregateOperation c (VRef 0) :: more1 ++ VList nes :: more2).
Proof.
  intros Hnes. change (callable 31) with p_operation_aggregate_project.
  rewrite (p_operation_aggregate_project_appends _ 1 0 _ c p0 k stages nes);
    [reflexivity | reflexivity | reflexivity | | exact Hnes].
  exact (lookup_cell (VList stages :: VAggregateOperation c (VRef 0) :: more1) more2
                     (VList nes)).
Qed.

Section AggregateRuns.
Local Notation "'run'" := (parse_loop Productions callable p_error parser).

(** One PROJECT clause: its cells are added, and one stage that refers to
    its list is appended to the pipeline. *)
Lemma run_gclause (cl : gclause) (c : value) (stages : list value) (more : store)
      (rest : list LexToken) (log log' : list nat) (fuel : nat) :
  clause_la (lookahead_type rest) ->
  drop_log (run (gclause_steps cl + fuel) [9; 0]%nat [VRef 1; VNone]
                (gclause_tokens cl ++ rest) log
                (VList stages :: VAggregateOperation c (VRef 0) :: more))
  = drop_log (run fuel [9; 0]%nat [VRef 1; VNone] rest log'
                  (VList (stages
                            ++ [VAggregateCmdProject
                                  (VRef (gclause_addr (S (S (List.length more))) cl))])
                         :: VAggregateOperation c (VRef 0)
                         :: more ++ gclause_cells (S (S (List.length more))) cl)).
Proof.
  intros Hla. destruct cl as [x xs].
  pose proof (clause_la_entry _ Hla) as Hla1.
  pose proof (nentries_lookahead xs rest Hla1) as Hla2.
  destruct (table_entry _ Hla2) as (_ & _ & H49 & _).
  destruct reads_syntax as (_ & _ & _ & Hx & Hxs).
  unfold gclause_steps, gclause_tokens, gclause_cells, gclause_addr. cbn [fst snd app Nat.add].
  sh look.
  rewrite <- !app_assoc, <- Nat.add_assoc.
  rewrite (Hx x XProject _ _ _ _ [] _ _ eq_refl Hla2).
  cbn [Nat.add ectx_state ectx_entry_state List.length].
  set (b := S (S (List.length more))).
  destruct (nentry_out_named b x) as (n & v & Hn). rewrite Hn.
  rd ltac:(exact H49) ltac:(apply callable_entries_one) look.
  rewrite <- Nat.add_assoc.
  rewrite (Hxs xs InProject _ _ _ _ []
               ((VList stages :: VAggregateOperation c (VRef 0) :: more)
                  ++ snd (nentry_out b x)) [] _ _ Hla1).
  cbn [Nat.add holder_list_state holder_state].
  pose proof (nentries_out_named xs
                (List.length ((VList stages :: VAggregateOperation c (VRef 0) :: more)
                                ++ snd (nentry_out b x)) + 1)) as Hnamed.
  cbn [app List.length Nat.add] in Hnamed |- *.
  rd ltac:(apply table_clause; exact Hla)
     ltac:(apply (callable_project_stage _ _ c stages (more ++ snd (nentry_out b x)) _
                    (VNamedExpression n v :: _));
           cbn [forallb is_named_expression andb]; exact Hnamed)
     look.
  cbn [List.length]. rewrite !length_app, !Nat.add_1_r. subst b. cbn [Nat.add].
  rewrite <- !app_assoc. cbn [app].
  apply run_log_irrelevant.
Qed.

Lemma run_gclauses (cls : list gclause) :
  forall (c : value) (stages : list value) (more : store) (rest : list LexToken)
         (log log' : list nat) (fuel : nat),
    clause_la (lookahead_type rest) ->
    drop_log (run (gclauses_steps cls + fuel) [9; 0]%nat [VRef 1; VNone]
                  (flat_map gclause_tokens cls ++ rest) log
                  (VList stages :: VAggregateOperation c (VRef 0) :: more))
    = drop_log (run fuel [9; 0]%nat [VRef 1; VNone] rest log'
                    (VList (stages ++ fst (gclauses_out (S (S (List.length more))) cls))
                           :: VAggregateOperation c (VRef 0)
                           :: more ++ snd (gclauses_out (S (S (List.length more))) cls))).
Proof.
  induction cls as [|cl cls IH]; intros c stages more rest log log' fuel Hla.
  - cbn [flat_map gclauses_steps gclauses_out fst snd app Nat.add].
    rewrite !app_nil_r. apply run_log_irrelevant.
  - cbn [flat_map gclauses_steps gclauses_out fst snd].
    rewrite <- app_assoc, <- Nat.add_assoc.
    assert (Hla' : clause_la (lookahead_type (flat_map gclause_tokens cls ++ rest)))
      by (destruct cls; [exact Hla | left; reflexivity]).
    rewrite (run_gclause cl c stages more _ _ [] _ Hla').
    rewrite (IH c _ _ rest _ log' fuel Hla).
    rewrite length_app. cbn [Nat.add].
    rewrite <- !app_assoc. cbn [app]. reflexivity.
Qed.
End AggregateRuns.

Lemma gclauses_steps_bound (cls : list gclause) :
  (gclauses_steps cls <= 4 * List.length (flat_map gclause_tokens cls))%nat.
Proof.
  induction cls as [|[x xs] cls IH]; [cbn; lia|].
  cbn [gclauses_steps flat_map].
  unfold gclause_steps, gclause_tokens at 1. cbn [fst snd List.length app].
  rewrite !length_app.
  destruct syntax_steps_bound as (_ & _ & _ & Hx & Hxs).
  specialize (Hx x). specialize (Hxs xs). lia.
Qed.

Lemma callable_aggregate (p0 k : value) (c : string) :
  callable 30 [p0; k; VStr c] []
  = Ok (VRef 1) [VList []; VAggregateOperation (VStr c) (VRef 0)].
Proof. reflexivity. Qed.

(** An AGGREGATE statement with any number of PROJECT clauses of any named
    expressions. *)
Lemma parse_aggregate_clauses (c : string) (cls : list gclause) :
  parse (aggregate_tokens c cls)
  = Ok (VRef 1)
       (VList (fst (gclauses_out 2 cls))
              :: VAggregateOperation (VStr c) (VRef 0) :: snd (gclauses_out 2 cls)).
Proof.
  unfold parse, parse_from.
  destruct (fuel_split (parse_fuel (aggregate_tokens c cls)) (3 + (gclauses_steps cls + 3)))
    as [extra ->].
  { unfold parse_fuel, aggregate_tokens. cbn [List.length].
    pose proof (gclauses_steps_bound cls). lia. }
  unfold aggregate_tokens. cbn [Nat.add].
  sh look. sh look.
  rd ltac:(destruct cls; look) ltac:(apply callable_aggregate) look.
  rewrite <- Nat.add_assoc.
  rewrite <- (app_nil_r (flat_map gclause_tokens cls)).
  rewrite (run_gclauses cls _ [] [] [] _ [] _ (or_intror eq_refl)).
  cbn [Nat.add app List.length].
  rd look ltac:(reflexivity) look.
  rd look ltac:(reflexivity) look.
  erewrite parse_loop_accept by look.
  reflexivity.
Qed.

Lemma snapshot_nentry_named (x : nentry) (pre post : store) (n : nat) :
  (nentry_depth x <= n)%nat ->
  snapshot n (pre ++ snd (nentry_out (List.length pre) x) ++ post)
           (fst (nentry_out (List.length pre) x))
  = nentry_named_tree x.
Proof.
  intros Hn. destruct shows_syntax as (_ & He & _).
  destruct x as [k e|e k]; cbn [nentry_depth nentry_out nentry_named_tree fst snd] in *;
    (destruct n as [|n]; [lia|]);
    change (snapshot (S n) ?st (VNamedExpression ?a ?b))
      with (VNamedExpression (snapshot n st a) (snapshot n st b));
    rewrite snapshot_str, He by lia; reflexivity.
Qed.

Lemma snapshot_nentries_named (xs : nentries) :
  forall (pre post : store) (n : nat),
    (nentries_depth xs <= n)%nat ->
    map (snapshot n (pre ++ snd (nentries_out (List.length pre) xs) ++ post))
        (fst (nentries_out (List.length pre) xs))
    = nentries_named_trees xs.
Proof.
  induction xs as [|x xs IH]; intros pre post n Hn; [reflexivity|].
  cbn [nentries_depth] in Hn.
  cbn [nentries_out nentries_named_trees fst snd map]. f_equal.
  - rewrite <- app_assoc. apply snapshot_nentry_named. lia.
  - rewrite <- (length_app pre), app_shift. apply IH. lia.
Qed.

Lemma snapshot_gclause (cl : gclause) (pre post : store) (n : nat) :
  (3 + gclause_depth cl <= n)%nat ->
  snapshot n (pre ++ gclause_cells (List.length pre) cl ++ post)
           (VAggregateCmdProject (VRef (gclause_addr (List.length pre) cl)))
  = gclause_tree cl.
Proof.
  intros Hn. destruct cl as [x xs]. unfold gclause_depth in Hn.
  unfold gclause_cells, gclause_addr, gclause_tree. cbn [fst snd] in *.
  destruct n as [|[|[|n]]]; [lia | lia | lia |].
  change (snapshot (S (S (S n))) ?st (VAggregateCmdProject ?a))
    with (VAggregateCmdProject (snapshot (S (S n)) st a)).
  f_equal. rewrite <- (length_app pre).
  erewrite snapshot_ref
    by (rewrite <- app_assoc, app_assoc; cbn [app]; apply lookup_cell).
  rewrite snapshot_list. f_equal. cbn [map]. f_equal.
  - rewrite <- app_assoc. apply snapshot_nentry_named. lia.
  - pose proof (snapshot_nentries_named xs
                  (pre ++ snd (nentry_out (List.length pre) x)
                       ++ [VList (fst (nentry_out (List.length pre) x)
                                      :: fst (nentries_out
                                                (S (List.length
                                                      (pre ++ snd (nentry_out
                                                                     (List.length pre) x))))
                                                xs))])
                  post n) as H.
    rewrite !length_app in H. cbn [List.length] in H.
    rewrite Nat.add_assoc, Nat.add_1_r in H.
    rewrite length_app.
    rewrite <- !app_assoc in H. cbn [app] in H. rewrite <- !app_assoc. cbn [app].
    apply H. lia.
Qed.

Lemma snapshot_gclauses (cls : list gclause) :
  forall (pre post : store) (n : nat),
    (3 + list_max (map gclause_depth cls) <= n)%nat ->
    map (snapshot n (pre ++ snd (gclauses_out (List.length pre) cls) ++ post))
        (fst (gclauses_out (List.length pre) cls))
    = map gclause_tree cls.
Proof.
  induction cls as [|cl cls IH]; intros pre post n Hn; [reflexivity|].
  change (list_max (map gclause_depth (cl :: cls)))
    with (Nat.max (gclause_depth cl) (list_max (map gclause_depth cls))) in Hn.
  cbn [gclauses_out fst snd map]. f_equal.
  - rewrite <- app_assoc. apply snapshot_gclause. lia.
  - rewrite <- (length_app pre), app_shift. apply IH. lia.
Qed.

(** X10.  An AGGREGATE statement with any number of PROJECT clauses, each a
    list of named expressions of either form over any expressions, parses to
    an AggregateOperation whose pipeline has one stage per clause, in the
    order of the clauses, each holding the named tuples of its own clause in
    source order. *)
Theorem aggregate_statement_parses (c : string) (cls : list gclause) :
  exists (v : value) (st : store),
    parse (aggregate_tokens c cls) = Ok v st
    /\ forall n : nat,
        (aggregate_depth cls <= n)%nat -> snapshot n st v = aggregate_tree c cls.
Proof.
  eexists _, _. split; [apply parse_aggregate_clauses|].
  intros n Hn. unfold aggregate_depth in Hn.
  destruct n as [|[|[|[|n]]]]; [lia | lia | lia | lia |].
  erewrite snapshot_ref by reflexivity.
  rewrite snapshot_aggregate, snapshot_str.
  erewrite snapshot_ref by reflexivity.
  rewrite snapshot_list. unfold aggregate_tree. do 2 f_equal.
  pose proof (snapshot_gclauses cls
                [VList (fst (gclauses_out 2 cls)); VAggregateOperation (VStr c) (VRef 0)]
                [] n ltac:(lia)) as H.
  cbn [List.length app] in H. rewrite app_nil_r in H. exact H.
Qed.

(* ===================================================================== *)
(** ** How the tables settle the conflicts of the operators *)
(* ===================================================================== *)

Lemma binop_kind_operator (o : binop) : In (binop_kind o) operators.
Proof. destruct o; cbn; tauto. Qed.

Lemma binop_rule_operator (o : binop) : existsb (Nat.eqb (binop_rule o)) operator_rules = true.
Proof. destruct o; reflexivity. Qed.

(** X11.  In no state does a binary operator as the next token make the
    parser reduce the rule of a binary operator or of NOT: the operator is
    shifted wherever an expression is complete, so nothing ever groups to
    the left of an operator without parentheses. *)
Theorem no_operator_reduced_before_an_operator :
  (forall (s : nat) (o o' : binop),
      action_at parser s (binop_kind o) <> Some (Reduce (binop_rule o'))
      /\ action_at parser s (binop_kind o) <> Some (Reduce 21))
  /\ (forall (c : ectx) (o : binop),
        action_at parser (ectx_expr_state c) (binop_kind o) = Some (Shift (op_state o))).
Proof.
  split; [|apply table_expr_operator].
  assert (Hall : forallb keeps_operators_open (lr_action parser) = true)
    by (vm_compute; reflexivity).
  intros s o o'. unfold action_at.
  destruct (lr_action parser !! s) as [row|] eqn:E; [|split; discriminate].
  rewrite forallb_forall in Hall.
  specialize (Hall row (proj1 (list_elem_of_In _ _) (list_elem_of_lookup_2 _ _ _ E))).
  unfold keeps_operators_open in Hall. rewrite forallb_forall in Hall.
  specialize (Hall _ (binop_kind_operator o)).
  split; intros H; rewrite H in Hall.
  - rewrite binop_rule_operator in Hall. discriminate Hall.
  - discriminate Hall.
Qed.

(* ===================================================================== *)
(** ** LIMIT and SKIP *)
(* ===================================================================== *)





Section Counters.
Local Notation "'run'" := (parse_loop Productions callable p_error parser).

End Counters.



(* ===================================================================== *)
(** ** The actions that extend a list *)
(* ===================================================================== *)

Lemma append_in_place (st : store) (a : nat) (items : list value) (x : value) :
  st !! a = Some (VList items) ->
  append (VRef a) x st = Ok tt (<[a := VList (items ++ [x])]> st).
Proof. intros H. unfold append. rewrite H. reflexivity. Qed.

Lemma append_not_a_list (v x : value) (st : store) :
  (forall b l, v = VRef b -> st !! b <> Some (VList l)) ->
  append v x st = Raise AttributeError.
Proof.
  intros H. destruct v; try reflexivity. unfold append.
  destruct (st !! a) as [[]|] eqn:E; try reflexivity.
  contradiction (H a items eq_refl). 
Qed.

(** X14.  The reductions that extend a list (of field names, of sort items,
    of arguments, of named expressions) return the very list object they
    received, with the new element added at its end, and touch no other
    cell; the list of named expressions refuses, by its assertion, an
    element that is not a named tuple; and when slot 1 is not a list (None,
    a string, a number, a tuple, an operation) the append raises
    AttributeError. *)
Theorem list_actions_extend_in_place (st : store) (a : nat) (items : list value)
        (p0 k x : value) :
  st !! a = Some (VList items) ->
  p_symbol_list [p0; VRef a; k; x] st = Ok (VRef a) (<[a := VList (items ++ [x])]> st)
  /\ p_sort_spec_list [p0; VRef a; k; x] st = Ok (VRef a) (<[a := VList (items ++ [x])]> st)
  /\ p_expression_list [p0; VRef a; k; x] st = Ok (VRef a) (<[a := VList (items ++ [x])]> st)
  /\ (is_named_expression x = true ->
      p_named_expression_list [p0; VRef a; k; x] st
      = Ok (VRef a) (<[a := VList (items ++ [x])]> st))
  /\ (is_named_expression x = false ->
      p_named_expression_list [p0; VRef a; k; x] st = Raise AssertionError)
  /\ (forall v : value,
         (forall b l, v = VRef b -> st !! b <> Some (VList l)) ->
         p_symbol_list [p0; v; k; x] st = Raise AttributeError
         /\ p_sort_spec_list [p0; v; k; x] st = Raise AttributeError
         /\ p_expression_list [p0; v; k; x] st = Raise AttributeError).
Proof.
  intros H.
  unfold p_symbol_list, p_sort_spec_list, p_expression_list, p_named_expression_list,
    bind, getitem.
  cbn [lookup list_lookup ret].
  rewrite (append_in_place st a items x H).
  repeat split.
  - intros ->. cbn [assert ret]. rewrite (append_in_place st a items x H). reflexivity.
  - intros ->. reflexivity.
  - rewrite append_not_a_list by assumption. reflexivity.
  - rewrite append_not_a_list by assumption. reflexivity.
  - rewrite append_not_a_list by assumption. reflexivity.
Qed.

Lemma list_actions_extend_in_place_witness :
  p_symbol_list [VNone; VRef 1; VStr ","; VStr "b"]
                [VStr "other"; VList [VStr "a"]; VInt 7]
  = Ok (VRef 1) [VStr "other"; VList [VStr "a"; VStr "b"]; VInt 7].
Proof.
  exact (proj1 (list_actions_extend_in_place
                  [VStr "other"; VList [VStr "a"]; VInt 7] 1 [VStr "a"]
                  VNone (VStr ",") (VStr "b") eq_refl)).
Defined.

(* ===================================================================== *)
(** ** The driver on an arbitrary input *)
(* ===================================================================== *)

(** *** The exceptions of the actions *)

Lemma clean_ret {A : Type} (a : A) : clean (ret a).
Proof. intros st e H. discriminate H. Qed.

Lemma clean_raise {A : Type} (x : exn) : action_exn x = true -> clean (@raise A x).
Proof. intros Hx st e H. inversion H. subst. exact Hx. Qed.

Lemma clean_bind {A B : Type} (m : M A) (k : A -> M B) :
  clean m -> (forall a, clean (k a)) -> clean (bind m k).
Proof.
  intros Hm Hk st e H. unfold bind in H. destruct (m st) as [a st'|x] eqn:E.
  - exact (Hk a st' e H).
  - inversion H. subst. exact (Hm st e E).
Qed.

Lemma clean_getitem (p : list value) (i : nat) : clean (getitem p i).
Proof.
  unfold getitem. destruct (p !! i); [apply clean_ret | apply clean_raise; reflexivity].
Qed.

Lemma clean_assert (c : bool) : clean (assert c).
Proof. destruct c; [apply clean_ret | apply clean_raise; reflexivity]. Qed.

Lemma clean_alloc (o : value) : clean (alloc o).
Proof. intros st e H. discriminate H. Qed.

Lemma clean_load (v : value) : clean (load v).
Proof.
  intros st e H. unfold load in H. destruct (deref st v); inversion H. reflexivity.
Qed.

Lemma clean_append (lst x : value) : clean (append lst x).
Proof.
  intros st e H. unfold append in H.
  destruct lst; try (inversion H; reflexivity).
  destruct (st !! a) as [[]|]; inversion H; reflexivity.
Qed.

Lemma clean_iter (v : value) : clean (iter v).
Proof.
  unfold iter. apply clean_bind; [apply clean_load|].
  intros []; first [apply clean_ret | apply clean_raise; reflexivity].
Qed.

Lemma clean_as_pair (v : value) : clean (as_pair v).
Proof.
  unfold as_pair. apply clean_bind; [apply clean_iter|].
  intros [|k [|x [|y l]]]; first [apply clean_ret | apply clean_raise; reflexivity].
Qed.

Lemma clean_dict_update (pairs : list value) :
  forall d : gmap string value, clean (dict_update d pairs).
Proof.
  induction pairs as [|kv rest IH]; intros d; cbn [dict_update]; [apply clean_ret|].
  apply clean_bind; [apply clean_as_pair|].
  intros [k x]. cbn [fst snd].
  destruct k; first [apply IH | apply clean_raise; reflexivity].
Qed.

Lemma clean_dict (v : value) : clean (dict v).
Proof.
  unfold dict. apply clean_bind; [apply clean_iter|]. intros pairs.
  apply clean_bind; [apply clean_dict_update|]. intros d. apply clean_ret.
Qed.

Lemma clean_subscript (pick : string -> option ascii) (v : value) : clean (subscript pick v).
Proof.
  unfold subscript. destruct v; try (apply clean_raise; reflexivity).
  destruct (pick s); [apply clean_ret | apply clean_raise; reflexivity].
Qed.

Lemma clean_setattr (op : value) (attr : select_attr) (x : value) : clean (setattr op attr x).
Proof.
  intros st e H. unfold setattr in H.
  destruct op; try (inversion H; reflexivity).
  destruct (st !! a) as [[]|]; inversion H; reflexivity.
Qed.

Lemma clean_getattr_pipeline (op : value) : clean (getattr_pipeline op).
Proof.
  unfold getattr_pipeline. apply clean_bind; [apply clean_load|].
  intros []; first [apply clean_ret | apply clean_raise; reflexivity].
Qed.

Lemma clean_isinstance_list_tuple (v : value) : clean (isinstance_list_tuple v).
Proof. intros st e H. discriminate H. Qed.

Lemma clean_isinstance_SelectOperation (v : value) : clean (isinstance_SelectOperation v).
Proof. intros st e H. discriminate H. Qed.

Lemma clean_getattr_name (i : value) : clean (getattr_name i).
Proof. destruct i; first [apply clean_ret | apply clean_raise; reflexivity]. Qed.

Lemma clean_getattr_expression (i : value) : clean (getattr_expression i).
Proof. destruct i; first [apply clean_ret | apply clean_raise; reflexivity]. Qed.

Lemma clean_for_each {A B : Type} (f : A -> M B) (l : list A) :
  (forall x, clean (f x)) -> clean (for_each f l).
Proof.
  intros Hf. induction l as [|x l IH]; cbn [for_each]; [apply clean_ret|].
  apply clean_bind; [apply Hf|]. intros y.
  apply clean_bind; [exact IH|]. intros ys. apply clean_ret.
Qed.

Lemma clean_AggregateOperation (c : value) : clean (AggregateOperation c).
Proof.
  unfold AggregateOperation. apply clean_bind; [apply clean_alloc|].
  intros pipeline. apply clean_alloc.
Qed.

Ltac clean_step :=
  first [ apply clean_ret
        | apply clean_getitem
        | apply clean_assert
        | apply clean_alloc
        | apply clean_append
        | apply clean_iter
        | apply clean_dict
        | apply clean_subscript
        | apply clean_setattr
        | apply clean_getattr_pipeline
        | apply clean_isinstance_list_tuple
        | apply clean_isinstance_SelectOperation
        | apply clean_getattr_name
        | apply clean_getattr_expression
        | apply clean_AggregateOperation
        | apply clean_for_each; intros
        | apply clean_bind; [|intros]
        | apply clean_raise; reflexivity
        | match goal with
          | |- clean (if ?b then _ else _) => destruct b
          | |- clean (match ?x with _ => _ end) => destruct x
          end ].

Lemma grammar_clean :
  Forall (fun r => forall p : list value, clean (rule_func r p)) grammar.
Proof.
  unfold grammar.
  repeat (apply List.Forall_cons; [cbn [rule_func]; intros p|]); [..|apply List.Forall_nil];
    unfold p_statement, p_operation, p_expression_in_parens, p_expression_base_type,
      p_expression_symbol, p_expression_operation, p_expression_comparison,
      p_expression_logical_and, p_expression_logical_or, p_expression_not,
      p_expression_call, p_expression_list_one, p_expression_list,
      p_named_expression_as, p_named_expression, p_named_expression_list_one,
      p_named_expression_list, p_operation_aggregate, p_operation_aggregate_project,
      p_operation_select_base, p_operation_select_condition, p_operation_select_limit,
      p_operation_select_skip, p_operation_select_sort, p_fields_spec_star,
      p_fields_spec_names, p_symbol_list_one, p_symbol_list, p_sort_direction_default,
      p_sort_direction_asc, p_sort_direction_desc, p_sort_spec_item, p_sort_spec_one,
      p_sort_spec_list, p_base_type, p_string, p_map_empty, p_map,
      Symbol, Operation, Comparison, LogicalAnd, LogicalOr, LogicalNot, FunctionCall,
      AggregateCmdProject, Map, SelectOperation, named_expression;
    repeat clean_step.
Qed.

Lemma callable_clean (r : nat) (p : list value) : clean (callable r p).
Proof.
  unfold callable. destruct r as [|r]; [apply clean_raise; reflexivity|].
  destruct (grammar !! r) as [x|] eqn:E; [|apply clean_raise; reflexivity].
  pose proof grammar_clean as H. rewrite List.Forall_forall in H.
  apply H. apply list_elem_of_In. exact (list_elem_of_lookup_2 _ _ _ E).
Qed.

(** *** The state stack *)

Lemma action_at_row (s : nat) (a : string) (x : action) :
  action_at parser s a = Some x -> (s < nstates)%nat /\ In (a, x) (action_row s).
Proof.
  unfold action_at, action_row, nstates. intros H.
  destruct (lr_action parser !! s) as [row|] eqn:E; [|discriminate].
  split; [exact (lookup_lt_Some _ _ _ E) | exact (assoc_In _ _ _ H)].
Qed.

Lemma goto_lengths : List.length (lr_goto parser) = nstates.
Proof. reflexivity. Qed.

Lemma goto_at_row (s : nat) (A : string) (t : nat) :
  goto_at parser s A = Some t -> (s < nstates)%nat /\ In (A, t) (goto_row s).
Proof.
  unfold goto_at, goto_row. intros H.
  destruct (lr_goto parser !! s) as [row|] eqn:E; [|discriminate].
  split; [rewrite <- goto_lengths; exact (lookup_lt_Some _ _ _ E) | exact (assoc_In _ _ _ H)].
Qed.

Lemma edge_shift (s : nat) (a : string) (t : nat) :
  action_at parser s a = Some (Shift t) -> edge s t = true.
Proof.
  intros H. destruct (action_at_row _ _ _ H) as [_ Hin].
  unfold edge. apply orb_true_iff. left. apply existsb_exists.
  exists (a, Shift t). split; [exact Hin | cbn [snd]; apply Nat.eqb_refl].
Qed.

Lemma edge_goto (s : nat) (A : string) (t : nat) :
  goto_at parser s A = Some t -> edge s t = true.
Proof.
  intros H. destruct (goto_at_row _ _ _ H) as [_ Hin].
  unfold edge. apply orb_true_iff. right. apply existsb_exists.
  exists (A, t). split; [exact Hin | cbn [snd]; apply Nat.eqb_refl].
Qed.

Lemma edge_source (p t : nat) : edge p t = true -> (p < nstates)%nat.
Proof.
  unfold edge, action_row, goto_row. intros H.
  destruct (lr_action parser !! p) as [row|] eqn:E; [exact (lookup_lt_Some _ _ _ E)|].
  destruct (lr_goto parser !! p) as [row'|] eqn:E'.
  - rewrite <- goto_lengths. exact (lookup_lt_Some _ _ _ E').
  - discriminate H.
Qed.

Lemma edge_preds (p t : nat) : edge p t = true -> In p (preds_of t).
Proof.
  intros H. unfold preds_of. apply filter_In. split; [|exact H].
  apply in_seq. split; [apply Nat.le_0_l | exact (edge_source _ _ H)].
Qed.

Lemma path_cons (t s : nat) (ss : list nat) :
  edge s t = true -> path (s :: ss) -> path (t :: s :: ss).
Proof. intros He Hp. cbn [path]. split; [exact He | exact Hp]. Qed.

(** Removing the states of a right-hand side from a path leaves a path whose
    last state has one of the gotos the table check went through. *)
Lemma landing_sound (A : string) (k : nat) :
  forall (s : nat) (ss : list nat),
    path (s :: ss) ->
    (forall x, In x (landing k s A) -> x <> None) ->
    exists (s' : nat) (ss' : list nat) (t : nat),
      drop k (s :: ss) = s' :: ss'
      /\ path (s' :: ss')
      /\ goto_at parser s' A = Some t
      /\ In (Some t) (landing k s A).
Proof.
  induction k as [|k IH]; intros s ss Hp Hall.
  - cbn [landing] in *. destruct (goto_at parser s A) as [t|] eqn:E.
    + exists s, ss, t. repeat split; [exact Hp | exact E | left; reflexivity].
    + contradiction (Hall None); [left|]; reflexivity.
  - cbn [landing] in *. destruct (Nat.eqb_spec s 0) as [->|Hs].
    + contradiction (Hall None); [left|]; reflexivity.
    + destruct ss as [|p ss]; [cbn [path] in Hp; contradiction|].
      destruct Hp as [He Hp]. pose proof (edge_preds _ _ He) as Hin.
      destruct (IH p ss Hp) as (s' & ss' & t & Hd & Hp' & Hg & Ht).
      * intros x Hx. apply Hall. apply in_flat_map. exists p. split; assumption.
      * exists s', ss', t. repeat split; try assumption.
        apply in_flat_map. exists p. split; assumption.
Qed.

Lemma forallb_seq (f : nat -> bool) (n s : nat) :
  forallb f (seq 0 n) = true -> (s < n)%nat -> f s = true.
Proof.
  intros H Hs. rewrite forallb_forall in H. apply H. apply in_seq.
  split; [apply Nat.le_0_l | exact Hs].
Qed.

(** Every entry of the action table passes the check. *)
Lemma table_safe :
  forallb (fun s => forallb (entry_safe s) (action_row s)) (seq 0 nstates) = true.
Proof. vm_compute. reflexivity. Qed.

Lemma table_entry_safe (s : nat) (a : string) (x : action) :
  action_at parser s a = Some x -> entry_safe s (a, x) = true.
Proof.
  intros H. destruct (action_at_row _ _ _ H) as [Hs Hin].
  pose proof (forallb_seq _ nstates s table_safe Hs) as Ht. cbv beta in Ht.
  rewrite forallb_forall in Ht. apply Ht. exact Hin.
Qed.

(** What a reduction does to the stack. *)
Lemma reduce_lands (s : nat) (ss : list nat) (a : string) (r : nat) :
  path (s :: ss) ->
  action_at parser s a = Some (Reduce r) ->
  exists (t : nat) (ss' : list nat),
    goto_at parser (hd O (drop (List.length (rule_rhs Productions r)) (s :: ss)))
            (rule_name Productions r) = Some t
    /\ drop (List.length (rule_rhs Productions r)) (s :: ss) = ss'
    /\ path (t :: ss')
    /\ (potential (t :: ss') < potential (s :: ss))%nat.
Proof.
  intros Hp Ha. pose proof (table_entry_safe _ _ _ Ha) as Hs.
  unfold entry_safe in Hs. cbn [snd] in Hs. rewrite forallb_forall in Hs.
  generalize dependent (List.length (rule_rhs Productions r)). intros k Hs.
  generalize dependent (rule_name Productions r). intros A Hs.
  destruct (landing_sound A k s ss Hp) as (s' & ss' & t & Hd & Hp' & Hg & Ht).
  - intros x Hx E. subst x. specialize (Hs None Hx). discriminate Hs.
  - specialize (Hs (Some t) Ht). apply Nat.ltb_lt in Hs.
    exists t, (s' :: ss'). rewrite Hd. cbn [hd].
    split; [exact Hg|]. split; [reflexivity|].
    split; [apply path_cons; [exact (edge_goto _ _ _ Hg) | exact Hp']|].
    assert (Hlen : (List.length (s' :: ss') + k <= List.length (s :: ss))%nat).
    { assert (Hn : (List.length (drop k (s :: ss)) <> 0)%nat) by (rewrite Hd; discriminate).
      rewrite <- Hd. rewrite length_drop in *. lia. }
    unfold potential. cbn [hd]. cbn [List.length] in *. lia.
Qed.

Section Safe.
Local Notation "'run'" := (parse_loop Productions callable p_error parser).

Lemma good_more {A : Type} (tok : LexToken) (input : list LexToken) (r : result A) :
  good input r -> good (tok :: input) r.
Proof.
  destruct r as [|[[t|]| | | | | | | |]]; cbn [good]; try exact (fun H => H).
  intros H. right. exact H.
Qed.

Lemma good_action {A : Type} (input : list LexToken) (e : exn) :
  action_exn e = true -> good input (@Raise A e).
Proof. destruct e; cbn [good action_exn]; first [discriminate | exact (fun H => H)]. Qed.

(** A run from a path of the automaton, with a budget above what is left to
    do, ends with a value, with the error function's exception, or with an
    exception of an action. *)
Lemma run_good (fuel : nat) :
  forall (ss : list nat) (vs : list value) (input : list LexToken)
         (log : list nat) (st : store),
    path ss ->
    (steps_left ss input < fuel)%nat ->
    good input (run fuel ss vs input log st).
Proof.
  induction fuel as [|fuel IH]; intros ss vs input log st Hp Hf; [lia|].
  destruct ss as [|s ss]; [contradiction Hp|].
  cbn [parse_loop hd].
  destruct (action_at parser s (lookahead_type input)) as [[t|r|]|] eqn:Ha.
  - destruct input as [|tok rest]; [exact eq_refl|].
    apply good_more. apply IH.
    + apply path_cons; [exact (edge_shift _ _ _ Ha) | exact Hp].
    + pose proof (table_entry_safe _ _ _ Ha) as Hs.
      unfold entry_safe in Hs. cbn [snd] in Hs. apply Nat.ltb_lt in Hs.
      unfold steps_left, potential, shift_cost in *. cbn [hd List.length] in *. lia.
  - unfold bind. destruct (callable r _ st) as [v st'|e] eqn:Hc.
    + destruct (reduce_lands s ss _ r Hp Ha) as (t & ss' & Hg & Hd & Hp' & Hlt).
      rewrite Hg, Hd. apply IH; [exact Hp'|].
      unfold steps_left in *. lia.
    + apply good_action. exact (callable_clean _ _ _ _ Hc).
  - exact I.
  - unfold bind, p_error, raise. destruct input as [|tok rest]; cbn [head good].
    + exact I.
    + left. reflexivity.
Qed.

Lemma start_path : path [O].
Proof. reflexivity. Qed.

Lemma start_steps_left (input : list LexToken) (extra : nat) :
  (steps_left [O] input < extra + parse_fuel input)%nat.
Proof.
  unfold steps_left, potential, parse_fuel, shift_cost. cbn [hd List.length].
  change (weight weights 0) with 1%nat. lia.
Qed.

Lemma good_not_OutOfFuel {A : Type} (input : list LexToken) (r : result A) :
  good input r -> r <> Raise OutOfFuel.
Proof. intros H E. subst r. discriminate H. Qed.

Lemma parse_from_good (input : list LexToken) : good input (parse_from [] input).
Proof.
  unfold parse_from. apply run_good; [exact start_path | exact (start_steps_left input 0)].
Qed.

(** The budget plays no role. *)
Lemma parse_any_budget (input : list LexToken) (extra : nat) :
  run (extra + parse_fuel input) [O] [VNone] input [] [] = parse_from [] input.
Proof.
  unfold parse_from. apply run_fuel_more.
  apply (good_not_OutOfFuel input). exact (parse_from_good input).
Qed.

(** A run that ends with the error function's exception for a token has
    read the input up to that token and no further. *)
Lemma run_error_prefix (fuel : nat) :
  forall (ss : list nat) (vs : list value) (input : list LexToken)
         (log : list nat) (st : store) (t : LexToken),
    run fuel ss vs input log st = Raise (ParserError (Some t)) ->
    exists pre post : list LexToken,
      input = pre ++ t :: post
      /\ forall post' : list LexToken,
          run fuel ss vs (pre ++ t :: post') log st = Raise (ParserError (Some t)).
Proof.
  induction fuel as [|fuel IH]; intros ss vs input log st t H; [discriminate H|].
  cbn [parse_loop] in H.
  destruct (action_at parser (hd O ss) (lookahead_type input)) as [[u|r|]|] eqn:Ha.
  - destruct input as [|tok rest]; [discriminate H|].
    destruct (IH _ _ _ _ _ _ H) as (pre & post & -> & Hall).
    exists (tok :: pre), post. split; [reflexivity|].
    intros post'. cbn [parse_loop app lookahead_type]. cbn [lookahead_type] in Ha.
    rewrite Ha. apply Hall.
  - unfold bind in H. destruct (callable r _ st) as [v st'|e] eqn:Hc.
    + destruct (goto_at parser _ _) as [s'|] eqn:Hg; [|discriminate H].
      destruct (IH _ _ _ _ _ _ H) as (pre & post & -> & Hall).
      exists pre, post. split; [reflexivity|].
      intros post'. cbn [parse_loop].
      replace (lookahead_type (pre ++ t :: post'))
        with (lookahead_type (pre ++ t :: post)) by (destruct pre; reflexivity).
      rewrite Ha. unfold bind. rewrite Hc, Hg. apply Hall.
    + inversion H. subst e. pose proof (callable_clean _ _ _ _ Hc) as Hx. discriminate Hx.
  - discriminate H.
  - unfold bind, p_error, raise in H. destruct input as [|tok rest]; [discriminate H|].
    cbn [head] in H. inversion H. subst tok.
    exists [], rest. split; [reflexivity|].
    intros post'. cbn [parse_loop app lookahead_type]. cbn [lookahead_type] in Ha.
    rewrite Ha. reflexivity.
Qed.
End Safe.

Lemma drop_log_raise (r : result (value * list nat)) (e : exn) :
  drop_log r = Raise e -> r = Raise e.
Proof. destruct r as [[v l] st|x]; cbn [drop_log]; [discriminate | intros H; inversion H; reflexivity]. Qed.

(** X15.  The driver never fails on its own account: on every token
    sequence the parse ends with a value, with the exception of the error
    function, or with an exception raised by an action, so a goto is never
    missing and the stack never runs out; and it ends within the step budget,
    a larger budget giving the same result. *)
Theorem parse_always_ends (input : list LexToken) :
  ((exists (v : value) (st : store), parse input = Ok v st)
   \/ (exists p : option LexToken, parse input = Raise (ParserError p))
   \/ (exists e : exn, action_exn e = true /\ parse input = Raise e))
  /\ forall extra : nat,
      drop_log (parse_loop Productions callable p_error parser
                           (extra + parse_fuel input) [O] [VNone] input [] [])
      = parse input.
Proof.
  split.
  - pose proof (parse_from_good input) as H. unfold parse.
    destruct (parse_from [] input) as [[v l] st|e]; cbn [drop_log].
    + left. exists v, st. reflexivity.
    + destruct e; cbn [good] in H;
        first [ right; left; eexists; reflexivity
              | right; right; eexists; split; [|reflexivity]; reflexivity
              | discriminate H ].
  - intros extra. unfold parse. rewrite parse_any_budget. reflexivity.
Qed.

(** X16.  A parser error names the token at which the parse stopped: the
    token is in the input, and the tokens after it play no role, every input
    that agrees with this one up to that token being rejected with the same
    error. *)
Theorem parser_error_at_the_offending_token (input : list LexToken) (t : LexToken) :
  parse input = Raise (ParserError (Some t)) ->
  exists pre post : list LexToken,
    input = pre ++ t :: post
    /\ forall post' : list LexToken,
        parse (pre ++ t :: post') = Raise (ParserError (Some t)).
Proof.
  intros H. unfold parse in H. apply drop_log_raise in H.
  set (big := fun l : list LexToken => (parse_fuel l + parse_fuel input)%nat).
  assert (Hbig : forall l, parse_from [] l
                           = parse_loop Productions callable p_error parser
                                        (parse_fuel input + parse_fuel l) [O] [VNone] l [] []).
  { intros l. symmetry. apply parse_any_budget. }
  destruct (run_error_prefix (parse_fuel input) _ _ _ _ _ _ H) as (pre & post & E & Hall).
  exists pre, post. split; [exact E|].
  intros post'. unfold parse. rewrite Hbig.
  replace (parse_fuel input + parse_fuel (pre ++ t :: post'))%nat
    with (parse_fuel (pre ++ t :: post') + parse_fuel input)%nat by lia.
  rewrite run_fuel_more.
  - rewrite Hall. reflexivity.
  - rewrite Hall. discriminate.
Qed.

Lemma parser_error_at_the_offending_token_witness :
  exists pre post : list LexToken,
    [INTEGER 1; PLUS; RPAREN; INTEGER 2] = pre ++ RPAREN :: post
    /\ forall post' : list LexToken,
        parse (pre ++ RPAREN :: post') = Raise (ParserError (Some RPAREN)).
Proof.
  apply (parser_error_at_the_offending_token [INTEGER 1; PLUS; RPAREN; INTEGER 2] RPAREN).
  vm_compute. reflexivity.
Defined.
